(** * WordGotchi: the storage service

    A shallow embedding of [frontend/src/services/StorageService.ts]: the
    module-level state of the service (memory mirror, pending buffers,
    debounce timers), the browser's [localStorage] it writes to, and every
    method of [StorageServiceImpl], followed by the properties the
    specification states about them. The reducer of
    [frontend/src/contexts/GotchiContext.tsx], which calls the service, and
    the text and emotion utilities of [frontend/src/utils] come after the
    service, with properties of their own.

    Host functions ([localStorage], [JSON], [Array.prototype.slice],
    [Math.floor], binary64 multiplication) are modelled by their ECMAScript
    meaning; the service's own functions are transcribed statement by
    statement, with explicit state passing. *)

From Stdlib Require Import ZArith QArith Qcanon Ascii String List Lia.
From Stdlib Require Import SpecFloat.
From stdpp Require Import base option list gmap strings countable.

Local Open Scope Z_scope.

(** ** JavaScript values that JSON can carry *)

(** A number is the rational it denotes: the service stores numbers and
    compares [stage] with 1 and 2, it never computes with them. *)
Definition number : Type := Qc.

#[warnings="-register-all"]
Inductive jsval : Type :=
| JNull
| JBool (b : bool)
| JNum (n : number)
| JStr (s : string)
| JArr (items : list jsval)
| JObj (fields : list (string * jsval)).

Inductive js_type : Type :=
| Tundefined | Tobject | Tboolean | Tnumber | Tstring.

(** [typeof x], where [None] stands for [undefined]. *)
Definition typeof (x : option jsval) : js_type :=
  match x with
  | None => Tundefined
  | Some JNull => Tobject
  | Some (JBool _) => Tboolean
  | Some (JNum _) => Tnumber
  | Some (JStr _) => Tstring
  | Some (JArr _) => Tobject
  | Some (JObj _) => Tobject
  end.

Definition js_type_eqb (a b : js_type) : bool :=
  match a, b with
  | Tundefined, Tundefined | Tobject, Tobject | Tboolean, Tboolean
  | Tnumber, Tnumber | Tstring, Tstring => true
  | _, _ => false
  end.

Definition string_is_empty (s : string) : bool :=
  match s with EmptyString => true | String _ _ => false end.

(** ToBoolean. *)
Definition truthy (v : jsval) : bool :=
  match v with
  | JNull => false
  | JBool b => b
  | JNum n => if Qc_eq_dec n (Q2Qc 0) then false else true
  | JStr s => negb (string_is_empty s)
  | JArr _ => true
  | JObj _ => true
  end.

(** ToBoolean of a value that may be [null] or [undefined]. *)
Definition truthy_opt (x : option jsval) : bool :=
  match x with Some v => truthy v | None => false end.

(** Own property of an object built by [JSON.parse]: of two members with
    the same name the later one is the property. *)
Fixpoint obj_get (fields : list (string * jsval)) (k : string) : option jsval :=
  match fields with
  | [] => None
  | (k', v) :: rest =>
      match obj_get rest k with
      | Some w => Some w
      | None => if String.eqb k' k then Some v else None
      end
  end.

(** [v.k] for the property names the service reads ([id], [stage],
    [feedingCount], [emotionVector], [createdAt]): none of them is a
    property of a string, a number, a boolean or an array. *)
Definition get_prop (v : jsval) (k : string) : option jsval :=
  match v with
  | JObj fields => obj_get fields k
  | _ => None
  end.

(** [x === n] for a number literal [n]. *)
Definition strict_eq_num (x : option jsval) (n : Z) : bool :=
  match x with
  | Some (JNum q) => if Qc_eq_dec q (Q2Qc (inject_Z n)) then true else false
  | _ => false
  end.

(** [Array.isArray]. *)
Definition Array_isArray (v : jsval) : bool :=
  match v with JArr _ => true | _ => false end.

(** [arr.slice(start)]: a negative [start] counts from the end, and the
    result runs to the end of the array. ECMAScript converts [start] with
    ToIntegerOrInfinity, which sends [-0] to [0]; in [Z] the two are the
    same number. *)
Definition Array_slice {A : Type} (start : Z) (l : list A) : list A :=
  let len := Z.of_nat (length l) in
  let k := if start <? 0 then Z.max (len + start) 0 else Z.min start len in
  drop (Z.to_nat k) l.

(** ** Binary64 arithmetic used by the service *)

Definition prec : Z := 53.
Definition emax : Z := 1024.

(** The double nearest to 0.8, [0x3FE999999999999A]. *)
Definition double_0_8 : spec_float := S754_finite false 7205759403792794 (-53).

(** An integer as a double. *)
Definition double_of_Z (n : Z) : spec_float := binary_normalize prec emax n 0 false.

Definition double_mul (x y : spec_float) : spec_float := SFmul prec emax x y.

(** [Math.floor] of a finite double, as an integer. *)
Definition Math_floor (x : spec_float) : Z :=
  match x with
  | S754_finite s m e =>
      let n := if s then Z.neg m else Z.pos m in
      if 0 <=? e then n * 2 ^ e else n / 2 ^ (- e)
  | _ => 0
  end.

(** [z > x] for an integer [z] and a double [x]. The sizes the service
    compares are integers far below 2^53, which are doubles themselves, so
    the comparison of the two doubles is the comparison of the numbers
    they denote. *)
Definition Z_gtb_double (z : Z) (x : spec_float) : bool :=
  match x with
  | S754_zero _ => 0 <? z
  | S754_infinity s => s
  | S754_nan => false
  | S754_finite s m e =>
      let n := if s then Z.neg m else Z.pos m in
      if 0 <=? e then n * 2 ^ e <? z else n <? z * 2 ^ (- e)
  end.

(** [Math.floor(n * 0.8)] for an array length [n]. *)
Definition floor_times_0_8 (n : nat) : Z :=
  Math_floor (double_mul (double_of_Z (Z.of_nat n)) double_0_8).

(** ** The browser's JSON object *)

(** [JSON.stringify] and [JSON.parse] belong to the host. The service relies
    on two facts about them: parsing what was printed gives the value back,
    and no value prints as the empty string. [None] stands for a thrown
    [SyntaxError]. *)
Class JSON : Type := {
  JSON_stringify : jsval -> string;
  JSON_parse : string -> option jsval;
  JSON_parse_stringify : forall v, JSON_parse (JSON_stringify v) = Some v;
  JSON_stringify_nonempty : forall v, JSON_stringify v <> EmptyString
}.

(** ** Records of [types] *)

Record EmotionVector : Type := {
  joy : number;
  sadness : number;
  anger : number;
  fear : number;
  surprise : number;
  disgust : number;
  trust : number;
  lastUpdated : number
}.

(** [stage: 1 | 2]. *)
Inductive Stage : Type := Obake | Furin.

Definition stage_number (s : Stage) : Z :=
  match s with Obake => 1 | Furin => 2 end.

Record GotchiState : Type := {
  gotchi_id : string;
  gotchi_stage : Stage;
  gotchi_feedingCount : number;
  gotchi_emotionVector : EmotionVector;
  gotchi_createdAt : number
}.

(** The object a [GotchiState] is at run time. *)
Definition EmotionVector_js (e : EmotionVector) : jsval :=
  JObj [("joy"%string, JNum (joy e)); ("sadness"%string, JNum (sadness e));
        ("anger"%string, JNum (anger e)); ("fear"%string, JNum (fear e));
        ("surprise"%string, JNum (surprise e)); ("disgust"%string, JNum (disgust e));
        ("trust"%string, JNum (trust e)); ("lastUpdated"%string, JNum (lastUpdated e))].

Definition GotchiState_js (s : GotchiState) : jsval :=
  JObj [("id"%string, JStr (gotchi_id s));
        ("stage"%string, JNum (Q2Qc (inject_Z (stage_number (gotchi_stage s)))));
        ("feedingCount"%string, JNum (gotchi_feedingCount s));
        ("emotionVector"%string, EmotionVector_js (gotchi_emotionVector s));
        ("createdAt"%string, JNum (gotchi_createdAt s))].

(** ** The browser's localStorage *)

Inductive DOMException : Type :=
| QuotaExceededError
| SecurityError.

(** [error instanceof Error && error.name === 'QuotaExceededError']. *)
Definition is_quota_error (e : DOMException) : bool :=
  match e with QuotaExceededError => true | SecurityError => false end.

(** The store holds strings under string keys. Whether [setItem] throws is
    the host's decision; [rejects] records it as a function of the current
    contents, the key and the value, which covers a full quota, a disabled
    store and a store that accepts everything. *)
Record LocalStorage : Type := {
  items : gmap string string;
  rejects : gmap string string -> string -> string -> option DOMException
}.

(** ** Module state of StorageService.ts *)

Record MemoryStorage : Type := {
  mem_gotchi : option jsval;
  mem_feedingHistory : list jsval;
  mem_expressions : list jsval
}.

(** A timer variable: [None] is [null]; [Some true] is the handle of a
    timeout that is still due; [Some false] the handle of one that has
    fired or was cleared. *)
Definition timer : Type := option bool.

Record Engine : Type := {
  localStorage : LocalStorage;
  memoryOnlyMode : bool;
  memoryStorage : MemoryStorage;
  gotchiSaveTimer : timer;
  feedingSaveTimer : timer;
  expressionSaveTimer : timer;
  pendingGotchiState : option jsval;
  pendingFeedingRecords : list jsval;
  pendingExpressions : list jsval
}.

Definition set_items (m : gmap string string) (st : Engine) : Engine :=
  {| localStorage := {| items := m; rejects := rejects (localStorage st) |};
     memoryOnlyMode := memoryOnlyMode st;
     memoryStorage := memoryStorage st;
     gotchiSaveTimer := gotchiSaveTimer st;
     feedingSaveTimer := feedingSaveTimer st;
     expressionSaveTimer := expressionSaveTimer st;
     pendingGotchiState := pendingGotchiState st;
     pendingFeedingRecords := pendingFeedingRecords st;
     pendingExpressions := pendingExpressions st |}.

Definition set_memoryOnlyMode (b : bool) (st : Engine) : Engine :=
  {| localStorage := localStorage st;
     memoryOnlyMode := b;
     memoryStorage := memoryStorage st;
     gotchiSaveTimer := gotchiSaveTimer st;
     feedingSaveTimer := feedingSaveTimer st;
     expressionSaveTimer := expressionSaveTimer st;
     pendingGotchiState := pendingGotchiState st;
     pendingFeedingRecords := pendingFeedingRecords st;
     pendingExpressions := pendingExpressions st |}.

Definition set_memoryStorage (m : MemoryStorage) (st : Engine) : Engine :=
  {| localStorage := localStorage st;
     memoryOnlyMode := memoryOnlyMode st;
     memoryStorage := m;
     gotchiSaveTimer := gotchiSaveTimer st;
     feedingSaveTimer := feedingSaveTimer st;
     expressionSaveTimer := expressionSaveTimer st;
     pendingGotchiState := pendingGotchiState st;
     pendingFeedingRecords := pendingFeedingRecords st;
     pendingExpressions := pendingExpressions st |}.

Definition set_gotchiSaveTimer (t : timer) (st : Engine) : Engine :=
  {| localStorage := localStorage st;
     memoryOnlyMode := memoryOnlyMode st;
     memoryStorage := memoryStorage st;
     gotchiSaveTimer := t;
     feedingSaveTimer := feedingSaveTimer st;
     expressionSaveTimer := expressionSaveTimer st;
     pendingGotchiState := pendingGotchiState st;
     pendingFeedingRecords := pendingFeedingRecords st;
     pendingExpressions := pendingExpressions st |}.

Definition set_feedingSaveTimer (t : timer) (st : Engine) : Engine :=
  {| localStorage := localStorage st;
     memoryOnlyMode := memoryOnlyMode st;
     memoryStorage := memoryStorage st;
     gotchiSaveTimer := gotchiSaveTimer st;
     feedingSaveTimer := t;
     expressionSaveTimer := expressionSaveTimer st;
     pendingGotchiState := pendingGotchiState st;
     pendingFeedingRecords := pendingFeedingRecords st;
     pendingExpressions := pendingExpressions st |}.

Definition set_expressionSaveTimer (t : timer) (st : Engine) : Engine :=
  {| localStorage := localStorage st;
     memoryOnlyMode := memoryOnlyMode st;
     memoryStorage := memoryStorage st;
     gotchiSaveTimer := gotchiSaveTimer st;
     feedingSaveTimer := feedingSaveTimer st;
     expressionSaveTimer := t;
     pendingGotchiState := pendingGotchiState st;
     pendingFeedingRecords := pendingFeedingRecords st;
     pendingExpressions := pendingExpressions st |}.

Definition set_pendingGotchiState (p : option jsval) (st : Engine) : Engine :=
  {| localStorage := localStorage st;
     memoryOnlyMode := memoryOnlyMode st;
     memoryStorage := memoryStorage st;
     gotchiSaveTimer := gotchiSaveTimer st;
     feedingSaveTimer := feedingSaveTimer st;
     expressionSaveTimer := expressionSaveTimer st;
     pendingGotchiState := p;
     pendingFeedingRecords := pendingFeedingRecords st;
     pendingExpressions := pendingExpressions st |}.

Definition set_pendingFeedingRecords (p : list jsval) (st : Engine) : Engine :=
  {| localStorage := localStorage st;
     memoryOnlyMode := memoryOnlyMode st;
     memoryStorage := memoryStorage st;
     gotchiSaveTimer := gotchiSaveTimer st;
     feedingSaveTimer := feedingSaveTimer st;
     expressionSaveTimer := expressionSaveTimer st;
     pendingGotchiState := pendingGotchiState st;
     pendingFeedingRecords := p;
     pendingExpressions := pendingExpressions st |}.

Definition set_pendingExpressions (p : list jsval) (st : Engine) : Engine :=
  {| localStorage := localStorage st;
     memoryOnlyMode := memoryOnlyMode st;
     memoryStorage := memoryStorage st;
     gotchiSaveTimer := gotchiSaveTimer st;
     feedingSaveTimer := feedingSaveTimer st;
     expressionSaveTimer := expressionSaveTimer st;
     pendingGotchiState := pendingGotchiState st;
     pendingFeedingRecords := pendingFeedingRecords st;
     pendingExpressions := p |}.

Definition set_mem_gotchi (g : option jsval) (st : Engine) : Engine :=
  set_memoryStorage
    {| mem_gotchi := g;
       mem_feedingHistory := mem_feedingHistory (memoryStorage st);
       mem_expressions := mem_expressions (memoryStorage st) |} st.

Definition set_mem_feedingHistory (l : list jsval) (st : Engine) : Engine :=
  set_memoryStorage
    {| mem_gotchi := mem_gotchi (memoryStorage st);
       mem_feedingHistory := l;
       mem_expressions := mem_expressions (memoryStorage st) |} st.

Definition set_mem_expressions (l : list jsval) (st : Engine) : Engine :=
  set_memoryStorage
    {| mem_gotchi := mem_gotchi (memoryStorage st);
       mem_feedingHistory := mem_feedingHistory (memoryStorage st);
       mem_expressions := l |} st.

(** The module as it stands when the page has loaded it, over a given
    browser store. *)
Definition initial_engine (ls : LocalStorage) : Engine :=
  {| localStorage := ls;
     memoryOnlyMode := false;
     memoryStorage := {| mem_gotchi := None; mem_feedingHistory := []; mem_expressions := [] |};
     gotchiSaveTimer := None;
     feedingSaveTimer := None;
     expressionSaveTimer := None;
     pendingGotchiState := None;
     pendingFeedingRecords := [];
     pendingExpressions := [] |}.

(** [localStorage.setItem]: [inl e] when the host throws [e], the store
    being left as it was. *)
Definition setItem (k v : string) (st : Engine) : DOMException + Engine :=
  match rejects (localStorage st) (items (localStorage st)) k v with
  | Some e => inl e
  | None => inr (set_items (<[k := v]> (items (localStorage st))) st)
  end.

Definition removeItem (k : string) (st : Engine) : Engine :=
  set_items (delete k (items (localStorage st))) st.

(** [localStorage.getItem]; [None] is [null]. *)
Definition getItem (k : string) (st : Engine) : option string :=
  items (localStorage st) !! k.

(** ** Constants *)

Definition STORAGE_KEY_PREFIX : string := "wordgotchi".
Definition GOTCHI_KEY : string := "wordgotchi.gotchi".
Definition FEEDING_HISTORY_KEY : string := "wordgotchi.feedingHistory".
Definition EXPRESSIONS_KEY : string := "wordgotchi.expressions".

Definition MAX_FEEDING_RECORDS : Z := 1000.
Definition MAX_EXPRESSIONS : Z := 500.
Definition MAX_STORAGE_SIZE_BYTES : Z := 5 * 1024 * 1024.
Definition BATCH_SIZE : Z := 10.

Definition testKey : string := "__storage_test__".

(** The service keeps two append-only logs with the same code, once for
    feeding records and once for expressions: [saveFeedingRecord] and
    [saveExpression], [flushFeedingRecords] and [flushExpressions],
    [getFeedingHistory] and [getExpressions] differ in the key, the cap and
    the module variables they name, and in nothing else. The model writes
    that text once, over a selector. *)
Inductive Log : Type := FeedingLog | ExpressionLog.

#[global] Instance Log_eq_dec : EqDecision Log.
Proof. solve_decision. Defined.

Definition log_key (k : Log) : string :=
  match k with FeedingLog => FEEDING_HISTORY_KEY | ExpressionLog => EXPRESSIONS_KEY end.

Definition log_max (k : Log) : Z :=
  match k with FeedingLog => MAX_FEEDING_RECORDS | ExpressionLog => MAX_EXPRESSIONS end.

Definition log_memory (k : Log) (st : Engine) : list jsval :=
  match k with
  | FeedingLog => mem_feedingHistory (memoryStorage st)
  | ExpressionLog => mem_expressions (memoryStorage st)
  end.

Definition set_log_memory (k : Log) (l : list jsval) (st : Engine) : Engine :=
  match k with
  | FeedingLog => set_mem_feedingHistory l st
  | ExpressionLog => set_mem_expressions l st
  end.

Definition log_pending (k : Log) (st : Engine) : list jsval :=
  match k with
  | FeedingLog => pendingFeedingRecords st
  | ExpressionLog => pendingExpressions st
  end.

Definition set_log_pending (k : Log) (l : list jsval) (st : Engine) : Engine :=
  match k with
  | FeedingLog => set_pendingFeedingRecords l st
  | ExpressionLog => set_pendingExpressions l st
  end.

Definition log_timer (k : Log) (st : Engine) : timer :=
  match k with
  | FeedingLog => feedingSaveTimer st
  | ExpressionLog => expressionSaveTimer st
  end.

Definition set_log_timer (k : Log) (t : timer) (st : Engine) : Engine :=
  match k with
  | FeedingLog => set_feedingSaveTimer t st
  | ExpressionLog => set_expressionSaveTimer t st
  end.

(** [if (t) clearTimeout(t)]: the variable keeps its handle. *)
Definition clearTimeout (t : timer) : timer :=
  match t with Some _ => Some false | None => None end.

(** ** StorageServiceImpl *)

Section StorageServiceImpl.

Context `{JSON}.

(** [isLocalStorageAvailable]: a trial write and delete, unless the module
    already runs on the memory mirror. *)
Definition isLocalStorageAvailable (st : Engine) : bool * Engine :=
  if memoryOnlyMode st then (false, st)
  else
    match setItem testKey "test" st with
    | inr st1 => (true, removeItem testKey st1)
    | inl _ => (false, set_memoryOnlyMode true st)
    end.

(** [isValidGotchiState]. *)
Definition isValidGotchiState (state : jsval) : bool :=
  truthy state
  && js_type_eqb (typeof (get_prop state "id")) Tstring
  && (strict_eq_num (get_prop state "stage") 1 || strict_eq_num (get_prop state "stage") 2)
  && js_type_eqb (typeof (get_prop state "feedingCount")) Tnumber
  && truthy_opt (get_prop state "emotionVector")
  && js_type_eqb (typeof (get_prop state "emotionVector")) Tobject
  && js_type_eqb (typeof (get_prop state "createdAt")) Tnumber.

(** [loadGotchi]. *)
Definition loadGotchi (st : Engine) : option jsval * Engine :=
  let '(available, st) := isLocalStorageAvailable st in
  if negb available then (mem_gotchi (memoryStorage st), st)
  else
    match getItem GOTCHI_KEY st with
    | None => (None, st)
    | Some serialized =>
        if string_is_empty serialized then (None, st)
        else
          match JSON_parse serialized with
          | Some state =>
              if negb (isValidGotchiState state)
              then (None, removeItem GOTCHI_KEY st)
              else (Some state, st)
          | None => (None, removeItem GOTCHI_KEY st)
          end
    end.

(** [getFeedingHistory] and [getExpressions]. *)
Definition getLog (k : Log) (limit : Z) (st : Engine) : list jsval * Engine :=
  let '(available, st) := isLocalStorageAvailable st in
  if negb available then (Array_slice (- limit) (log_memory k st), st)
  else
    match getItem (log_key k) st with
    | None => ([], st)
    | Some serialized =>
        if string_is_empty serialized then ([], st)
        else
          match JSON_parse serialized with
          | Some (JArr history) => (Array_slice (- limit) history, st)
          | Some _ => ([], removeItem (log_key k) st)
          | None => ([], removeItem (log_key k) st)
          end
    end.

Definition getFeedingHistory : Z -> Engine -> list jsval * Engine := getLog FeedingLog.
Definition getExpressions : Z -> Engine -> list jsval * Engine := getLog ExpressionLog.

(** The loop body of [checkStorageSize], for one key of the store. *)
Definition size_step (key value : string) (totalSize : Z) : Z :=
  if negb (string_is_empty key) && String.prefix STORAGE_KEY_PREFIX key
  then
    if negb (string_is_empty value)
    then totalSize + (Z.of_nat (String.length key) * 2 + Z.of_nat (String.length value) * 2)
    else totalSize
  else totalSize.

(** [checkStorageSize]. *)
Definition checkStorageSize (st : Engine) : Z * Engine :=
  let '(available, st) := isLocalStorageAvailable st in
  if negb available then (0, st)
  else (map_fold size_step 0 (items (localStorage st)), st).

(** [isMemoryOnlyMode]. *)
Definition isMemoryOnlyMode (st : Engine) : bool := memoryOnlyMode st.

(** One log's share of [pruneOldData] on the memory mirror. *)
Definition prune_memory_log (k : Log) (st : Engine) : Engine :=
  let keepCount := floor_times_0_8 (length (log_memory k st)) in
  set_log_memory k (Array_slice (- keepCount) (log_memory k st)) st.

(** One log's share of [pruneOldData] on the browser store: [inl] when
    [setItem] throws. *)
Definition prune_stored_log (k : Log) (st : Engine) : Engine + Engine :=
  let '(entries, st) := getLog k (log_max k) st in
  let keepCount := floor_times_0_8 (length entries) in
  let pruned := Array_slice (- keepCount) entries in
  match setItem (log_key k) (JSON_stringify (JArr pruned)) st with
  | inr st => inr st
  | inl _ => inl st
  end.

(** [pruneOldData]. *)
Definition pruneOldData (st : Engine) : Engine :=
  let '(available, st) := isLocalStorageAvailable st in
  if negb available
  then prune_memory_log ExpressionLog (prune_memory_log FeedingLog st)
  else
    match prune_stored_log FeedingLog st with
    | inl st => st
    | inr st =>
        match prune_stored_log ExpressionLog st with
        | inl st => st
        | inr st => st
        end
    end.

(** One log's share of [compressStoredData]: [inl] when [setItem] throws. *)
Definition compress_stored_log (k : Log) (st : Engine) : Engine + Engine :=
  let '(entries, st) := getLog k (log_max k) st in
  if 0 <? Z.of_nat (length entries)
  then
    match setItem (log_key k) (JSON_stringify (JArr entries)) st with
    | inr st => inr st
    | inl _ => inl st
    end
  else inr st.

(** [compressStoredData]. *)
Definition compressStoredData (st : Engine) : Engine :=
  let '(available, st) := isLocalStorageAvailable st in
  if negb available then st
  else
    match compress_stored_log FeedingLog st with
    | inl st => st
    | inr st =>
        match compress_stored_log ExpressionLog st with
        | inl st => st
        | inr st =>
            let '(gotchi, st) := loadGotchi st in
            match gotchi with
            | Some g =>
                if truthy g
                then
                  match setItem GOTCHI_KEY (JSON_stringify g) st with
                  | inr st => st
                  | inl _ => st
                  end
                else st
            | None => st
            end
        end
    end.

(** [MAX_STORAGE_SIZE_BYTES * 0.8]. *)
Definition compressionThreshold : spec_float :=
  double_mul (double_of_Z MAX_STORAGE_SIZE_BYTES) double_0_8.

(** [currentSize > compressionThreshold]. *)
Definition exceeds_threshold (currentSize : Z) : bool :=
  Z_gtb_double currentSize compressionThreshold.

(** [checkAndPruneIfNeeded]. *)
Definition checkAndPruneIfNeeded (st : Engine) : Engine :=
  let '(available, st) := isLocalStorageAvailable st in
  if negb available then st
  else
    let '(currentSize, st) := checkStorageSize st in
    let st :=
      if exceeds_threshold currentSize && (currentSize <=? MAX_STORAGE_SIZE_BYTES)
      then compressStoredData st
      else st in
    let '(sizeAfterCompression, st) := checkStorageSize st in
    if MAX_STORAGE_SIZE_BYTES <? sizeAfterCompression
    then pruneOldData st
    else st.

(** The callback [saveGotchi] hands to [setTimeout]. *)
Definition gotchiSaveTimer_callback (st : Engine) : Engine :=
  match pendingGotchiState st with
  | None => st
  | Some pending =>
      if negb (truthy pending) then st
      else
        match setItem GOTCHI_KEY (JSON_stringify pending) st with
        | inr st => set_pendingGotchiState None (checkAndPruneIfNeeded st)
        | inl error =>
            if is_quota_error error
            then
              let st := pruneOldData st in
              match setItem GOTCHI_KEY (JSON_stringify pending) st with
              | inr st => set_pendingGotchiState None st
              | inl _ =>
                  set_pendingGotchiState None
                    (set_mem_gotchi (Some pending) (set_memoryOnlyMode true st))
              end
            else
              set_pendingGotchiState None
                (set_mem_gotchi (Some pending) (set_memoryOnlyMode true st))
        end
  end.

(** [saveGotchi]. *)
Definition saveGotchi (state : jsval) (st : Engine) : Engine :=
  let st := set_pendingGotchiState (Some state) st in
  let '(available, st) := isLocalStorageAvailable st in
  if negb available then set_mem_gotchi (Some state) st
  else set_gotchiSaveTimer (Some true) (set_gotchiSaveTimer (clearTimeout (gotchiSaveTimer st)) st).

(** [flushGotchiState]. *)
Definition flushGotchiState (st : Engine) : Engine :=
  let st := set_gotchiSaveTimer None st in
  match pendingGotchiState st with
  | None => st
  | Some pending =>
      if negb (truthy pending) then st
      else
        let '(available, st) := isLocalStorageAvailable st in
        if negb available
        then set_pendingGotchiState None (set_mem_gotchi (Some pending) st)
        else
          match setItem GOTCHI_KEY (JSON_stringify pending) st with
          | inr st => set_pendingGotchiState None st
          | inl _ => set_pendingGotchiState None (set_mem_gotchi (Some pending) st)
          end
  end.

(** [memoryStorage.x.push(...records)] followed by the cap on the mirror. *)
Definition push_memory_capped (k : Log) (records : list jsval) (st : Engine) : Engine :=
  let st := set_log_memory k (log_memory k st ++ records) st in
  if log_max k <? Z.of_nat (length (log_memory k st))
  then set_log_memory k (Array_slice (- log_max k) (log_memory k st)) st
  else st.

(** The [try] block shared by the first attempt and the retry of a flush:
    read the stored log, append the pending records, trim, write. *)
Definition write_log (k : Log) (st : Engine) : DOMException * Engine + Engine :=
  let '(history, st) := getLog k (log_max k) st in
  let history := history ++ log_pending k st in
  let trimmed := Array_slice (- log_max k) history in
  match setItem (log_key k) (JSON_stringify (JArr trimmed)) st with
  | inr st => inr st
  | inl error => inl (error, st)
  end.

(** The fallback of a failed flush: switch to the mirror and move the
    pending records there. *)
Definition fallback_log (k : Log) (st : Engine) : Engine :=
  let st := set_memoryOnlyMode true st in
  let st := set_log_memory k (log_memory k st ++ log_pending k st) st in
  set_log_pending k [] st.

(** [flushFeedingRecords] and [flushExpressions]. *)
Definition flushLog (k : Log) (st : Engine) : Engine :=
  let st := set_log_timer k None st in
  if (Z.of_nat (length (log_pending k st)) =? 0) then st
  else
    let '(available, st) := isLocalStorageAvailable st in
    if negb available
    then set_log_pending k [] (push_memory_capped k (log_pending k st) st)
    else
      match write_log k st with
      | inr st => set_log_pending k [] (checkAndPruneIfNeeded st)
      | inl (error, st) =>
          if is_quota_error error
          then
            let st := pruneOldData st in
            match write_log k st with
            | inr st => set_log_pending k [] st
            | inl (_, st) => fallback_log k st
            end
          else fallback_log k st
      end.

Definition flushFeedingRecords : Engine -> Engine := flushLog FeedingLog.
Definition flushExpressions : Engine -> Engine := flushLog ExpressionLog.

(** [saveFeedingRecord] and [saveExpression]. *)
Definition saveLog (k : Log) (record : jsval) (st : Engine) : Engine :=
  let st := set_log_pending k (log_pending k st ++ [record]) st in
  let '(available, st) := isLocalStorageAvailable st in
  if negb available
  then set_log_pending k [] (push_memory_capped k [record] st)
  else
    let st := set_log_timer k (clearTimeout (log_timer k st)) st in
    let shouldFlushImmediately := BATCH_SIZE <=? Z.of_nat (length (log_pending k st)) in
    if shouldFlushImmediately
    then flushLog k st
    else set_log_timer k (Some true) st.

Definition saveFeedingRecord : jsval -> Engine -> Engine := saveLog FeedingLog.
Definition saveExpression : jsval -> Engine -> Engine := saveLog ExpressionLog.

(** [flushAll]. *)
Definition flushAll (st : Engine) : Engine :=
  flushExpressions (flushFeedingRecords (flushGotchiState st)).

(** The event loop runs a timeout that is still due: the handle stays in
    its variable and the callback runs. *)
Definition fire_gotchiSaveTimer (st : Engine) : Engine :=
  match gotchiSaveTimer st with
  | Some true => gotchiSaveTimer_callback (set_gotchiSaveTimer (Some false) st)
  | _ => st
  end.

Definition fire_logTimer (k : Log) (st : Engine) : Engine :=
  match log_timer k st with
  | Some true => flushLog k (set_log_timer k (Some false) st)
  | _ => st
  end.

(** *** What the stores hold

    The content of a store read without its side effects: what
    [getFeedingHistory] and [getExpressions] return before slicing, and what
    [loadGotchi] returns, when the module runs on the browser store. *)
Definition stored_log (k : Log) (m : gmap string string) : list jsval :=
  match m !! log_key k with
  | Some serialized =>
      if string_is_empty serialized then []
      else
        match JSON_parse serialized with
        | Some (JArr history) => history
        | _ => []
        end
  | None => []
  end.

Definition stored_gotchi (m : gmap string string) : option jsval :=
  match m !! GOTCHI_KEY with
  | Some serialized =>
      if string_is_empty serialized then None
      else
        match JSON_parse serialized with
        | Some state => if isValidGotchiState state then Some state else None
        | None => None
        end
  | None => None
  end.

(** The log the service is working with: the mirror in memory-only mode,
    the browser store otherwise. *)
Definition current_log (k : Log) (st : Engine) : list jsval :=
  if memoryOnlyMode st then log_memory k st
  else stored_log k (items (localStorage st)).

(** Both persisted logs are within their caps. *)
Definition capped (m : gmap string string) : Prop :=
  forall k, Z.of_nat (length (stored_log k m)) <= log_max k.

(** The browser store accepts every write. *)
Definition accepts_all (st : Engine) : Prop :=
  forall m k v, rejects (localStorage st) m k v = None.

(** The browser store rejects every write. *)
Definition rejects_all (st : Engine) : Prop :=
  forall m k v, rejects (localStorage st) m k v <> None.

(** The module runs on a browser store that accepts every write. *)
Definition steady (st : Engine) : Prop :=
  memoryOnlyMode st = false /\ accepts_all st.

(** A save followed by a flush, and a sequence of them. *)
Inductive Save : Type :=
| SaveFeedingRecord (record : jsval)
| SaveExpression (expression : jsval).

Definition save_then_flush (st : Engine) (op : Save) : Engine :=
  match op with
  | SaveFeedingRecord record => flushAll (saveFeedingRecord record st)
  | SaveExpression expression => flushAll (saveExpression expression st)
  end.

Definition run (ops : list Save) (st : Engine) : Engine :=
  fold_left save_then_flush ops st.

(** The records of one log among a sequence of saves, in the order saved. *)
Fixpoint saved (k : Log) (ops : list Save) : list jsval :=
  match ops with
  | [] => []
  | SaveFeedingRecord record :: rest =>
      match k with FeedingLog => record :: saved k rest | ExpressionLog => saved k rest end
  | SaveExpression expression :: rest =>
      match k with FeedingLog => saved k rest | ExpressionLog => expression :: saved k rest end
  end.

(** *** importData *)

(** Modelled from the spec: [importData] is declared by the [StorageService]
    interface and called by the tests, but [StorageServiceImpl] under src/
    has no such method. The specification (section 4.5) reads: parse the
    text; on a parse failure return [false] and leave all state untouched;
    on success validate the top-level shape with the validation of
    [loadGotchi], and return [false] without mutating state when it fails;
    otherwise replace the content of the three stores with the document's
    and return [true]. The document is
    [{ gotchi: GotchiState | null, feedingHistory: [...], expressions: [...] }],
    with the field names the tests use. *)
Definition valid_document (doc : jsval) : bool :=
  match get_prop doc "gotchi", get_prop doc "feedingHistory", get_prop doc "expressions" with
  | Some gotchi, Some (JArr _), Some (JArr _) =>
      match gotchi with
      | JNull => true
      | _ => isValidGotchiState gotchi
      end
  | _, _, _ => false
  end.

(** Modelled from the spec: the replacement of one store by the imported
    content, on the browser store. *)
Definition replace_item (key : string) (content : option jsval) (st : Engine)
  : DOMException + Engine :=
  match content with
  | Some v => setItem key (JSON_stringify v) st
  | None => inr (removeItem key st)
  end.

(** Modelled from the spec: see [valid_document]. *)
Definition importData (jsonData : string) (st : Engine) : bool * Engine :=
  match JSON_parse jsonData with
  | None => (false, st)
  | Some doc =>
      if negb (valid_document doc) then (false, st)
      else
        let gotchi :=
          match get_prop doc "gotchi" with
          | Some JNull => None
          | g => g
          end in
        let history :=
          match get_prop doc "feedingHistory" with Some (JArr l) => l | _ => [] end in
        let expressions :=
          match get_prop doc "expressions" with Some (JArr l) => l | _ => [] end in
        let '(available, st) := isLocalStorageAvailable st in
        if negb available
        then
          (true,
           set_memoryStorage
             {| mem_gotchi := gotchi;
                mem_feedingHistory := history;
                mem_expressions := expressions |} st)
        else
          match replace_item GOTCHI_KEY gotchi st with
          | inl _ => (false, st)
          | inr st =>
              match setItem FEEDING_HISTORY_KEY (JSON_stringify (JArr history)) st with
              | inl _ => (false, st)
              | inr st =>
                  match setItem EXPRESSIONS_KEY (JSON_stringify (JArr expressions)) st with
                  | inl _ => (false, st)
                  | inr st => (true, st)
                  end
              end
          end
  end.

(** *** Vocabulary of the properties *)

(** What [pruneOldData] keeps of a list. *)
Definition pruned (entries : list jsval) : list jsval :=
  Array_slice (- floor_times_0_8 (length entries)) entries.

(** A list, pruned or not. *)
Definition maybe_pruned (b : bool) (l : list jsval) : list jsval :=
  if b then pruned l else l.

(** Two stores that the loads cannot tell apart. *)
Definition same_views (m m' : gmap string string) : Prop :=
  stored_gotchi m' = stored_gotchi m /\ forall k, stored_log k m' = stored_log k m.

(** The host's policy never changes, and the persisted logs stay within
    their caps, whatever the store accepts or rejects. *)
Definition store_ok (r : gmap string string -> string -> string -> option DOMException)
    (st : Engine) : Prop :=
  rejects (localStorage st) = r /\ capped (items (localStorage st)).

(** The log a save goes to, and the record it saves. *)
Definition op_log (op : Save) : Log :=
  match op with SaveFeedingRecord _ => FeedingLog | SaveExpression _ => ExpressionLog end.

Definition op_record (op : Save) : jsval :=
  match op with SaveFeedingRecord r => r | SaveExpression e => e end.

(** A stored text that [loadGotchi] cannot use. *)
Definition corrupt_gotchi (s : string) : Prop :=
  JSON_parse s = None
  \/ exists v, JSON_parse s = Some v /\ isValidGotchiState v = false.

(** A stored text that [getFeedingHistory] and [getExpressions] cannot use. *)
Definition corrupt_log (s : string) : Prop :=
  JSON_parse s = None
  \/ exists v, JSON_parse s = Some v /\ Array_isArray v = false.

(** The module works on the browser store and the store takes the trial
    write of [isLocalStorageAvailable]. *)
Definition store_in_use (st : Engine) : Prop :=
  memoryOnlyMode st = false
  /\ rejects (localStorage st) (items (localStorage st)) testKey "test" = None.

(** What the reads, the size check, compaction and pruning never write:
    the host's policy, the timers, the pending buffers and the pet of the
    mirror. *)
Definition frame_of (st : Engine) :=
  (rejects (localStorage st), gotchiSaveTimer st, feedingSaveTimer st, expressionSaveTimer st,
   pendingGotchiState st, pendingFeedingRecords st, pendingExpressions st,
   mem_gotchi (memoryStorage st)).

(** The calls a client and the event loop can make. *)
Inductive Call : Type :=
| CallSaveGotchi (state : jsval)
| CallSaveFeedingRecord (record : jsval)
| CallSaveExpression (expression : jsval)
| CallFlushAll
| CallPruneOldData
| CallLoadGotchi
| CallGetFeedingHistory (limit : Z)
| CallGetExpressions (limit : Z)
| CallCheckStorageSize
| TimeoutGotchi
| TimeoutFeeding
| TimeoutExpressions.

Definition call (st : Engine) (c : Call) : Engine :=
  match c with
  | CallSaveGotchi state => saveGotchi state st
  | CallSaveFeedingRecord record => saveFeedingRecord record st
  | CallSaveExpression expression => saveExpression expression st
  | CallFlushAll => flushAll st
  | CallPruneOldData => pruneOldData st
  | CallLoadGotchi => snd (loadGotchi st)
  | CallGetFeedingHistory limit => snd (getFeedingHistory limit st)
  | CallGetExpressions limit => snd (getExpressions limit st)
  | CallCheckStorageSize => snd (checkStorageSize st)
  | TimeoutGotchi => fire_gotchiSaveTimer st
  | TimeoutFeeding => fire_logTimer FeedingLog st
  | TimeoutExpressions => fire_logTimer ExpressionLog st
  end.

Definition calls (cs : list Call) (st : Engine) : Engine := fold_left call cs st.

(** A text that [importData] must refuse. *)
Definition invalid_import (jsonData : string) : Prop :=
  JSON_parse jsonData = None
  \/ exists doc, JSON_parse jsonData = Some doc /\ valid_document doc = false.

(** The module works on a browser store that takes the trial write of
    [isLocalStorageAvailable] and has no room for the pet: every write
    under the pet's key throws. *)
Definition pet_rejected (st : Engine) : Prop :=
  memoryOnlyMode st = false
  /\ (forall m, rejects (localStorage st) m testKey "test" = None)
  /\ (forall m v, rejects (localStorage st) m GOTCHI_KEY v <> None).

(** *** Vocabulary of the further properties *)

(** The timers and the pending buffers of the module. *)
Definition buffers_of (st : Engine) :=
  (gotchiSaveTimer st, feedingSaveTimer st, expressionSaveTimer st,
   pendingGotchiState st, pendingFeedingRecords st, pendingExpressions st).

(** Nothing waits to be written: no pending pet, no pending record, no
    timer. *)
Definition settled (st : Engine) : Prop :=
  truthy_opt (pendingGotchiState st) = false
  /\ gotchiSaveTimer st = None
  /\ forall k, log_pending k st = [] /\ log_timer k st = None.

(** The calls that read. *)
Definition is_read (c : Call) : bool :=
  match c with
  | CallLoadGotchi | CallGetFeedingHistory _ | CallGetExpressions _
  | CallCheckStorageSize => true
  | _ => false
  end.

(** [n] calls of [saveFeedingRecord] or [saveExpression] in a row. *)
Definition saveLogs (k : Log) (records : list jsval) (st : Engine) : Engine :=
  fold_left (fun st record => saveLog k record st) records st.

(** The calls that read or prune. *)
Definition is_housekeeping (c : Call) : bool :=
  match c with
  | CallPruneOldData => true
  | _ => is_read c
  end.

(** A store after housekeeping, seen through the loads: the pet is the
    same and each log is a suffix of what it was. *)
Definition shrunk (m m' : gmap string string) : Prop :=
  stored_gotchi m' = stored_gotchi m
  /\ forall k,
       stored_log k m' `suffix_of` stored_log k m
       /\ (stored_log k m <> [] -> stored_log k m' <> []).

(** The module works on the browser store, whose policy is [r], and the
    store is what housekeeping has made of [m]. *)
Definition kept (m : gmap string string)
    (r : gmap string string -> string -> string -> option DOMException)
    (st : Engine) : Prop :=
  memoryOnlyMode st = false
  /\ rejects (localStorage st) = r
  /\ shrunk m (items (localStorage st)).

End StorageServiceImpl.

(** * GotchiContext: the reducer

    [contexts/GotchiContext.tsx] keeps the state the components show and
    calls the storage service; its reducer is a pure function of the state
    and the action. Feeding records and expressions are the values the
    storage service stores; the pet is a [GotchiState]. *)

Module GotchiContext.

(** An entry of [currentFeedingWords]. *)
Record FeedingWord : Type := {
  word : string;
  word_x : number;
  word_y : number;
  word_id : string
}.

Record GotchiContextState : Type := {
  gotchi : option GotchiState;
  feedingHistory : list jsval;
  expressions : list jsval;
  isLoading : bool;
  isAnalyzingEmotions : bool;
  isGeneratingArt : bool;
  isGeneratingPoetry : bool;
  error : option string;
  currentFeedingWords : list FeedingWord;
  currentInputText : string;
  isEvolutionAnimationPlaying : bool;
  evolutionFromStage : option number;
  evolutionToStage : option number;
  currentExpression : option jsval
}.

Inductive GotchiAction : Type :=
| INITIALIZE_GOTCHI (payload : GotchiState)
| FEED_WORDS (record : jsval) (updatedGotchi : GotchiState)
| UPDATE_EMOTIONS (emotionVector : EmotionVector)
| START_EVOLUTION (fromStage toStage : number)
| COMPLETE_EVOLUTION (updatedGotchi : GotchiState)
| ADD_EXPRESSIONS (art poetry : jsval)
| LOAD_HISTORY (feedingHistory expressions : list jsval)
| SET_ERROR (payload : string)
| CLEAR_ERROR
| SET_LOADING (payload : bool)
| SET_ANALYZING_EMOTIONS (payload : bool)
| SET_GENERATING_ART (payload : bool)
| SET_GENERATING_POETRY (payload : bool)
| START_FEEDING_SESSION (inputText : string) (words : list FeedingWord)
| REMOVE_WORD (payload : string)
| SHOW_EXPRESSION (payload : jsval)
| CLOSE_EXPRESSION.

Definition initialState : GotchiContextState :=
  {| gotchi := None;
     feedingHistory := [];
     expressions := [];
     isLoading := true;
     isAnalyzingEmotions := false;
     isGeneratingArt := false;
     isGeneratingPoetry := false;
     error := None;
     currentFeedingWords := [];
     currentInputText := "";
     isEvolutionAnimationPlaying := false;
     evolutionFromStage := None;
     evolutionToStage := None;
     currentExpression := None |}.

(** [gotchiReducer]. *)
Definition gotchiReducer (state : GotchiContextState) (action : GotchiAction)
  : GotchiContextState :=
  match action with
  | INITIALIZE_GOTCHI payload =>
      {| gotchi := Some payload;
         feedingHistory := feedingHistory state;
         expressions := expressions state;
         isLoading := false;
         isAnalyzingEmotions := isAnalyzingEmotions state;
         isGeneratingArt := isGeneratingArt state;
         isGeneratingPoetry := isGeneratingPoetry state;
         error := error state;
         currentFeedingWords := currentFeedingWords state;
         currentInputText := currentInputText state;
         isEvolutionAnimationPlaying := isEvolutionAnimationPlaying state;
         evolutionFromStage := evolutionFromStage state;
         evolutionToStage := evolutionToStage state;
         currentExpression := currentExpression state |}
  | FEED_WORDS record updatedGotchi =>
      {| gotchi := Some updatedGotchi;
         feedingHistory := feedingHistory state ++ [record];
         expressions := expressions state;
         isLoading := isLoading state;
         isAnalyzingEmotions := isAnalyzingEmotions state;
         isGeneratingArt := isGeneratingArt state;
         isGeneratingPoetry := isGeneratingPoetry state;
         error := error state;
         currentFeedingWords := currentFeedingWords state;
         currentInputText := currentInputText state;
         isEvolutionAnimationPlaying := isEvolutionAnimationPlaying state;
         evolutionFromStage := evolutionFromStage state;
         evolutionToStage := evolutionToStage state;
         currentExpression := currentExpression state |}
  | UPDATE_EMOTIONS emotionVector =>
      match gotchi state with
      | None => state
      | Some g =>
          {| gotchi :=
               Some {| gotchi_id := gotchi_id g;
                       gotchi_stage := gotchi_stage g;
                       gotchi_feedingCount := gotchi_feedingCount g;
                       gotchi_emotionVector := emotionVector;
                       gotchi_createdAt := gotchi_createdAt g |};
             feedingHistory := feedingHistory state;
             expressions := expressions state;
             isLoading := isLoading state;
             isAnalyzingEmotions := isAnalyzingEmotions state;
             isGeneratingArt := isGeneratingArt state;
             isGeneratingPoetry := isGeneratingPoetry state;
             error := error state;
             currentFeedingWords := currentFeedingWords state;
             currentInputText := currentInputText state;
             isEvolutionAnimationPlaying := isEvolutionAnimationPlaying state;
             evolutionFromStage := evolutionFromStage state;
             evolutionToStage := evolutionToStage state;
             currentExpression := currentExpression state |}
      end
  | START_EVOLUTION fromStage toStage =>
      {| gotchi := gotchi state;
         feedingHistory := feedingHistory state;
         expressions := expressions state;
         isLoading := isLoading state;
         isAnalyzingEmotions := isAnalyzingEmotions state;
         isGeneratingArt := isGeneratingArt state;
         isGeneratingPoetry := isGeneratingPoetry state;
         error := error state;
         currentFeedingWords := currentFeedingWords state;
         currentInputText := currentInputText state;
         isEvolutionAnimationPlaying := true;
         evolutionFromStage := Some fromStage;
         evolutionToStage := Some toStage;
         currentExpression := currentExpression state |}
  | COMPLETE_EVOLUTION updatedGotchi =>
      {| gotchi := Some updatedGotchi;
         feedingHistory := feedingHistory state;
         expressions := expressions state;
         isLoading := isLoading state;
         isAnalyzingEmotions := isAnalyzingEmotions state;
         isGeneratingArt := isGeneratingArt state;
         isGeneratingPoetry := isGeneratingPoetry state;
         error := error state;
         currentFeedingWords := currentFeedingWords state;
         currentInputText := currentInputText state;
         isEvolutionAnimationPlaying := false;
         evolutionFromStage := None;
         evolutionToStage := None;
         currentExpression := currentExpression state |}
  | ADD_EXPRESSIONS art poetry =>
      {| gotchi := gotchi state;
         feedingHistory := feedingHistory state;
         expressions := expressions state ++ [art; poetry];
         isLoading := isLoading state;
         isAnalyzingEmotions := isAnalyzingEmotions state;
         isGeneratingArt := isGeneratingArt state;
         isGeneratingPoetry := isGeneratingPoetry state;
         error := error state;
         currentFeedingWords := currentFeedingWords state;
         currentInputText := currentInputText state;
         isEvolutionAnimationPlaying := isEvolutionAnimationPlaying state;
         evolutionFromStage := evolutionFromStage state;
         evolutionToStage := evolutionToStage state;
         currentExpression := currentExpression state |}
  | LOAD_HISTORY history loaded =>
      {| gotchi := gotchi state;
         feedingHistory := history;
         expressions := loaded;
         isLoading := isLoading state;
         isAnalyzingEmotions := isAnalyzingEmotions state;
         isGeneratingArt := isGeneratingArt state;
         isGeneratingPoetry := isGeneratingPoetry state;
         error := error state;
         currentFeedingWords := currentFeedingWords state;
         currentInputText := currentInputText state;
         isEvolutionAnimationPlaying := isEvolutionAnimationPlaying state;
         evolutionFromStage := evolutionFromStage state;
         evolutionToStage := evolutionToStage state;
         currentExpression := currentExpression state |}
  | SET_ERROR payload =>
      {| gotchi := gotchi state;
         feedingHistory := feedingHistory state;
         expressions := expressions state;
         isLoading := false;
         isAnalyzingEmotions := isAnalyzingEmotions state;
         isGeneratingArt := isGeneratingArt state;
         isGeneratingPoetry := isGeneratingPoetry state;
         error := Some payload;
         currentFeedingWords := currentFeedingWords state;
         currentInputText := currentInputText state;
         isEvolutionAnimationPlaying := isEvolutionAnimationPlaying state;
         evolutionFromStage := evolutionFromStage state;
         evolutionToStage := evolutionToStage state;
         currentExpression := currentExpression state |}
  | CLEAR_ERROR =>
      {| gotchi := gotchi state;
         feedingHistory := feedingHistory state;
         expressions := expressions state;
         isLoading := isLoading state;
         isAnalyzingEmotions := isAnalyzingEmotions state;
         isGeneratingArt := isGeneratingArt state;
         isGeneratingPoetry := isGeneratingPoetry state;
         error := None;
         currentFeedingWords := currentFeedingWords state;
         currentInputText := currentInputText state;
         isEvolutionAnimationPlaying := isEvolutionAnimationPlaying state;
         evolutionFromStage := evolutionFromStage state;
         evolutionToStage := evolutionToStage state;
         currentExpression := currentExpression state |}
  | SET_LOADING payload =>
      {| gotchi := gotchi state;
         feedingHistory := feedingHistory state;
         expressions := expressions state;
         isLoading := payload;
         isAnalyzingEmotions := isAnalyzingEmotions state;
         isGeneratingArt := isGeneratingArt state;
         isGeneratingPoetry := isGeneratingPoetry state;
         error := error state;
         currentFeedingWords := currentFeedingWords state;
         currentInputText := currentInputText state;
         isEvolutionAnimationPlaying := isEvolutionAnimationPlaying state;
         evolutionFromStage := evolutionFromStage state;
         evolutionToStage := evolutionToStage state;
         currentExpression := currentExpression state |}
  | SET_ANALYZING_EMOTIONS payload =>
      {| gotchi := gotchi state;
         feedingHistory := feedingHistory state;
         expressions := expressions state;
         isLoading := isLoading state;
         isAnalyzingEmotions := payload;
         isGeneratingArt := isGeneratingArt state;
         isGeneratingPoetry := isGeneratingPoetry state;
         error := error state;
         currentFeedingWords := currentFeedingWords state;
         currentInputText := currentInputText state;
         isEvolutionAnimationPlaying := isEvolutionAnimationPlaying state;
         evolutionFromStage := evolutionFromStage state;
         evolutionToStage := evolutionToStage state;
         currentExpression := currentExpression state |}
  | SET_GENERATING_ART payload =>
      {| gotchi := gotchi state;
         feedingHistory := feedingHistory state;
         expressions := expressions state;
         isLoading := isLoading state;
         isAnalyzingEmotions := isAnalyzingEmotions state;
         isGeneratingArt := payload;
         isGeneratingPoetry := isGeneratingPoetry state;
         error := error state;
         currentFeedingWords := currentFeedingWords state;
         currentInputText := currentInputText state;
         isEvolutionAnimationPlaying := isEvolutionAnimationPlaying state;
         evolutionFromStage := evolutionFromStage state;
         evolutionToStage := evolutionToStage state;
         currentExpression := currentExpression state |}
  | SET_GENERATING_POETRY payload =>
      {| gotchi := gotchi state;
         feedingHistory := feedingHistory state;
         expressions := expressions state;
         isLoading := isLoading state;
         isAnalyzingEmotions := isAnalyzingEmotions state;
         isGeneratingArt := isGeneratingArt state;
         isGeneratingPoetry := payload;
         error := error state;
         currentFeedingWords := currentFeedingWords state;
         currentInputText := currentInputText state;
         isEvolutionAnimationPlaying := isEvolutionAnimationPlaying state;
         evolutionFromStage := evolutionFromStage state;
         evolutionToStage := evolutionToStage state;
         currentExpression := currentExpression state |}
  | START_FEEDING_SESSION inputText words =>
      {| gotchi := gotchi state;
         feedingHistory := feedingHistory state;
         expressions := expressions state;
         isLoading := isLoading state;
         isAnalyzingEmotions := isAnalyzingEmotions state;
         isGeneratingArt := isGeneratingArt state;
         isGeneratingPoetry := isGeneratingPoetry state;
         error := error state;
         currentFeedingWords := words;
         currentInputText := inputText;
         isEvolutionAnimationPlaying := isEvolutionAnimationPlaying state;
         evolutionFromStage := evolutionFromStage state;
         evolutionToStage := evolutionToStage state;
         currentExpression := currentExpression state |}
  | REMOVE_WORD payload =>
      let updatedWords :=
        List.filter (fun w => negb (String.eqb (word_id w) payload))
          (currentFeedingWords state) in
      {| gotchi := gotchi state;
         feedingHistory := feedingHistory state;
         expressions := expressions state;
         isLoading := isLoading state;
         isAnalyzingEmotions := isAnalyzingEmotions state;
         isGeneratingArt := isGeneratingArt state;
         isGeneratingPoetry := isGeneratingPoetry state;
         error := error state;
         currentFeedingWords := updatedWords;
         currentInputText :=
           if Z.of_nat (length updatedWords) =? 0 then ""%string else currentInputText state;
         isEvolutionAnimationPlaying := isEvolutionAnimationPlaying state;
         evolutionFromStage := evolutionFromStage state;
         evolutionToStage := evolutionToStage state;
         currentExpression := currentExpression state |}
  | SHOW_EXPRESSION payload =>
      {| gotchi := gotchi state;
         feedingHistory := feedingHistory state;
         expressions := expressions state;
         isLoading := isLoading state;
         isAnalyzingEmotions := isAnalyzingEmotions state;
         isGeneratingArt := isGeneratingArt state;
         isGeneratingPoetry := isGeneratingPoetry state;
         error := error state;
         currentFeedingWords := currentFeedingWords state;
         currentInputText := currentInputText state;
         isEvolutionAnimationPlaying := isEvolutionAnimationPlaying state;
         evolutionFromStage := evolutionFromStage state;
         evolutionToStage := evolutionToStage state;
         currentExpression := Some payload |}
  | CLOSE_EXPRESSION =>
      {| gotchi := gotchi state;
         feedingHistory := feedingHistory state;
         expressions := expressions state;
         isLoading := isLoading state;
         isAnalyzingEmotions := isAnalyzingEmotions state;
         isGeneratingArt := isGeneratingArt state;
         isGeneratingPoetry := isGeneratingPoetry state;
         error := error state;
         currentFeedingWords := currentFeedingWords state;
         currentInputText := currentInputText state;
         isEvolutionAnimationPlaying := isEvolutionAnimationPlaying state;
         evolutionFromStage := evolutionFromStage state;
         evolutionToStage := evolutionToStage state;
         currentExpression := None |}
  end.

(** A sequence of dispatched actions. *)
Definition dispatch_all (actions : list GotchiAction) (state : GotchiContextState)
  : GotchiContextState :=
  fold_left gotchiReducer actions state.

(** What a sequence of actions appends to the two histories. *)
Definition fed (action : GotchiAction) : list jsval :=
  match action with FEED_WORDS record _ => [record] | _ => [] end.

Definition expressed (action : GotchiAction) : list jsval :=
  match action with ADD_EXPRESSIONS art poetry => [art; poetry] | _ => [] end.

Definition is_load_history (action : GotchiAction) : bool :=
  match action with LOAD_HISTORY _ _ => true | _ => false end.

End GotchiContext.

(** * Utility functions

    [utils/index.ts] and the input validation it exports again: the text a
    user types, on its way to a feeding session, and the dominant emotion
    of a vector. *)

Module Utils.

(** ** Text *)

(** The text a user types is a JavaScript string: a sequence of UTF-16 code
    units. [String.prototype.trim], [split] and [replace] work on the units,
    and so do the functions below. *)
Definition text : Type := list Z.

(** The code units of WhiteSpace and LineTerminator in ECMAScript: what
    [\s] matches and what [trim] strips. *)
Definition is_white_space (c : Z) : bool :=
  (c =? 0x09) || (c =? 0x0A) || (c =? 0x0B) || (c =? 0x0C) || (c =? 0x0D)
  || (c =? 0x20) || (c =? 0xA0) || (c =? 0x1680)
  || ((0x2000 <=? c) && (c <=? 0x200A))
  || (c =? 0x2028) || (c =? 0x2029) || (c =? 0x202F) || (c =? 0x205F)
  || (c =? 0x3000) || (c =? 0xFEFF).

Fixpoint trimStart (s : text) : text :=
  match s with
  | c :: rest => if is_white_space c then trimStart rest else s
  | [] => []
  end.

(** [s.trim()]. *)
Definition trim (s : text) : text := rev (trimStart (rev (trimStart s))).

(** [s.split(/\s+/)]: the pieces between the maximal runs of white space.
    [piece] holds, in reverse, the units read since the last run;
    [in_run] says that the unit before was white space, the piece before
    the run being already in the result. *)
Fixpoint split_white_space (in_run : bool) (piece : text) (s : text) : list text :=
  match s with
  | [] => [rev piece]
  | c :: rest =>
      if is_white_space c
      then
        if in_run then split_white_space true piece rest
        else rev piece :: split_white_space true [] rest
      else split_white_space false (c :: piece) rest
  end.

(** [s.substring(0, end)]. *)
Definition substring_from_0 (finish : Z) (s : text) : text :=
  take (Z.to_nat (Z.min (Z.max finish 0) (Z.of_nat (length s)))) s.

(** [decomposeTextIntoWords]. *)
Definition decomposeTextIntoWords (input : text) : list text :=
  List.filter (fun word => 0 <? Z.of_nat (length (trim word)))
    (split_white_space false [] input).

(** [isEmptyOrWhitespace]. *)
Definition isEmptyOrWhitespace (input : text) : bool :=
  Z.of_nat (length (trim input)) =? 0.

(** [truncateText], for an integer [maxLength]. *)
Definition truncateText (input : text) (maxLength : Z) : text :=
  if Z.of_nat (length input) <=? maxLength then input
  else substring_from_0 maxLength input.

(** The class [[\x00-\x08\x0B-\x0C\x0E-\x1F\x7F]]. *)
Definition is_invalid_character (c : Z) : bool :=
  ((0x00 <=? c) && (c <=? 0x08))
  || ((0x0B <=? c) && (c <=? 0x0C))
  || ((0x0E <=? c) && (c <=? 0x1F))
  || (c =? 0x7F).

(** [stripInvalidCharacters]: every match of the class is replaced by the
    empty string. *)
Definition stripInvalidCharacters (input : text) : text :=
  List.filter (fun c => negb (is_invalid_character c)) input.

Record Validation : Type := {
  valid : bool;
  sanitized : text;
  error : option string
}.

(** [validateAndSanitizeInput]; [None] for [maxLength] is a call without
    the second argument. *)
Definition validateAndSanitizeInput (input : text) (maxLength : option Z) : Validation :=
  let maxLength := default 500 maxLength in
  if isEmptyOrWhitespace input
  then {| valid := false; sanitized := [];
          error := Some "Please enter some text to feed your Gotchi"%string |}
  else
    let sanitized := stripInvalidCharacters input in
    let sanitized :=
      if maxLength <? Z.of_nat (length sanitized)
      then truncateText sanitized maxLength
      else sanitized in
    if isEmptyOrWhitespace sanitized
    then {| valid := false; sanitized := [];
            error := Some "Text contains only invalid characters"%string |}
    else {| valid := true; sanitized := sanitized; error := None |}.

(** ** Emotions *)

(** [Object.entries(emotions)] in [getDominantEmotion]. *)
Definition emotion_entries (vector : EmotionVector) : list (string * number) :=
  [("joy"%string, joy vector); ("sadness"%string, sadness vector);
   ("anger"%string, anger vector); ("fear"%string, fear vector);
   ("surprise"%string, surprise vector); ("disgust"%string, disgust vector);
   ("trust"%string, trust vector)].

(** The body of the loop: [if (value > maxValue) { ... }]. *)
Definition dominant_step (best entry : string * number) : string * number :=
  if Qclt_le_dec (snd best) (snd entry) then entry else best.

(** [getDominantEmotion], for a vector of finite numbers. *)
Definition getDominantEmotion (vector : EmotionVector) : string :=
  fst (fold_left dominant_step (emotion_entries vector) ("joy"%string, joy vector)).

(** The words of a list joined by single spaces. *)
Fixpoint join_with_space (words : list text) : text :=
  match words with
  | [] => []
  | [w] => w
  | w :: rest => w ++ 0x20 :: join_with_space rest
  end.

Definition no_white_space (s : text) : bool := forallb (fun c => negb (is_white_space c)) s.

(** What [validateAndSanitizeInput] holds after stripping and truncating. *)
Definition sanitize (input : text) (maxLength : Z) : text :=
  let stripped := stripInvalidCharacters input in
  if maxLength <? Z.of_nat (length stripped) then truncateText stripped maxLength else stripped.

End Utils.

(** ** A reference JSON object

    An instance of [JSON] on which the model runs: values are numbered
    through stdpp's generic trees and the number is printed in binary after
    a one-letter tag. The parser skips leading blanks, so that one value
    has more than one text, as with the browser's [JSON.parse]. *)

Module ReferenceJSON.

Definition leaf : Type := (bool + number + string)%type.

Fixpoint jsval_to_tree (v : jsval) : gen_tree leaf :=
  match v with
  | JNull => GenNode 0 []
  | JBool b => GenLeaf (inl (inl b))
  | JNum n => GenLeaf (inl (inr n))
  | JStr s => GenLeaf (inr s)
  | JArr l => GenNode 1 (map jsval_to_tree l)
  | JObj fs =>
      GenNode 2 (map (fun kv => GenNode 3 [GenLeaf (inr (fst kv)); jsval_to_tree (snd kv)]) fs)
  end.

Fixpoint tree_to_jsval (t : gen_tree leaf) : option jsval :=
  match t with
  | GenLeaf (inl (inl b)) => Some (JBool b)
  | GenLeaf (inl (inr n)) => Some (JNum n)
  | GenLeaf (inr s) => Some (JStr s)
  | GenNode 0%nat [] => Some JNull
  | GenNode 1%nat ts => JArr <$> mapM tree_to_jsval ts
  | GenNode 2%nat ts =>
      JObj <$> mapM (fun t' =>
                 match t' with
                 | GenNode 3%nat [GenLeaf (inr k); tv] =>
                     (fun v => (k, v)) <$> tree_to_jsval tv
                 | _ => None
                 end) ts
  | _ => None
  end.

Lemma tree_to_jsval_to_tree (v : jsval) : tree_to_jsval (jsval_to_tree v) = Some v.
Proof.
  revert v. fix IH 1. intros [ | b | n | s | l | fs]; simpl; try reflexivity.
  - assert (Hl : mapM tree_to_jsval (map jsval_to_tree l) = Some l).
    { induction l as [ | x l IHl]; [reflexivity | ].
      simpl. rewrite IH. simpl. rewrite IHl. reflexivity. }
    rewrite Hl. reflexivity.
  - match goal with |- JObj <$> mapM ?f ?l = _ => assert (Hl : mapM f l = Some fs) end.
    { induction fs as [ | [k x] fs IHfs]; [reflexivity | ].
      simpl. rewrite IH. simpl. rewrite IHfs. reflexivity. }
    rewrite Hl. reflexivity.
Qed.

#[local] Instance jsval_eq_dec : EqDecision jsval.
Proof.
  intros x y. destruct (decide (jsval_to_tree x = jsval_to_tree y)) as [e | n].
  - left. apply (f_equal tree_to_jsval) in e.
    rewrite !tree_to_jsval_to_tree in e. congruence.
  - right. congruence.
Defined.

#[local] Instance jsval_countable : Countable jsval :=
  inj_countable jsval_to_tree tree_to_jsval tree_to_jsval_to_tree.

Definition zero : ascii := "0"%char.
Definition one : ascii := "1"%char.
Definition blank : ascii := " "%char.
Definition tag : ascii := "J"%char.

Fixpoint pos_to_bits (p : positive) : string :=
  match p with
  | xH => EmptyString
  | xO q => String zero (pos_to_bits q)
  | xI q => String one (pos_to_bits q)
  end.

Fixpoint bits_to_pos (s : string) : option positive :=
  match s with
  | EmptyString => Some xH
  | String c r =>
      match bits_to_pos r with
      | Some q =>
          if Ascii.eqb c zero then Some (xO q)
          else if Ascii.eqb c one then Some (xI q)
          else None
      | None => None
      end
  end.

Fixpoint skip_blanks (s : string) : string :=
  match s with
  | String c r => if Ascii.eqb c blank then skip_blanks r else s
  | EmptyString => s
  end.

Definition stringify (v : jsval) : string := String tag (pos_to_bits (encode v)).

Definition parse (s : string) : option jsval :=
  match skip_blanks s with
  | String c r =>
      if Ascii.eqb c tag
      then match bits_to_pos r with Some p => decode p | None => None end
      else None
  | EmptyString => None
  end.

Lemma bits_to_pos_to_bits (p : positive) : bits_to_pos (pos_to_bits p) = Some p.
Proof. induction p as [q IHq | q IHq | ]; simpl; rewrite ?IHq; reflexivity. Qed.

Lemma parse_stringify (v : jsval) : parse (stringify v) = Some v.
Proof.
  unfold parse, stringify. simpl. rewrite bits_to_pos_to_bits. apply decode_encode.
Qed.

Lemma stringify_nonempty (v : jsval) : stringify v <> EmptyString.
Proof. discriminate. Qed.

Lemma parse_blank (s : string) : parse (String blank s) = parse s.
Proof. reflexivity. Qed.

#[export] Instance reference : JSON := {|
  JSON_stringify := stringify;
  JSON_parse := parse;
  JSON_parse_stringify := parse_stringify;
  JSON_stringify_nonempty := stringify_nonempty
|}.

End ReferenceJSON.

(** ** Stores and values for the worked scenarios *)

Module Fixtures.

#[local] Existing Instance ReferenceJSON.reference.

(** A browser store that accepts every write. *)
Definition accepting (m : gmap string string) : LocalStorage :=
  {| items := m; rejects := fun _ _ _ => None |}.

(** A browser store that rejects every write: the quota is exhausted. *)
Definition rejecting : LocalStorage :=
  {| items := ∅; rejects := fun _ _ _ => Some QuotaExceededError |}.

(** The module in memory-only mode, with the two logs of the mirror given. *)
Definition memory_only (feeding expressions : list jsval) : Engine :=
  {| localStorage := accepting ∅;
     memoryOnlyMode := true;
     memoryStorage :=
       {| mem_gotchi := None; mem_feedingHistory := feeding; mem_expressions := expressions |};
     gotchiSaveTimer := None;
     feedingSaveTimer := None;
     expressionSaveTimer := None;
     pendingGotchiState := None;
     pendingFeedingRecords := [];
     pendingExpressions := [] |}.

Definition record (n : Z) : jsval := JObj [("id"%string, JNum (Q2Qc (inject_Z n)))].

Definition calm : EmotionVector :=
  {| joy := Q2Qc (1 # 2); sadness := Q2Qc (1 # 5); anger := Q2Qc (1 # 10); fear := Q2Qc 0;
     surprise := Q2Qc (3 # 10); disgust := Q2Qc 0; trust := Q2Qc (2 # 5);
     lastUpdated := Q2Qc 1700000000000 |}.

Definition pet : GotchiState :=
  {| gotchi_id := "test-gotchi-1";
     gotchi_stage := Obake;
     gotchi_feedingCount := Q2Qc 5;
     gotchi_emotionVector := calm;
     gotchi_createdAt := Q2Qc 1700000000000 |}.

(** [s] repeated 2^n times. *)
Fixpoint doubled (n : nat) (s : string) : string :=
  match n with
  | O => s
  | S n' => doubled n' (String.append s s)
  end.

(** A text of [v] that starts with 2^n blanks. *)
Definition padded (n : nat) (v : jsval) : string :=
  String.append (doubled n " ") (JSON_stringify v).

(** A browser store whose only key is the feeding log, as a long text. *)
Definition long_log_store (n : nat) (l : list jsval) : Engine :=
  initial_engine (accepting {[FEEDING_HISTORY_KEY := padded n (JArr l)]}).

(** A log of two records. *)
Definition two_records : list jsval := [record 1; record 2].

(** A browser store that takes every write but those of one key, which it
    rejects for want of quota. *)
Definition full_for (key : string) : LocalStorage :=
  {| items := ∅;
     rejects := fun _ k _ => if String.eqb k key then Some QuotaExceededError else None |}.

(** A browser store whose quota is exhausted: it takes the trial write of
    [isLocalStorageAvailable] and rejects every other write. *)
Definition quota_exhausted : LocalStorage :=
  {| items := ∅;
     rejects := fun _ k _ => if String.eqb k testKey then None else Some QuotaExceededError |}.

(** The module with a pet waiting for its debounced write, on a store that
    has no room for it. *)
Definition pet_waiting : Engine :=
  set_gotchiSaveTimer (Some true)
    (set_pendingGotchiState (Some (GotchiState_js pet)) (initial_engine (full_for GOTCHI_KEY))).

(** The module with two feeding records waiting, on a store that has no
    room for the feeding log. *)
Definition records_waiting : Engine :=
  set_pendingFeedingRecords [record 1; record 2]
    (initial_engine (full_for FEEDING_HISTORY_KEY)).

(** The module in memory-only mode with a pet on the mirror, over a
    browser store that still holds a text that is not JSON under the pet's
    key. *)
Definition mirror_over_garbage : Engine :=
  set_items {[GOTCHI_KEY := "invalid json"%string]}
    (set_mem_gotchi (Some (GotchiState_js pet)) (memory_only [] [])).

(** A browser store whose feeding log holds 1002 entries, two more than
    the service ever writes. *)
Definition overfull_store : Engine :=
  initial_engine
    (accepting {[FEEDING_HISTORY_KEY := JSON_stringify (JArr (replicate 1002 JNull))]}).

(** The pet after one more feeding. *)
Definition fed_pet : GotchiState :=
  {| gotchi_id := "test-gotchi-1";
     gotchi_stage := Obake;
     gotchi_feedingCount := Q2Qc 6;
     gotchi_emotionVector := calm;
     gotchi_createdAt := Q2Qc 1700000000000 |}.

(** Ten feeding records. *)
Definition ten_records : list jsval := map record [1; 2; 3; 4; 5; 6; 7; 8; 9; 10].

(** The module after a pet was saved and the flush of a feeding record has
    failed for want of quota: memory-only mode, the pet's timer still
    due. *)
Definition pet_timer_after_fallback : Engine :=
  calls [CallSaveGotchi (GotchiState_js pet); CallSaveFeedingRecord (record 1); TimeoutFeeding]
    (initial_engine (full_for FEEDING_HISTORY_KEY)).

(** A browser store that holds a feeding log of two records and has no
    room for the expressions. *)
Definition no_room_for_expressions : Engine :=
  set_items {[FEEDING_HISTORY_KEY := JSON_stringify (JArr two_records)]}
    (initial_engine (full_for EXPRESSIONS_KEY)).

(** The code units of an ASCII text. *)
Definition utf16 (s : string) : Utils.text :=
  map (fun c => Z.of_N (N_of_ascii c)) (list_ascii_of_string s).

Definition scattered (text identifier : string) : GotchiContext.FeedingWord :=
  {| GotchiContext.word := text;
     GotchiContext.word_x := Q2Qc 100;
     GotchiContext.word_y := Q2Qc 200;
     GotchiContext.word_id := identifier |}.

(** A feeding session of two words. *)
Definition session : GotchiContext.GotchiContextState :=
  GotchiContext.gotchiReducer GotchiContext.initialState
    (GotchiContext.START_FEEDING_SESSION "hello world"
       [scattered "hello" "word-1"; scattered "world" "word-2"]).

End Fixtures.

(** * Properties *)

(** ** Host functions *)

Lemma Array_slice_zero {A : Type} (l : list A) : Array_slice 0 l = l.
Proof. unfold Array_slice. simpl. rewrite Z.min_l by lia. reflexivity. Qed.

Lemma Array_slice_neg {A : Type} (n : Z) (l : list A) :
  0 < n -> Array_slice (- n) l = drop (length l - Z.to_nat n) l.
Proof.
  intros Hn. unfold Array_slice.
  destruct (Z.ltb_spec (- n) 0) as [_ | Hge]; [ | lia].
  f_equal. lia.
Qed.

Lemma Array_slice_nil {A : Type} (z : Z) : Array_slice z (@nil A) = [].
Proof. unfold Array_slice. apply drop_nil. Qed.

Lemma Array_slice_suffix {A : Type} (z : Z) (l : list A) : Array_slice z l `suffix_of` l.
Proof. unfold Array_slice. apply suffix_drop. Qed.

Lemma Array_slice_length_le {A : Type} (z : Z) (l : list A) :
  (length (Array_slice z l) <= length l)%nat.
Proof. unfold Array_slice. rewrite length_drop. lia. Qed.

Lemma Array_slice_neg_length {A : Type} (n : Z) (l : list A) :
  0 < n -> Z.of_nat (length (Array_slice (- n) l)) <= n.
Proof. intros Hn. rewrite Array_slice_neg by assumption. rewrite length_drop. lia. Qed.

Lemma Array_slice_neg_all {A : Type} (n : Z) (l : list A) :
  0 <= n -> Z.of_nat (length l) <= n -> Array_slice (- n) l = l.
Proof.
  intros Hn Hl. destruct (Z.eq_dec n 0) as [-> | Hne]; [apply Array_slice_zero | ].
  rewrite Array_slice_neg by lia.
  replace (length l - Z.to_nat n)%nat with 0%nat by lia. reflexivity.
Qed.

(** For every length the caps allow, [Math.floor(n * 0.8)] in binary64 is
    the integer part of four fifths of [n]. *)
Lemma floor_times_0_8_spec (n : nat) :
  (n <= 1000)%nat -> floor_times_0_8 n = Z.of_nat (n * 4 / 5).
Proof.
  intros Hn.
  assert (Hall : forallb (fun k => floor_times_0_8 k =? Z.of_nat (k * 4 / 5)) (seq 0 1001) = true)
    by (vm_compute; reflexivity).
  rewrite forallb_forall in Hall.
  apply Z.eqb_eq, Hall, in_seq. lia.
Qed.

(** [MAX_STORAGE_SIZE_BYTES * 0.8] is the double 4194304. *)
Lemma exceeds_threshold_spec (size : Z) : exceeds_threshold size = (4194304 <? size).
Proof.
  unfold exceeds_threshold.
  replace compressionThreshold with (S754_finite false 4503599627370496 (-30))
    by (vm_compute; reflexivity).
  unfold Z_gtb_double.
  change (0 <=? -30) with false. cbv iota.
  change (2 ^ (- -30)) with 1073741824.
  destruct (Z.ltb_spec 4194304 size), (Z.ltb_spec 4503599627370496 (size * 1073741824));
    try reflexivity; lia.
Qed.

(** ** The state record *)

Lemma testKey_not_gotchi : testKey <> GOTCHI_KEY.
Proof. discriminate. Qed.

Lemma testKey_not_log (k : Log) : testKey <> log_key k.
Proof. destruct k; discriminate. Qed.

Lemma gotchi_not_log (k : Log) : GOTCHI_KEY <> log_key k.
Proof. destruct k; discriminate. Qed.

Lemma log_key_inj (k k' : Log) : log_key k = log_key k' -> k = k'.
Proof. destruct k, k'; simpl; intros E; try reflexivity; discriminate E. Qed.

Lemma log_max_pos (k : Log) : 0 < log_max k.
Proof. destruct k; reflexivity. Qed.

Lemma log_max_nat (k : Log) : (Z.to_nat (log_max k) <= 1000)%nat.
Proof. destruct k; unfold log_max, MAX_FEEDING_RECORDS, MAX_EXPRESSIONS; lia. Qed.

Section Properties.

Context `{JSON}.

Lemma set_items_id (st : Engine) : set_items (items (localStorage st)) st = st.
Proof. destruct st as [[m r] ? ? ? ? ? ? ? ?]. reflexivity. Qed.

Lemma steady_set_items (m : gmap string string) (st : Engine) :
  steady st -> steady (set_items m st).
Proof. intros [Hmode Hacc]. split; [exact Hmode | exact Hacc]. Qed.

Lemma setItem_steady (key v : string) (st : Engine) :
  steady st ->
  setItem key v st = inr (set_items (<[key := v]> (items (localStorage st))) st).
Proof. intros [_ Hacc]. unfold setItem. rewrite Hacc. reflexivity. Qed.

Lemma isLocalStorageAvailable_steady (st : Engine) :
  steady st ->
  isLocalStorageAvailable st
  = (true, set_items (delete testKey (items (localStorage st))) st).
Proof.
  intros Hst. unfold isLocalStorageAvailable.
  rewrite (proj1 Hst), (setItem_steady _ _ _ Hst).
  unfold removeItem. simpl. rewrite delete_insert_eq. reflexivity.
Qed.

Lemma isLocalStorageAvailable_memory (st : Engine) :
  memoryOnlyMode st = true -> isLocalStorageAvailable st = (false, st).
Proof. intros Hmode. unfold isLocalStorageAvailable. rewrite Hmode. reflexivity. Qed.

(** *** Views of the browser store *)

Lemma stored_log_ext (k : Log) (m m' : gmap string string) :
  m' !! log_key k = m !! log_key k -> stored_log k m' = stored_log k m.
Proof. intros E. unfold stored_log. rewrite E. reflexivity. Qed.

Lemma stored_gotchi_ext (m m' : gmap string string) :
  m' !! GOTCHI_KEY = m !! GOTCHI_KEY -> stored_gotchi m' = stored_gotchi m.
Proof. intros E. unfold stored_gotchi. rewrite E. reflexivity. Qed.

Lemma string_is_empty_stringify (v : jsval) : string_is_empty (JSON_stringify v) = false.
Proof.
  pose proof (JSON_stringify_nonempty v) as Hne.
  destruct (JSON_stringify v); [congruence | reflexivity].
Qed.

Lemma stored_log_insert (k : Log) (l : list jsval) (m : gmap string string) :
  stored_log k (<[log_key k := JSON_stringify (JArr l)]> m) = l.
Proof.
  unfold stored_log. rewrite lookup_insert_eq, string_is_empty_stringify.
  rewrite JSON_parse_stringify. reflexivity.
Qed.

Lemma stored_log_insert_ne (k : Log) (key v : string) (m : gmap string string) :
  key <> log_key k -> stored_log k (<[key := v]> m) = stored_log k m.
Proof. intros Hne. apply stored_log_ext. apply lookup_insert_ne. exact Hne. Qed.

Lemma stored_log_delete_ne (k : Log) (key : string) (m : gmap string string) :
  key <> log_key k -> stored_log k (delete key m) = stored_log k m.
Proof. intros Hne. apply stored_log_ext. apply lookup_delete_ne. exact Hne. Qed.

Lemma stored_log_delete (k : Log) (m : gmap string string) :
  stored_log k (delete (log_key k) m) = [].
Proof. unfold stored_log. rewrite lookup_delete_eq. reflexivity. Qed.

Lemma stored_gotchi_insert (g : jsval) (m : gmap string string) :
  stored_gotchi (<[GOTCHI_KEY := JSON_stringify g]> m)
  = if isValidGotchiState g then Some g else None.
Proof.
  unfold stored_gotchi. rewrite lookup_insert_eq, string_is_empty_stringify.
  rewrite JSON_parse_stringify. reflexivity.
Qed.

Lemma stored_gotchi_insert_ne (key v : string) (m : gmap string string) :
  key <> GOTCHI_KEY -> stored_gotchi (<[key := v]> m) = stored_gotchi m.
Proof. intros Hne. apply stored_gotchi_ext. apply lookup_insert_ne. exact Hne. Qed.

Lemma stored_gotchi_delete_ne (key : string) (m : gmap string string) :
  key <> GOTCHI_KEY -> stored_gotchi (delete key m) = stored_gotchi m.
Proof. intros Hne. apply stored_gotchi_ext. apply lookup_delete_ne. exact Hne. Qed.

Lemma stored_gotchi_valid (m : gmap string string) (g : jsval) :
  stored_gotchi m = Some g -> isValidGotchiState g = true.
Proof.
  unfold stored_gotchi. intros E.
  destruct (m !! GOTCHI_KEY) as [s | ]; [ | discriminate E].
  destruct (string_is_empty s); [discriminate E | ].
  destruct (JSON_parse s) as [v | ]; [ | discriminate E].
  destruct (isValidGotchiState v) eqn:Hv; [ | discriminate E].
  congruence.
Qed.

Lemma isValidGotchiState_truthy (g : jsval) : isValidGotchiState g = true -> truthy g = true.
Proof.
  unfold isValidGotchiState. intros Hv.
  repeat (apply andb_prop in Hv; destruct Hv as [Hv _]). exact Hv.
Qed.

Lemma same_views_refl (m : gmap string string) : same_views m m.
Proof. split; [reflexivity | intros k; reflexivity]. Qed.

Lemma same_views_trans (m1 m2 m3 : gmap string string) :
  same_views m1 m2 -> same_views m2 m3 -> same_views m1 m3.
Proof.
  intros [Hg1 Hl1] [Hg2 Hl2]. split; [congruence | ].
  intros k. rewrite Hl2. apply Hl1.
Qed.

Lemma same_views_probe (m : gmap string string) : same_views m (delete testKey m).
Proof.
  split.
  - apply stored_gotchi_delete_ne, testKey_not_gotchi.
  - intros k. apply stored_log_delete_ne, testKey_not_log.
Qed.

(** *** Loads on a steady store *)

Lemma getLog_steady (k : Log) (limit : Z) (st : Engine) :
  steady st ->
  exists m',
    getLog k limit st
    = (Array_slice (- limit) (stored_log k (items (localStorage st))), set_items m' st)
    /\ same_views (items (localStorage st)) m'
    /\ (forall key, key <> testKey -> key <> log_key k ->
        m' !! key = items (localStorage st) !! key).
Proof.
  intros Hst. unfold getLog. rewrite (isLocalStorageAvailable_steady _ Hst).
  cbn [negb]. unfold getItem, removeItem. simpl.
  set (m := items (localStorage st)).
  assert (Hlook : delete testKey m !! log_key k = m !! log_key k)
    by (apply lookup_delete_ne, testKey_not_log).
  assert (Hframe : forall key, key <> testKey -> delete testKey m !! key = m !! key)
    by (intros key Hk; apply lookup_delete_ne; congruence).
  assert (Hheal : stored_log k m = [] ->
                  same_views m (delete (log_key k) (delete testKey m))).
  { intros Hempty. split.
    - rewrite stored_gotchi_delete_ne by (intros E; symmetry in E; exact (gotchi_not_log k E)).
      apply stored_gotchi_delete_ne, testKey_not_gotchi.
    - intros k'. destruct (decide (k' = k)) as [-> | Hne].
      + rewrite stored_log_delete. symmetry. exact Hempty.
      + rewrite stored_log_delete_ne by (intros E; apply Hne; apply log_key_inj; congruence).
        apply stored_log_delete_ne, testKey_not_log. }
  assert (Hframe2 : forall key, key <> testKey -> key <> log_key k ->
                    delete (log_key k) (delete testKey m) !! key = m !! key).
  { intros key H1 H2. rewrite lookup_delete_ne by congruence. apply Hframe, H1. }
  unfold stored_log in *. rewrite Hlook.
  destruct (m !! log_key k) as [s | ] eqn:Hs.
  - destruct (string_is_empty s) eqn:He.
    + rewrite Array_slice_nil.
      eexists. split; [reflexivity | ]. split; [apply same_views_probe | ].
      intros key H1 _. apply Hframe, H1.
    + destruct (JSON_parse s) as [[ | b | n | s' | l | fs] | ] eqn:Hp;
        try (rewrite Array_slice_nil; eexists; split; [reflexivity | ];
             split; [apply Hheal; reflexivity | exact Hframe2]).
      eexists. split; [reflexivity | ]. split; [apply same_views_probe | ].
      intros key H1 _. apply Hframe, H1.
  - rewrite Array_slice_nil.
    eexists. split; [reflexivity | ]. split; [apply same_views_probe | ].
    intros key H1 _. apply Hframe, H1.
Qed.

Lemma loadGotchi_steady (st : Engine) :
  steady st ->
  exists m',
    loadGotchi st = (stored_gotchi (items (localStorage st)), set_items m' st)
    /\ same_views (items (localStorage st)) m'
    /\ (forall key, key <> testKey -> key <> GOTCHI_KEY ->
        m' !! key = items (localStorage st) !! key)
    /\ (forall g, stored_gotchi (items (localStorage st)) = Some g ->
        m' !! GOTCHI_KEY = items (localStorage st) !! GOTCHI_KEY).
Proof.
  intros Hst. unfold loadGotchi. rewrite (isLocalStorageAvailable_steady _ Hst).
  cbn [negb]. unfold getItem, removeItem. simpl.
  set (m := items (localStorage st)).
  assert (Hlook : delete testKey m !! GOTCHI_KEY = m !! GOTCHI_KEY)
    by (apply lookup_delete_ne, testKey_not_gotchi).
  assert (Hframe : forall key, key <> testKey -> delete testKey m !! key = m !! key)
    by (intros key Hk; apply lookup_delete_ne; congruence).
  assert (Hheal : stored_gotchi m = None ->
                  same_views m (delete GOTCHI_KEY (delete testKey m))).
  { intros Hempty. split.
    - unfold stored_gotchi at 1. rewrite lookup_delete_eq. symmetry. exact Hempty.
    - intros k. rewrite stored_log_delete_ne by apply gotchi_not_log.
      apply stored_log_delete_ne, testKey_not_log. }
  assert (Hframe2 : forall key, key <> testKey -> key <> GOTCHI_KEY ->
                    delete GOTCHI_KEY (delete testKey m) !! key = m !! key).
  { intros key H1 H2. rewrite lookup_delete_ne by congruence. apply Hframe, H1. }
  unfold stored_gotchi in *. rewrite Hlook.
  destruct (m !! GOTCHI_KEY) as [s | ] eqn:Hs.
  - destruct (string_is_empty s) eqn:He.
    + eexists. split; [reflexivity | ]. split; [apply same_views_probe | ].
      split; [intros key H1 _; apply Hframe, H1 | intros g Hg; discriminate Hg].
    + destruct (JSON_parse s) as [v | ] eqn:Hp.
      * destruct (isValidGotchiState v) eqn:Hv; cbn [negb].
        -- eexists. split; [reflexivity | ]. split; [apply same_views_probe | ].
           split; [intros key H1 _; apply Hframe, H1 | intros g _; exact Hlook].
        -- eexists. split; [reflexivity | ]. split; [apply Hheal; reflexivity | ].
           split; [exact Hframe2 | intros g Hg; discriminate Hg].
      * eexists. split; [reflexivity | ]. split; [apply Hheal; reflexivity | ].
        split; [exact Hframe2 | intros g Hg; discriminate Hg].
  - eexists. split; [reflexivity | ]. split; [apply same_views_probe | ].
    split; [intros key H1 _; apply Hframe, H1 | intros g Hg; discriminate Hg].
Qed.

Lemma checkStorageSize_steady (st : Engine) :
  steady st ->
  checkStorageSize st
  = (map_fold size_step 0 (delete testKey (items (localStorage st))),
     set_items (delete testKey (items (localStorage st))) st).
Proof.
  intros Hst. unfold checkStorageSize. rewrite (isLocalStorageAvailable_steady _ Hst).
  reflexivity.
Qed.

(** *** Pruning and compaction on a steady store *)

Lemma pruned_suffix (entries : list jsval) : pruned entries `suffix_of` entries.
Proof. apply Array_slice_suffix. Qed.

Lemma frame_stored_gotchi (k : Log) (m m' : gmap string string) :
  (forall key, key <> testKey -> key <> log_key k -> m' !! key = m !! key) ->
  m' !! GOTCHI_KEY = m !! GOTCHI_KEY.
Proof.
  intros Hf. apply Hf.
  - intros E. symmetry in E. exact (testKey_not_gotchi E).
  - apply gotchi_not_log.
Qed.

Lemma frame_stored_log (k k' : Log) (m m' : gmap string string) :
  (forall key, key <> testKey -> key <> log_key k -> m' !! key = m !! key) ->
  k' <> k -> m' !! log_key k' = m !! log_key k'.
Proof.
  intros Hf Hne. apply Hf.
  - intros E. symmetry in E. exact (testKey_not_log k' E).
  - intros E. apply Hne, log_key_inj, E.
Qed.

Lemma frame_gotchi_log (k : Log) (m m' : gmap string string) :
  (forall key, key <> testKey -> key <> GOTCHI_KEY -> m' !! key = m !! key) ->
  m' !! log_key k = m !! log_key k.
Proof.
  intros Hf. apply Hf.
  - intros E. symmetry in E. exact (testKey_not_log k E).
  - intros E. symmetry in E. exact (gotchi_not_log k E).
Qed.

Lemma prune_stored_log_steady (k : Log) (st : Engine) :
  steady st ->
  exists m',
    prune_stored_log k st = inr (set_items m' st)
    /\ stored_log k m'
       = pruned (Array_slice (- log_max k) (stored_log k (items (localStorage st))))
    /\ (forall key, key <> testKey -> key <> log_key k ->
        m' !! key = items (localStorage st) !! key).
Proof.
  intros Hst. unfold prune_stored_log.
  destruct (getLog_steady k (log_max k) st Hst) as (m1 & E & _ & Hf). rewrite E.
  rewrite (setItem_steady _ _ _ (steady_set_items m1 st Hst)). simpl.
  eexists. split; [reflexivity | ]. split.
  - apply stored_log_insert.
  - intros key H1 H2. rewrite lookup_insert_ne by congruence. apply Hf; assumption.
Qed.

Lemma pruneOldData_steady (st : Engine) :
  steady st ->
  exists m',
    pruneOldData st = set_items m' st
    /\ (forall k, stored_log k m'
                  = pruned (Array_slice (- log_max k) (stored_log k (items (localStorage st)))))
    /\ m' !! GOTCHI_KEY = items (localStorage st) !! GOTCHI_KEY.
Proof.
  intros Hst. unfold pruneOldData. rewrite (isLocalStorageAvailable_steady _ Hst). cbn [negb].
  set (m := items (localStorage st)).
  pose proof (steady_set_items (delete testKey m) st Hst) as Hst0.
  destruct (prune_stored_log_steady FeedingLog _ Hst0) as (m1 & E1 & Hv1 & Hf1).
  rewrite E1. simpl in Hv1, Hf1.
  pose proof (steady_set_items m1 st Hst) as Hst1.
  destruct (prune_stored_log_steady ExpressionLog _ Hst1) as (m2 & E2 & Hv2 & Hf2).
  change (set_items m1 (set_items (delete testKey m) st)) with (set_items m1 st).
  rewrite E2. simpl in Hv2, Hf2.
  exists m2. split; [reflexivity | ]. split.
  - intros [ | ].
    + rewrite (stored_log_ext FeedingLog m1 m2)
        by (apply (frame_stored_log ExpressionLog); [exact Hf2 | discriminate]).
      rewrite Hv1. rewrite (stored_log_delete_ne FeedingLog testKey m) by discriminate.
      reflexivity.
    + rewrite Hv2.
      rewrite (stored_log_ext ExpressionLog (delete testKey m) m1)
        by (apply (frame_stored_log FeedingLog); [exact Hf1 | discriminate]).
      rewrite (stored_log_delete_ne ExpressionLog testKey m) by discriminate.
      reflexivity.
  - rewrite (frame_stored_gotchi ExpressionLog m1 m2 Hf2).
    rewrite (frame_stored_gotchi FeedingLog (delete testKey m) m1 Hf1).
    apply lookup_delete_ne, testKey_not_gotchi.
Qed.

Lemma compress_stored_log_steady (k : Log) (st : Engine) :
  steady st ->
  exists m',
    compress_stored_log k st = inr (set_items m' st)
    /\ stored_log k m' = Array_slice (- log_max k) (stored_log k (items (localStorage st)))
    /\ (forall key, key <> testKey -> key <> log_key k ->
        m' !! key = items (localStorage st) !! key)
    /\ (stored_log k (items (localStorage st)) <> [] ->
        m' !! log_key k
        = Some (JSON_stringify
                  (JArr (Array_slice (- log_max k) (stored_log k (items (localStorage st))))))).
Proof.
  intros Hst. unfold compress_stored_log.
  destruct (getLog_steady k (log_max k) st Hst) as (m1 & E & [_ Hv] & Hf). rewrite E.
  set (entries := Array_slice (- log_max k) (stored_log k (items (localStorage st)))).
  destruct (Z.ltb_spec 0 (Z.of_nat (length entries))) as [Hpos | Hzero].
  - rewrite (setItem_steady _ _ _ (steady_set_items m1 st Hst)). simpl.
    eexists. split; [reflexivity | ]. split; [apply stored_log_insert | ].
    split.
    + intros key H1 H2. rewrite lookup_insert_ne by congruence. apply Hf; assumption.
    + intros _. apply lookup_insert_eq.
  - assert (Hnil : entries = []) by (destruct entries; [reflexivity | simpl in Hzero; lia]).
    exists m1. split; [reflexivity | ]. split.
    + rewrite Hv. fold entries. rewrite Hnil.
      subst entries. rewrite Array_slice_neg in Hnil by apply log_max_pos.
      destruct (stored_log k (items (localStorage st))) as [ | x l] eqn:Hl; [reflexivity | ].
      apply (f_equal (@length jsval)) in Hnil. rewrite length_drop in Hnil.
      pose proof (log_max_pos k). simpl in Hnil. lia.
    + split; [exact Hf | ].
      intros Hne. exfalso. apply Hne.
      subst entries. rewrite Array_slice_neg in Hnil by apply log_max_pos.
      destruct (stored_log k (items (localStorage st))) as [ | x l] eqn:Hl; [reflexivity | ].
      apply (f_equal (@length jsval)) in Hnil. rewrite length_drop in Hnil.
      pose proof (log_max_pos k). simpl in Hnil. lia.
Qed.

Lemma compressStoredData_steady (st : Engine) :
  steady st ->
  exists m',
    compressStoredData st = set_items m' st
    /\ (forall k, stored_log k m'
                  = Array_slice (- log_max k) (stored_log k (items (localStorage st))))
    /\ stored_gotchi m' = stored_gotchi (items (localStorage st))
    /\ (forall k, stored_log k (items (localStorage st)) <> [] ->
        m' !! log_key k
        = Some (JSON_stringify
                  (JArr (Array_slice (- log_max k) (stored_log k (items (localStorage st)))))))
    /\ (forall g, stored_gotchi (items (localStorage st)) = Some g ->
        m' !! GOTCHI_KEY = Some (JSON_stringify g)).
Proof.
  intros Hst. unfold compressStoredData.
  rewrite (isLocalStorageAvailable_steady _ Hst). cbn [negb].
  set (m := items (localStorage st)).
  pose proof (steady_set_items (delete testKey m) st Hst) as Hst0.
  destruct (compress_stored_log_steady FeedingLog _ Hst0) as (m1 & E1 & Hv1 & Hf1 & Hr1).
  rewrite E1. cbn [set_items items localStorage] in Hv1, Hf1, Hr1.
  change (set_items m1 (set_items (delete testKey m) st)) with (set_items m1 st).
  pose proof (steady_set_items m1 st Hst) as Hst1.
  destruct (compress_stored_log_steady ExpressionLog _ Hst1) as (m2 & E2 & Hv2 & Hf2 & Hr2).
  rewrite E2. cbn [set_items items localStorage] in Hv2, Hf2, Hr2.
  change (set_items m2 (set_items m1 st)) with (set_items m2 st).
  pose proof (steady_set_items m2 st Hst) as Hst2.
  destruct (loadGotchi_steady _ Hst2) as (m3 & E3 & [Hg3 Hl3] & Hf3 & Hk3).
  rewrite E3. cbn [set_items items localStorage] in Hg3, Hl3, Hf3, Hk3.
  cbn [set_items items localStorage].
  change (set_items m3 (set_items m2 st)) with (set_items m3 st).
  (* what the first two steps leave in the store *)
  assert (Hfeed2 : m2 !! log_key FeedingLog = m1 !! log_key FeedingLog)
    by (apply (frame_stored_log ExpressionLog); [exact Hf2 | discriminate]).
  assert (Hexpr1 : m1 !! log_key ExpressionLog = m !! log_key ExpressionLog).
  { rewrite (frame_stored_log FeedingLog ExpressionLog _ _ Hf1) by discriminate.
    apply lookup_delete_ne. discriminate. }
  assert (Hgot2 : m2 !! GOTCHI_KEY = m !! GOTCHI_KEY).
  { rewrite (frame_stored_gotchi ExpressionLog m1 m2 Hf2).
    rewrite (frame_stored_gotchi FeedingLog _ m1 Hf1).
    apply lookup_delete_ne, testKey_not_gotchi. }
  assert (Hlogs2 : forall k, stored_log k m2 = Array_slice (- log_max k) (stored_log k m)).
  { intros [ | ].
    - rewrite (stored_log_ext FeedingLog m1 m2 Hfeed2), Hv1.
      rewrite (stored_log_delete_ne FeedingLog testKey m) by discriminate. reflexivity.
    - rewrite Hv2, (stored_log_ext ExpressionLog m m1 Hexpr1). reflexivity. }
  assert (Hraw2 : forall k, stored_log k m <> [] ->
            m2 !! log_key k
            = Some (JSON_stringify (JArr (Array_slice (- log_max k) (stored_log k m))))).
  { intros [ | ] Hne.
    - rewrite Hfeed2. rewrite Hr1.
      + rewrite (stored_log_delete_ne FeedingLog testKey m) by discriminate. reflexivity.
      + rewrite (stored_log_delete_ne FeedingLog testKey m) by discriminate. exact Hne.
    - rewrite Hr2.
      + rewrite (stored_log_ext ExpressionLog m m1 Hexpr1). reflexivity.
      + rewrite (stored_log_ext ExpressionLog m m1 Hexpr1). exact Hne. }
  assert (Hgv2 : stored_gotchi m2 = stored_gotchi m) by (apply stored_gotchi_ext, Hgot2).
  rewrite Hgv2.
  destruct (stored_gotchi m) as [g | ] eqn:Hg.
  - pose proof (stored_gotchi_valid m g Hg) as Hvalid.
    rewrite (isValidGotchiState_truthy g Hvalid).
    rewrite (setItem_steady _ _ _ (steady_set_items m3 st Hst)). simpl.
    eexists. split; [reflexivity | ]. split; [ | split; [ | split]].
    + intros k. rewrite stored_log_insert_ne by apply gotchi_not_log.
      rewrite Hl3. apply Hlogs2.
    + rewrite stored_gotchi_insert, Hvalid. reflexivity.
    + intros k Hne. rewrite lookup_insert_ne by apply gotchi_not_log.
      rewrite (frame_gotchi_log k m2 m3 Hf3). apply Hraw2, Hne.
    + intros g' Hg'. rewrite lookup_insert_eq. congruence.
  - exists m3. split; [reflexivity | ]. split; [ | split; [ | split]].
    + intros k. rewrite Hl3. apply Hlogs2.
    + rewrite Hg3. exact Hgv2.
    + intros k Hne. rewrite (frame_gotchi_log k m2 m3 Hf3). apply Hraw2, Hne.
    + intros g' Hg'. discriminate Hg'.
Qed.

(** The two branches of [checkAndPruneIfNeeded] on a steady store, by the
    size measured. *)
Lemma checkAndPruneIfNeeded_steady_eq (st : Engine) :
  steady st ->
  checkAndPruneIfNeeded st
  = let '(currentSize, st0) := checkStorageSize st in
    let st1 :=
      if (4194304 <? currentSize) && (currentSize <=? MAX_STORAGE_SIZE_BYTES)
      then compressStoredData st0 else st0 in
    let '(sizeAfterCompression, st2) := checkStorageSize st1 in
    if MAX_STORAGE_SIZE_BYTES <? sizeAfterCompression then pruneOldData st2 else st2.
Proof.
  intros Hst. unfold checkAndPruneIfNeeded.
  rewrite (isLocalStorageAvailable_steady _ Hst). cbn [negb].
  rewrite (checkStorageSize_steady _ Hst).
  rewrite (checkStorageSize_steady _ (steady_set_items _ st Hst)). simpl.
  rewrite delete_delete_eq. rewrite exceeds_threshold_spec. reflexivity.
Qed.

Lemma checkAndPruneIfNeeded_steady (st : Engine) :
  steady st ->
  exists m',
    checkAndPruneIfNeeded st = set_items m' st
    /\ (forall k, stored_log k m' `suffix_of` stored_log k (items (localStorage st)))
    /\ stored_gotchi m' = stored_gotchi (items (localStorage st)).
Proof.
  intros Hst. rewrite (checkAndPruneIfNeeded_steady_eq _ Hst).
  rewrite (checkStorageSize_steady _ Hst).
  set (m := items (localStorage st)).
  set (m0 := delete testKey m).
  pose proof (steady_set_items m0 st Hst) as Hst0.
  assert (Hm0 : same_views m m0) by apply same_views_probe.
  assert (Hstep1 : exists m1,
            (if (4194304 <? map_fold size_step 0 m0)
                && (map_fold size_step 0 m0 <=? MAX_STORAGE_SIZE_BYTES)
             then compressStoredData (set_items m0 st) else set_items m0 st)
            = set_items m1 st
            /\ (forall k, stored_log k m1 `suffix_of` stored_log k m)
            /\ stored_gotchi m1 = stored_gotchi m).
  { destruct ((4194304 <? map_fold size_step 0 m0)
              && (map_fold size_step 0 m0 <=? MAX_STORAGE_SIZE_BYTES)).
    - destruct (compressStoredData_steady _ Hst0) as (m1 & E1 & Hl1 & Hg1 & _).
      simpl in Hl1, Hg1. exists m1. split; [exact E1 | ]. split.
      + intros k. rewrite Hl1, (proj2 Hm0 k). apply Array_slice_suffix.
      + rewrite Hg1. apply Hm0.
    - exists m0. split; [reflexivity | ]. split.
      + intros k. rewrite (proj2 Hm0 k). reflexivity.
      + apply Hm0. }
  destruct Hstep1 as (m1 & E1 & Hl1 & Hg1). cbv zeta. rewrite E1.
  pose proof (steady_set_items m1 st Hst) as Hst1.
  rewrite (checkStorageSize_steady _ Hst1). simpl.
  change (set_items (delete testKey m1) (set_items m1 st))
    with (set_items (delete testKey m1) st).
  pose proof (same_views_probe m1) as [Hg1' Hl1'].
  destruct (MAX_STORAGE_SIZE_BYTES <? map_fold size_step 0 (delete testKey m1)).
  - destruct (pruneOldData_steady _ (steady_set_items (delete testKey m1) st Hst))
      as (m2 & E2 & Hl2 & Hraw2).
    simpl in Hl2, Hraw2. exists m2. split; [exact E2 | ]. split.
    + intros k. rewrite Hl2. etrans; [apply pruned_suffix | ].
      etrans; [apply Array_slice_suffix | ]. rewrite Hl1'. apply Hl1.
    + rewrite (stored_gotchi_ext _ _ Hraw2). congruence.
  - exists (delete testKey m1). split; [reflexivity | ]. split.
    + intros k. rewrite Hl1'. apply Hl1.
    + congruence.
Qed.

(** *** Saves and flushes on a steady store *)

Lemma steady_congr (st st' : Engine) :
  memoryOnlyMode st' = memoryOnlyMode st ->
  rejects (localStorage st') = rejects (localStorage st) ->
  steady st -> steady st'.
Proof.
  intros Hm Hr [Hmode Hacc]. split; [congruence | ].
  intros m k v. rewrite Hr. apply Hacc.
Qed.

Lemma log_pending_set_items (k : Log) (m : gmap string string) (st : Engine) :
  log_pending k (set_items m st) = log_pending k st.
Proof. destruct k; reflexivity. Qed.

Lemma flushGotchiState_steady (st : Engine) :
  steady st ->
  exists m' p',
    flushGotchiState st
    = set_pendingGotchiState p' (set_items m' (set_gotchiSaveTimer None st))
    /\ (forall key, key <> testKey -> key <> GOTCHI_KEY ->
        m' !! key = items (localStorage st) !! key)
    /\ (forall g, pendingGotchiState st = Some g -> truthy g = true ->
        m' !! GOTCHI_KEY = Some (JSON_stringify g))
    /\ (pendingGotchiState st = None ->
        m' !! GOTCHI_KEY = items (localStorage st) !! GOTCHI_KEY).
Proof.
  intros Hst. unfold flushGotchiState.
  assert (Hid : forall p, pendingGotchiState st = p ->
            set_gotchiSaveTimer None st
            = set_pendingGotchiState p
                (set_items (items (localStorage st)) (set_gotchiSaveTimer None st))).
  { intros p <-. destruct st as [[m r] ? ? ? ? ? ? ? ?]. reflexivity. }
  change (pendingGotchiState (set_gotchiSaveTimer None st)) with (pendingGotchiState st).
  destruct (pendingGotchiState st) as [pending | ] eqn:Hp.
  - destruct (truthy pending) eqn:Ht; cbn [negb].
    + assert (Hst' : steady (set_gotchiSaveTimer None st))
        by (revert Hst; apply steady_congr; reflexivity).
      rewrite (isLocalStorageAvailable_steady _ Hst'). cbn [negb].
      rewrite (setItem_steady _ _ _ (steady_set_items _ _ Hst')).
      cbn [set_items items localStorage set_gotchiSaveTimer].
      eexists _, None. split; [reflexivity | ]. split; [ | split].
      * intros key H1 H2. rewrite lookup_insert_ne by congruence.
        apply lookup_delete_ne. congruence.
      * intros g Hg _. rewrite lookup_insert_eq. congruence.
      * intros E. discriminate E.
    + exists (items (localStorage st)), (Some pending).
      split; [apply Hid; reflexivity | ]. split; [reflexivity | ]. split.
      * intros g Hg Hg'. congruence.
      * intros E. discriminate E.
  - exists (items (localStorage st)), None.
    split; [apply Hid; reflexivity | ]. split; [reflexivity | ]. split.
    + intros g Hg. discriminate Hg.
    + reflexivity.
Qed.

Lemma write_log_steady (k : Log) (st : Engine) :
  steady st ->
  exists m',
    write_log k st = inr (set_items m' st)
    /\ stored_log k m'
       = Array_slice (- log_max k)
           (Array_slice (- log_max k) (stored_log k (items (localStorage st)))
            ++ log_pending k st)
    /\ (forall key, key <> testKey -> key <> log_key k ->
        m' !! key = items (localStorage st) !! key).
Proof.
  intros Hst. unfold write_log.
  destruct (getLog_steady k (log_max k) st Hst) as (m1 & E & _ & Hf). rewrite E.
  rewrite (setItem_steady _ _ _ (steady_set_items m1 st Hst)).
  cbn [set_items items localStorage]. rewrite log_pending_set_items.
  eexists. split; [reflexivity | ]. split; [apply stored_log_insert | ].
  intros key H1 H2. rewrite lookup_insert_ne by congruence. apply Hf; assumption.
Qed.

Lemma flushLog_steady (k : Log) (st : Engine) :
  steady st ->
  exists m',
    flushLog k st = set_log_pending k [] (set_items m' (set_log_timer k None st))
    /\ stored_log k m' `suffix_of` (stored_log k (items (localStorage st)) ++ log_pending k st)
    /\ (forall k', k' <> k ->
        stored_log k' m' `suffix_of` stored_log k' (items (localStorage st)))
    /\ stored_gotchi m' = stored_gotchi (items (localStorage st)).
Proof.
  intros Hst. unfold flushLog.
  assert (Hp : log_pending k (set_log_timer k None st) = log_pending k st)
    by (destruct k; reflexivity).
  assert (Hi : items (localStorage (set_log_timer k None st)) = items (localStorage st))
    by (destruct k; reflexivity).
  assert (Hst' : steady (set_log_timer k None st))
    by (revert Hst; apply steady_congr; destruct k; reflexivity).
  rewrite Hp.
  destruct (Z.eqb_spec (Z.of_nat (length (log_pending k st))) 0) as [Hzero | Hpos].
  - assert (Hnil : log_pending k st = [])
      by (destruct (log_pending k st); [reflexivity | simpl in Hzero; lia]).
    exists (items (localStorage st)). split; [ | split; [ | split]].
    + clear -Hnil. destruct k, st as [[m r] ? ? ? ? ? ? ? ?]; simpl in *; subst; reflexivity.
    + rewrite Hnil, app_nil_r. reflexivity.
    + intros k' _. reflexivity.
    + reflexivity.
  - rewrite (isLocalStorageAvailable_steady _ Hst'). cbn [negb]. rewrite Hi.
    set (m := items (localStorage st)).
    pose proof (steady_set_items (delete testKey m) _ Hst') as Hst0.
    destruct (write_log_steady k _ Hst0) as (m1 & E1 & Hv1 & Hf1). rewrite E1.
    cbn [set_items items localStorage] in Hv1, Hf1.
    rewrite log_pending_set_items, Hp in Hv1.
    rewrite (stored_log_delete_ne k testKey m) in Hv1 by apply testKey_not_log.
    pose proof (steady_set_items m1 _ Hst0) as Hst1.
    destruct (checkAndPruneIfNeeded_steady _ Hst1) as (m2 & E2 & Hl2 & Hg2). rewrite E2.
    cbn [set_items items localStorage] in Hl2, Hg2.
    exists m2. split; [reflexivity | ]. split; [ | split].
    + etrans; [apply Hl2 | ]. rewrite Hv1.
      etrans; [apply Array_slice_suffix | ].
      apply suffix_app, Array_slice_suffix.
    + intros k' Hne. etrans; [apply Hl2 | ].
      rewrite (stored_log_ext k' (delete testKey m) m1)
        by (apply (frame_stored_log k); assumption).
      rewrite stored_log_delete_ne by apply testKey_not_log. reflexivity.
    + rewrite Hg2.
      rewrite (stored_gotchi_ext (delete testKey m) m1)
        by (apply (frame_stored_gotchi k); assumption).
      apply stored_gotchi_delete_ne, testKey_not_gotchi.
Qed.

Lemma saveLog_steady (k : Log) (record : jsval) (st : Engine) :
  steady st ->
  log_pending k st = [] ->
  saveLog k record st
  = set_log_timer k (Some true)
      (set_log_timer k (clearTimeout (log_timer k st))
         (set_items (delete testKey (items (localStorage st)))
            (set_log_pending k [record] st))).
Proof.
  intros Hst Hnil. unfold saveLog. rewrite Hnil. cbn [app].
  assert (Hst' : steady (set_log_pending k [record] st))
    by (revert Hst; apply steady_congr; destruct k; reflexivity).
  rewrite (isLocalStorageAvailable_steady _ Hst'). cbn [negb].
  destruct k; reflexivity.
Qed.

(** *** The memory mirror *)

Lemma isLocalStorageAvailable_rejecting (st : Engine) :
  memoryOnlyMode st = false ->
  rejects_all st ->
  isLocalStorageAvailable st = (false, set_memoryOnlyMode true st).
Proof.
  intros Hmode Hrej. unfold isLocalStorageAvailable, setItem. rewrite Hmode.
  destruct (rejects (localStorage st) (items (localStorage st)) testKey "test") eqn:E;
    [reflexivity | ].
  exfalso. exact (Hrej _ _ _ E).
Qed.

Lemma loadGotchi_memory (st : Engine) :
  memoryOnlyMode st = true -> loadGotchi st = (mem_gotchi (memoryStorage st), st).
Proof. intros Hmode. unfold loadGotchi. rewrite (isLocalStorageAvailable_memory _ Hmode). reflexivity. Qed.

Lemma getLog_memory (k : Log) (limit : Z) (st : Engine) :
  memoryOnlyMode st = true ->
  getLog k limit st = (Array_slice (- limit) (log_memory k st), st).
Proof. intros Hmode. unfold getLog. rewrite (isLocalStorageAvailable_memory _ Hmode). reflexivity. Qed.

Lemma flushGotchiState_memory (st : Engine) (g : jsval) :
  memoryOnlyMode st = true ->
  mem_gotchi (memoryStorage st) = Some g ->
  pendingGotchiState st = Some g \/ pendingGotchiState st = None ->
  memoryOnlyMode (flushGotchiState st) = true
  /\ mem_gotchi (memoryStorage (flushGotchiState st)) = Some g.
Proof.
  intros Hmode Hmem Hp. unfold flushGotchiState.
  change (pendingGotchiState (set_gotchiSaveTimer None st)) with (pendingGotchiState st).
  destruct Hp as [Hp | Hp]; rewrite Hp.
  - destruct (truthy g); cbn [negb].
    + rewrite isLocalStorageAvailable_memory by exact Hmode. cbn [negb].
      split; [exact Hmode | reflexivity].
    + split; [exact Hmode | exact Hmem].
  - split; [exact Hmode | exact Hmem].
Qed.

Lemma push_memory_capped_frame (k : Log) (records : list jsval) (st : Engine) :
  memoryOnlyMode (push_memory_capped k records st) = memoryOnlyMode st
  /\ mem_gotchi (memoryStorage (push_memory_capped k records st)) = mem_gotchi (memoryStorage st)
  /\ localStorage (push_memory_capped k records st) = localStorage st.
Proof.
  unfold push_memory_capped.
  destruct (log_max k <? _); destruct k; repeat split; reflexivity.
Qed.

Lemma flushLog_memory (k : Log) (st : Engine) :
  memoryOnlyMode st = true ->
  memoryOnlyMode (flushLog k st) = true
  /\ mem_gotchi (memoryStorage (flushLog k st)) = mem_gotchi (memoryStorage st)
  /\ localStorage (flushLog k st) = localStorage st.
Proof.
  intros Hmode. unfold flushLog.
  assert (Hm' : memoryOnlyMode (set_log_timer k None st) = true)
    by (destruct k; exact Hmode).
  destruct (Z.of_nat (length (log_pending k (set_log_timer k None st))) =? 0).
  - destruct k; repeat split; assumption.
  - rewrite (isLocalStorageAvailable_memory _ Hm'). cbn [negb].
    destruct (push_memory_capped_frame k (log_pending k (set_log_timer k None st))
                (set_log_timer k None st)) as (E1 & E2 & E3).
    destruct k; cbn [set_log_pending set_pendingFeedingRecords set_pendingExpressions
                     memoryOnlyMode memoryStorage localStorage];
      rewrite ?E1, ?E2, ?E3; repeat split; assumption.
Qed.

Lemma flushAll_memory (st : Engine) (g : jsval) :
  memoryOnlyMode st = true ->
  mem_gotchi (memoryStorage st) = Some g ->
  pendingGotchiState st = Some g \/ pendingGotchiState st = None ->
  memoryOnlyMode (flushAll st) = true
  /\ mem_gotchi (memoryStorage (flushAll st)) = Some g.
Proof.
  intros Hmode Hmem Hp. unfold flushAll, flushExpressions, flushFeedingRecords.
  destruct (flushGotchiState_memory st g Hmode Hmem Hp) as [H1 H2].
  destruct (flushLog_memory FeedingLog _ H1) as (H3 & H4 & _).
  destruct (flushLog_memory ExpressionLog _ H3) as (H5 & H6 & _).
  split; [exact H5 | congruence].
Qed.

Lemma isValidGotchiState_js (s : GotchiState) : isValidGotchiState (GotchiState_js s) = true.
Proof. destruct s as [i [ | ] fc ev ca]; vm_compute; reflexivity. Qed.

Lemma items_flushed (k : Log) (l : list jsval) (t : timer) (m : gmap string string) (st : Engine) :
  items (localStorage (set_log_pending k l (set_items m (set_log_timer k t st)))) = m.
Proof. destruct k; reflexivity. Qed.

Lemma steady_flushed (k : Log) (l : list jsval) (t : timer) (m : gmap string string) (st : Engine) :
  steady st -> steady (set_log_pending k l (set_items m (set_log_timer k t st))).
Proof. apply steady_congr; destruct k; reflexivity. Qed.

Lemma flushAll_steady_gotchi (st : Engine) (g : jsval) :
  steady st ->
  pendingGotchiState st = Some g ->
  isValidGotchiState g = true ->
  steady (flushAll st)
  /\ stored_gotchi (items (localStorage (flushAll st))) = Some g.
Proof.
  intros Hst Hp Hvalid. unfold flushAll, flushExpressions, flushFeedingRecords.
  destruct (flushGotchiState_steady st Hst) as (m1 & p1 & E1 & _ & Hraw1 & _). rewrite E1.
  assert (Hst1 : steady (set_pendingGotchiState p1 (set_items m1 (set_gotchiSaveTimer None st))))
    by (revert Hst; apply steady_congr; reflexivity).
  assert (Hg1 : stored_gotchi m1 = Some g).
  { unfold stored_gotchi.
    rewrite (Hraw1 g Hp (isValidGotchiState_truthy g Hvalid)).
    rewrite string_is_empty_stringify, JSON_parse_stringify, Hvalid. reflexivity. }
  destruct (flushLog_steady FeedingLog _ Hst1) as (m2 & E2 & _ & _ & Hg2). rewrite E2.
  cbn [set_pendingGotchiState set_items items localStorage] in Hg2.
  pose proof (steady_flushed FeedingLog [] None m2 _ Hst1) as Hst2.
  destruct (flushLog_steady ExpressionLog _ Hst2) as (m3 & E3 & _ & _ & Hg3). rewrite E3.
  rewrite items_flushed in Hg3.
  split; [apply steady_flushed; exact Hst2 | ].
  rewrite items_flushed. congruence.
Qed.

Lemma saveGotchi_unavailable (state : jsval) (st : Engine) :
  memoryOnlyMode st = true \/ rejects_all st ->
  memoryOnlyMode (saveGotchi state st) = true
  /\ mem_gotchi (memoryStorage (saveGotchi state st)) = Some state
  /\ pendingGotchiState (saveGotchi state st) = Some state.
Proof.
  intros Hun. unfold saveGotchi.
  set (st1 := set_pendingGotchiState (Some state) st).
  destruct (memoryOnlyMode st) eqn:Hmode.
  - rewrite (isLocalStorageAvailable_memory st1) by exact Hmode.
    cbn [negb]. repeat split. exact Hmode.
  - destruct Hun as [Hun | Hrej]; [discriminate Hun | ].
    rewrite (isLocalStorageAvailable_rejecting st1) by (try exact Hmode; exact Hrej).
    cbn [negb]. repeat split.
Qed.

Lemma saveGotchi_steady (state : jsval) (st : Engine) :
  steady st ->
  steady (saveGotchi state st)
  /\ pendingGotchiState (saveGotchi state st) = Some state.
Proof.
  intros Hst. unfold saveGotchi.
  assert (Hst1 : steady (set_pendingGotchiState (Some state) st))
    by (revert Hst; apply steady_congr; reflexivity).
  rewrite (isLocalStorageAvailable_steady _ Hst1). cbn [negb].
  split; [ | reflexivity].
  revert Hst. apply steady_congr; reflexivity.
Qed.

(** ** The round trip of the pet *)

(** X5. For every [GotchiState] value [s] (all fields present and of their
    types, [stage] one of 1 and 2), [saveGotchi(s); flushAll(); loadGotchi()]
    returns an object equal to [s] field for field. The browser store is
    one that accepts every write, or one that rejects every write, or the
    module already runs on its memory mirror. *)
Theorem saveGotchi_flushAll_loadGotchi (st : Engine) (s : GotchiState) :
  steady st \/ memoryOnlyMode st = true \/ rejects_all st ->
  fst (loadGotchi (flushAll (saveGotchi (GotchiState_js s) st))) = Some (GotchiState_js s).
Proof.
  intros [Hst | Hun].
  - destruct (saveGotchi_steady (GotchiState_js s) st Hst) as [Hst1 Hp1].
    destruct (flushAll_steady_gotchi _ _ Hst1 Hp1 (isValidGotchiState_js s)) as [Hst2 Hg2].
    destruct (loadGotchi_steady _ Hst2) as (m' & E & _).
    rewrite E. exact Hg2.
  - destruct (saveGotchi_unavailable (GotchiState_js s) st Hun) as (Hmode & Hmem & Hp).
    destruct (flushAll_memory _ _ Hmode Hmem (or_introl Hp)) as [Hmode2 Hmem2].
    rewrite (loadGotchi_memory _ Hmode2). exact Hmem2.
Qed.

(** ** A store that rejects every write *)

(** X6. When the browser store rejects every write, the trial write
    included, [saveGotchi] puts the state on the memory mirror:
    [loadGotchi] returns it, before or after a [flushAll], and
    [isMemoryOnlyMode] is true afterwards. *)
Theorem memory_fallback_roundtrip (st : Engine) (state : jsval) :
  rejects_all st ->
  fst (loadGotchi (saveGotchi state st)) = Some state
  /\ isMemoryOnlyMode (snd (loadGotchi (saveGotchi state st))) = true
  /\ fst (loadGotchi (flushAll (saveGotchi state st))) = Some state
  /\ isMemoryOnlyMode (snd (loadGotchi (flushAll (saveGotchi state st)))) = true.
Proof.
  intros Hrej.
  destruct (saveGotchi_unavailable state st (or_intror Hrej)) as (Hmode & Hmem & Hp).
  destruct (flushAll_memory _ _ Hmode Hmem (or_introl Hp)) as [Hmode2 Hmem2].
  rewrite (loadGotchi_memory _ Hmode), (loadGotchi_memory _ Hmode2).
  unfold isMemoryOnlyMode. simpl. auto.
Qed.

(** ** C10: the size reported in memory-only mode *)

(** C10. In memory-only mode [checkStorageSize] returns 0, whatever the
    mirror and the browser store hold, and changes nothing. *)
Theorem checkStorageSize_memory_only (st : Engine) :
  isMemoryOnlyMode st = true -> checkStorageSize st = (0, st).
Proof.
  unfold isMemoryOnlyMode. intros Hmode. unfold checkStorageSize.
  rewrite (isLocalStorageAvailable_memory _ Hmode). reflexivity.
Qed.

(** ** Every store, steady or not *)

Lemma store_ok_congr r (st st' : Engine) :
  localStorage st' = localStorage st -> store_ok r st -> store_ok r st'.
Proof. intros E [Hr Hc]. split; rewrite E; assumption. Qed.

Lemma capped_delete (key : string) (m : gmap string string) :
  capped m -> capped (delete key m).
Proof.
  intros Hc k. destruct (decide (key = log_key k)) as [-> | Hne].
  - rewrite stored_log_delete. pose proof (log_max_pos k). simpl. lia.
  - rewrite stored_log_delete_ne by exact Hne. apply Hc.
Qed.

Lemma capped_insert_log (k : Log) (l : list jsval) (m : gmap string string) :
  Z.of_nat (length l) <= log_max k ->
  capped m -> capped (<[log_key k := JSON_stringify (JArr l)]> m).
Proof.
  intros Hl Hc k'. destruct (decide (k' = k)) as [-> | Hne].
  - rewrite stored_log_insert. exact Hl.
  - rewrite stored_log_insert_ne by (intros E; apply Hne; symmetry; apply log_key_inj, E).
    apply Hc.
Qed.

Lemma capped_insert_other (key v : string) (m : gmap string string) :
  (forall k, key <> log_key k) -> capped m -> capped (<[key := v]> m).
Proof. intros Hne Hc k. rewrite stored_log_insert_ne by apply Hne. apply Hc. Qed.

Lemma store_ok_removeItem r (key : string) (st : Engine) :
  store_ok r st -> store_ok r (removeItem key st).
Proof. intros [Hr Hc]. split; [exact Hr | apply capped_delete, Hc]. Qed.

Lemma store_ok_setItem_log r (k : Log) (l : list jsval) (st st' : Engine) :
  Z.of_nat (length l) <= log_max k ->
  store_ok r st ->
  setItem (log_key k) (JSON_stringify (JArr l)) st = inr st' ->
  store_ok r st'.
Proof.
  intros Hl [Hr Hc]. unfold setItem.
  destruct (rejects _ _ _ _); intros E; [discriminate E | ]. injection E as <-.
  split; [exact Hr | apply capped_insert_log; assumption].
Qed.

Lemma store_ok_setItem_other r (key v : string) (st st' : Engine) :
  (forall k, key <> log_key k) ->
  store_ok r st ->
  setItem key v st = inr st' ->
  store_ok r st'.
Proof.
  intros Hne [Hr Hc]. unfold setItem.
  destruct (rejects _ _ _ _); intros E; [discriminate E | ]. injection E as <-.
  split; [exact Hr | apply capped_insert_other; assumption].
Qed.

Lemma store_ok_isLocalStorageAvailable r (st : Engine) :
  store_ok r st -> store_ok r (snd (isLocalStorageAvailable st)).
Proof.
  intros Hok. unfold isLocalStorageAvailable.
  destruct (memoryOnlyMode st); [exact Hok | ].
  destruct (setItem testKey "test" st) as [e | st1] eqn:E.
  - revert Hok. apply store_ok_congr. reflexivity.
  - apply store_ok_removeItem.
    apply (store_ok_setItem_other r testKey "test" st st1); try assumption.
    intros k. apply testKey_not_log.
Qed.

Lemma store_ok_getLog r (k : Log) (limit : Z) (st : Engine) :
  store_ok r st -> store_ok r (snd (getLog k limit st)).
Proof.
  intros Hok. unfold getLog.
  pose proof (store_ok_isLocalStorageAvailable r st Hok) as Hok1.
  destruct (isLocalStorageAvailable st) as [a st1]. simpl in Hok1.
  destruct a; cbn [negb]; [ | exact Hok1].
  destruct (getItem (log_key k) st1) as [s | ]; [ | exact Hok1].
  destruct (string_is_empty s); [exact Hok1 | ].
  destruct (JSON_parse s) as [[ | b | n | s' | l | fs] | ];
    try exact Hok1; apply store_ok_removeItem, Hok1.
Qed.

Lemma getLog_length (k : Log) (limit : Z) (st : Engine) :
  0 < limit -> Z.of_nat (length (fst (getLog k limit st))) <= limit.
Proof.
  intros Hpos. unfold getLog.
  destruct (isLocalStorageAvailable st) as [a st1].
  destruct a; cbn [negb]; [ | apply Array_slice_neg_length, Hpos].
  destruct (getItem (log_key k) st1) as [s | ]; [ | simpl; lia].
  destruct (string_is_empty s); [simpl; lia | ].
  destruct (JSON_parse s) as [[ | b | n | s' | l | fs] | ]; try (simpl; lia).
  apply Array_slice_neg_length, Hpos.
Qed.

Lemma store_ok_loadGotchi r (st : Engine) :
  store_ok r st -> store_ok r (snd (loadGotchi st)).
Proof.
  intros Hok. unfold loadGotchi.
  pose proof (store_ok_isLocalStorageAvailable r st Hok) as Hok1.
  destruct (isLocalStorageAvailable st) as [a st1]. simpl in Hok1.
  destruct a; cbn [negb]; [ | exact Hok1].
  destruct (getItem GOTCHI_KEY st1) as [s | ]; [ | exact Hok1].
  destruct (string_is_empty s); [exact Hok1 | ].
  destruct (JSON_parse s) as [v | ]; [ | apply store_ok_removeItem, Hok1].
  destruct (isValidGotchiState v); cbn [negb]; [exact Hok1 | apply store_ok_removeItem, Hok1].
Qed.

Lemma store_ok_checkStorageSize r (st : Engine) :
  store_ok r st -> store_ok r (snd (checkStorageSize st)).
Proof.
  intros Hok. unfold checkStorageSize.
  pose proof (store_ok_isLocalStorageAvailable r st Hok) as Hok1.
  destruct (isLocalStorageAvailable st) as [a st1]. simpl in Hok1.
  destruct a; exact Hok1.
Qed.

Lemma store_ok_sum r (x : Engine + Engine) :
  (forall st, x = inl st -> store_ok r st) ->
  (forall st, x = inr st -> store_ok r st) ->
  store_ok r (match x with inl st => st | inr st => st end).
Proof. intros Hl Hr. destruct x; auto. Qed.

Lemma store_ok_prune_stored_log r (k : Log) (st : Engine) :
  store_ok r st ->
  match prune_stored_log k st with inl st' => store_ok r st' | inr st' => store_ok r st' end.
Proof.
  intros Hok. unfold prune_stored_log.
  pose proof (store_ok_getLog r k (log_max k) st Hok) as Hok1.
  pose proof (getLog_length k (log_max k) st (log_max_pos k)) as Hlen.
  destruct (getLog k (log_max k) st) as [entries st1]. simpl in Hok1, Hlen.
  destruct (setItem _ _ st1) as [e | st2] eqn:E; [exact Hok1 | ].
  eapply store_ok_setItem_log; [ | exact Hok1 | exact E].
  pose proof (Array_slice_length_le (- floor_times_0_8 (length entries)) entries). lia.
Qed.

Lemma store_ok_prune_memory_log r (k : Log) (st : Engine) :
  store_ok r st -> store_ok r (prune_memory_log k st).
Proof. apply store_ok_congr. destruct k; reflexivity. Qed.

Lemma store_ok_pruneOldData r (st : Engine) :
  store_ok r st -> store_ok r (pruneOldData st).
Proof.
  intros Hok. unfold pruneOldData.
  pose proof (store_ok_isLocalStorageAvailable r st Hok) as Hok1.
  destruct (isLocalStorageAvailable st) as [a st1]. simpl in Hok1.
  destruct a; cbn [negb].
  - pose proof (store_ok_prune_stored_log r FeedingLog st1 Hok1) as Hok2.
    destruct (prune_stored_log FeedingLog st1) as [st2 | st2]; [exact Hok2 | ].
    pose proof (store_ok_prune_stored_log r ExpressionLog st2 Hok2) as Hok3.
    destruct (prune_stored_log ExpressionLog st2) as [st3 | st3]; exact Hok3.
  - apply store_ok_prune_memory_log, store_ok_prune_memory_log, Hok1.
Qed.

Lemma store_ok_compress_stored_log r (k : Log) (st : Engine) :
  store_ok r st ->
  match compress_stored_log k st with inl st' => store_ok r st' | inr st' => store_ok r st' end.
Proof.
  intros Hok. unfold compress_stored_log.
  pose proof (store_ok_getLog r k (log_max k) st Hok) as Hok1.
  pose proof (getLog_length k (log_max k) st (log_max_pos k)) as Hlen.
  destruct (getLog k (log_max k) st) as [entries st1]. simpl in Hok1, Hlen.
  destruct (0 <? Z.of_nat (length entries)); [ | exact Hok1].
  destruct (setItem _ _ st1) as [e | st2] eqn:E; [exact Hok1 | ].
  eapply store_ok_setItem_log; [exact Hlen | exact Hok1 | exact E].
Qed.

Lemma store_ok_compressStoredData r (st : Engine) :
  store_ok r st -> store_ok r (compressStoredData st).
Proof.
  intros Hok. unfold compressStoredData.
  pose proof (store_ok_isLocalStorageAvailable r st Hok) as Hok1.
  destruct (isLocalStorageAvailable st) as [a st1]. simpl in Hok1.
  destruct a; cbn [negb]; [ | exact Hok1].
  pose proof (store_ok_compress_stored_log r FeedingLog st1 Hok1) as Hok2.
  destruct (compress_stored_log FeedingLog st1) as [st2 | st2]; [exact Hok2 | ].
  pose proof (store_ok_compress_stored_log r ExpressionLog st2 Hok2) as Hok3.
  destruct (compress_stored_log ExpressionLog st2) as [st3 | st3]; [exact Hok3 | ].
  pose proof (store_ok_loadGotchi r st3 Hok3) as Hok4.
  destruct (loadGotchi st3) as [g st4]. simpl in Hok4.
  destruct g as [g | ]; [ | exact Hok4].
  destruct (truthy g); [ | exact Hok4].
  destruct (setItem GOTCHI_KEY (JSON_stringify g) st4) as [e | st5] eqn:E; [exact Hok4 | ].
  eapply store_ok_setItem_other; [ | exact Hok4 | exact E].
  intros k. apply gotchi_not_log.
Qed.

Lemma store_ok_checkAndPruneIfNeeded r (st : Engine) :
  store_ok r st -> store_ok r (checkAndPruneIfNeeded st).
Proof.
  intros Hok. unfold checkAndPruneIfNeeded.
  pose proof (store_ok_isLocalStorageAvailable r st Hok) as Hok1.
  destruct (isLocalStorageAvailable st) as [a st1]. simpl in Hok1.
  destruct a; cbn [negb]; [ | exact Hok1].
  pose proof (store_ok_checkStorageSize r st1 Hok1) as Hok2.
  destruct (checkStorageSize st1) as [size st2]. simpl in Hok2.
  assert (Hok3 : store_ok r (if exceeds_threshold size && (size <=? MAX_STORAGE_SIZE_BYTES)
                             then compressStoredData st2 else st2)).
  { destruct (exceeds_threshold size && (size <=? MAX_STORAGE_SIZE_BYTES));
      [apply store_ok_compressStoredData, Hok2 | exact Hok2]. }
  cbv zeta.
  pose proof (store_ok_checkStorageSize r _ Hok3) as Hok4.
  destruct (checkStorageSize _) as [size' st4]. simpl in Hok4.
  destruct (MAX_STORAGE_SIZE_BYTES <? size'); [apply store_ok_pruneOldData, Hok4 | exact Hok4].
Qed.

Lemma store_ok_flushGotchiState r (st : Engine) :
  store_ok r st -> store_ok r (flushGotchiState st).
Proof.
  intros Hok. unfold flushGotchiState.
  assert (Hok0 : store_ok r (set_gotchiSaveTimer None st))
    by (revert Hok; apply store_ok_congr; reflexivity).
  destruct (pendingGotchiState (set_gotchiSaveTimer None st)) as [pending | ]; [ | exact Hok0].
  destruct (truthy pending); cbn [negb]; [ | exact Hok0].
  pose proof (store_ok_isLocalStorageAvailable r _ Hok0) as Hok1.
  destruct (isLocalStorageAvailable _) as [a st1]. simpl in Hok1.
  destruct a; cbn [negb].
  - destruct (setItem GOTCHI_KEY (JSON_stringify pending) st1) as [e | st2] eqn:E.
    + revert Hok1. apply store_ok_congr. reflexivity.
    + assert (Hok2 : store_ok r st2).
      { eapply store_ok_setItem_other; [ | exact Hok1 | exact E].
        intros k. apply gotchi_not_log. }
      revert Hok2. apply store_ok_congr. reflexivity.
  - revert Hok1. apply store_ok_congr. reflexivity.
Qed.

Lemma store_ok_push_memory_capped r (k : Log) (records : list jsval) (st : Engine) :
  store_ok r st -> store_ok r (push_memory_capped k records st).
Proof. apply store_ok_congr. apply push_memory_capped_frame. Qed.

Lemma store_ok_fallback_log r (k : Log) (st : Engine) :
  store_ok r st -> store_ok r (fallback_log k st).
Proof. apply store_ok_congr. destruct k; reflexivity. Qed.

Lemma store_ok_set_log_pending r (k : Log) (l : list jsval) (st : Engine) :
  store_ok r st -> store_ok r (set_log_pending k l st).
Proof. apply store_ok_congr. destruct k; reflexivity. Qed.

Lemma store_ok_set_log_timer r (k : Log) (t : timer) (st : Engine) :
  store_ok r st -> store_ok r (set_log_timer k t st).
Proof. apply store_ok_congr. destruct k; reflexivity. Qed.

Lemma store_ok_write_log r (k : Log) (st : Engine) :
  store_ok r st ->
  match write_log k st with
  | inl (_, st') => store_ok r st'
  | inr st' => store_ok r st'
  end.
Proof.
  intros Hok. unfold write_log.
  pose proof (store_ok_getLog r k (log_max k) st Hok) as Hok1.
  destruct (getLog k (log_max k) st) as [history st1]. simpl in Hok1.
  destruct (setItem _ _ st1) as [e | st2] eqn:E; [exact Hok1 | ].
  eapply store_ok_setItem_log; [ | exact Hok1 | exact E].
  apply Array_slice_neg_length, log_max_pos.
Qed.

Lemma store_ok_flushLog r (k : Log) (st : Engine) :
  store_ok r st -> store_ok r (flushLog k st).
Proof.
  intros Hok. unfold flushLog.
  pose proof (store_ok_set_log_timer r k None st Hok) as Hok0.
  destruct (Z.of_nat (length (log_pending k (set_log_timer k None st))) =? 0); [exact Hok0 | ].
  pose proof (store_ok_isLocalStorageAvailable r _ Hok0) as Hok1.
  destruct (isLocalStorageAvailable _) as [a st1]. simpl in Hok1.
  destruct a; cbn [negb].
  - pose proof (store_ok_write_log r k st1 Hok1) as Hok2.
    destruct (write_log k st1) as [[e st2] | st2].
    + destruct (is_quota_error e).
      * pose proof (store_ok_pruneOldData r st2 Hok2) as Hok3.
        pose proof (store_ok_write_log r k _ Hok3) as Hok4.
        destruct (write_log k (pruneOldData st2)) as [[e' st4] | st4].
        -- apply store_ok_fallback_log, Hok4.
        -- apply store_ok_set_log_pending, Hok4.
      * apply store_ok_fallback_log, Hok2.
    + apply store_ok_set_log_pending, store_ok_checkAndPruneIfNeeded, Hok2.
  - apply store_ok_set_log_pending, store_ok_push_memory_capped, Hok1.
Qed.

Lemma store_ok_saveLog r (k : Log) (record : jsval) (st : Engine) :
  store_ok r st -> store_ok r (saveLog k record st).
Proof.
  intros Hok. unfold saveLog.
  pose proof (store_ok_set_log_pending r k (log_pending k st ++ [record]) st Hok) as Hok0.
  pose proof (store_ok_isLocalStorageAvailable r _ Hok0) as Hok1.
  destruct (isLocalStorageAvailable _) as [a st1]. simpl in Hok1.
  destruct a; cbn [negb].
  - cbv zeta.
    pose proof (store_ok_set_log_timer r k (clearTimeout (log_timer k st1)) st1 Hok1) as Hok2.
    destruct (BATCH_SIZE <=? _).
    + apply store_ok_flushLog, Hok2.
    + apply store_ok_set_log_timer, Hok2.
  - apply store_ok_set_log_pending, store_ok_push_memory_capped, Hok1.
Qed.

Lemma store_ok_flushAll r (st : Engine) :
  store_ok r st -> store_ok r (flushAll st).
Proof.
  intros Hok. unfold flushAll, flushExpressions, flushFeedingRecords.
  apply store_ok_flushLog, store_ok_flushLog, store_ok_flushGotchiState, Hok.
Qed.

Lemma store_ok_save_then_flush r (st : Engine) (op : Save) :
  store_ok r st -> store_ok r (save_then_flush st op).
Proof.
  intros Hok. destruct op; simpl; apply store_ok_flushAll;
    unfold saveFeedingRecord, saveExpression; apply store_ok_saveLog, Hok.
Qed.

Lemma store_ok_run r (ops : list Save) (st : Engine) :
  store_ok r st -> store_ok r (run ops st).
Proof.
  revert st. induction ops as [ | op ops IH]; intros st Hok; [exact Hok | ].
  simpl. apply IH, store_ok_save_then_flush, Hok.
Qed.

(** *** A steady store within its caps *)

Lemma maybe_pruned_suffix (b : bool) (l : list jsval) : maybe_pruned b l `suffix_of` l.
Proof. destruct b; [apply pruned_suffix | reflexivity]. Qed.

Lemma capped_slice (k : Log) (m : gmap string string) :
  capped m -> Array_slice (- log_max k) (stored_log k m) = stored_log k m.
Proof.
  intros Hc. apply Array_slice_neg_all; [ | apply Hc].
  pose proof (log_max_pos k). lia.
Qed.

Lemma capped_same_logs (m m' : gmap string string) :
  (forall k, stored_log k m' = stored_log k m) -> capped m -> capped m'.
Proof. intros E Hc k. rewrite E. apply Hc. Qed.

Lemma checkAndPruneIfNeeded_steady_capped (st : Engine) :
  steady st ->
  capped (items (localStorage st)) ->
  exists m' b,
    checkAndPruneIfNeeded st = set_items m' st
    /\ (forall k, stored_log k m' = maybe_pruned b (stored_log k (items (localStorage st))))
    /\ stored_gotchi m' = stored_gotchi (items (localStorage st)).
Proof.
  intros Hst Hc. rewrite (checkAndPruneIfNeeded_steady_eq _ Hst).
  rewrite (checkStorageSize_steady _ Hst).
  set (m := items (localStorage st)) in *.
  set (m0 := delete testKey m).
  pose proof (steady_set_items m0 st Hst) as Hst0.
  pose proof (same_views_probe m) as [Hg0 Hl0]. fold m0 in Hg0, Hl0.
  assert (Hstep1 : exists m1,
            (if (4194304 <? map_fold size_step 0 m0)
                && (map_fold size_step 0 m0 <=? MAX_STORAGE_SIZE_BYTES)
             then compressStoredData (set_items m0 st) else set_items m0 st)
            = set_items m1 st
            /\ (forall k, stored_log k m1 = stored_log k m)
            /\ stored_gotchi m1 = stored_gotchi m).
  { destruct ((4194304 <? map_fold size_step 0 m0)
              && (map_fold size_step 0 m0 <=? MAX_STORAGE_SIZE_BYTES)).
    - destruct (compressStoredData_steady _ Hst0) as (m1 & E1 & Hl1 & Hg1 & _).
      cbn [set_items items localStorage] in Hl1, Hg1.
      exists m1. split; [exact E1 | ]. split.
      + intros k. rewrite Hl1, Hl0. apply capped_slice, Hc.
      + congruence.
    - exists m0. split; [reflexivity | ]. split; assumption. }
  destruct Hstep1 as (m1 & E1 & Hl1 & Hg1). cbv zeta. rewrite E1.
  pose proof (steady_set_items m1 st Hst) as Hst1.
  rewrite (checkStorageSize_steady _ Hst1). cbn [set_items items localStorage].
  change (set_items (delete testKey m1) (set_items m1 st))
    with (set_items (delete testKey m1) st).
  pose proof (same_views_probe m1) as [Hg1' Hl1'].
  destruct (MAX_STORAGE_SIZE_BYTES <? map_fold size_step 0 (delete testKey m1)).
  - destruct (pruneOldData_steady _ (steady_set_items (delete testKey m1) st Hst))
      as (m2 & E2 & Hl2 & Hraw2).
    cbn [set_items items localStorage] in Hl2, Hraw2.
    exists m2, true. split; [exact E2 | ]. split.
    + intros k. rewrite Hl2, Hl1', Hl1. rewrite (capped_slice k m Hc). reflexivity.
    + rewrite (stored_gotchi_ext _ _ Hraw2). congruence.
  - exists (delete testKey m1), false. split; [reflexivity | ]. split.
    + intros k. rewrite Hl1'. apply Hl1.
    + congruence.
Qed.

Lemma flushLog_nop (k : Log) (st : Engine) :
  log_pending k st = [] -> flushLog k st = set_log_timer k None st.
Proof.
  intros Hnil. unfold flushLog.
  replace (log_pending k (set_log_timer k None st)) with (log_pending k st)
    by (destruct k; reflexivity).
  rewrite Hnil. reflexivity.
Qed.

Lemma flushLog_steady_capped (k : Log) (st : Engine) :
  steady st ->
  capped (items (localStorage st)) ->
  log_pending k st <> [] ->
  exists m' b,
    flushLog k st = set_log_pending k [] (set_items m' (set_log_timer k None st))
    /\ stored_log k m'
       = maybe_pruned b
           (Array_slice (- log_max k)
              (stored_log k (items (localStorage st)) ++ log_pending k st))
    /\ (forall k', k' <> k ->
        stored_log k' m' = maybe_pruned b (stored_log k' (items (localStorage st)))).
Proof.
  intros Hst Hc Hne. unfold flushLog.
  assert (Hp : log_pending k (set_log_timer k None st) = log_pending k st)
    by (destruct k; reflexivity).
  assert (Hi : items (localStorage (set_log_timer k None st)) = items (localStorage st))
    by (destruct k; reflexivity).
  assert (Hst' : steady (set_log_timer k None st))
    by (revert Hst; apply steady_congr; destruct k; reflexivity).
  rewrite Hp.
  destruct (Z.eqb_spec (Z.of_nat (length (log_pending k st))) 0) as [Hzero | Hpos].
  { exfalso. apply Hne. destruct (log_pending k st); [reflexivity | simpl in Hzero; lia]. }
  rewrite (isLocalStorageAvailable_steady _ Hst'). cbn [negb]. rewrite Hi.
  set (m := items (localStorage st)) in *.
  pose proof (steady_set_items (delete testKey m) _ Hst') as Hst0.
  destruct (write_log_steady k _ Hst0) as (m1 & E1 & Hv1 & Hf1). rewrite E1.
  cbn [set_items items localStorage] in Hv1, Hf1.
  rewrite log_pending_set_items, Hp in Hv1.
  rewrite (stored_log_delete_ne k testKey m) in Hv1 by apply testKey_not_log.
  rewrite (capped_slice k m Hc) in Hv1.
  assert (Hother : forall k', k' <> k -> stored_log k' m1 = stored_log k' m).
  { intros k' Hk'. rewrite (stored_log_ext k' (delete testKey m) m1)
      by (apply (frame_stored_log k); assumption).
    apply stored_log_delete_ne, testKey_not_log. }
  assert (Hc1 : capped m1).
  { intros k'. destruct (decide (k' = k)) as [-> | Hk'].
    - rewrite Hv1. apply Array_slice_neg_length, log_max_pos.
    - rewrite (Hother k' Hk'). apply Hc. }
  pose proof (steady_set_items m1 _ Hst0) as Hst1.
  destruct (checkAndPruneIfNeeded_steady_capped _ Hst1 Hc1) as (m2 & b & E2 & Hl2 & _).
  rewrite E2. cbn [set_items items localStorage] in Hl2.
  exists m2, b. split; [reflexivity | ]. split.
  - rewrite Hl2, Hv1. reflexivity.
  - intros k' Hk'. rewrite Hl2, (Hother k' Hk'). reflexivity.
Qed.

Lemma log_pending_flushed (k k' : Log) (m : gmap string string) (st : Engine) :
  log_pending k' (set_log_pending k [] (set_items m (set_log_timer k None st)))
  = if decide (k' = k) then [] else log_pending k' st.
Proof. destruct k, k'; reflexivity. Qed.

Lemma log_pending_set_log_timer (k k' : Log) (t : timer) (st : Engine) :
  log_pending k' (set_log_timer k t st) = log_pending k' st.
Proof. destruct k, k'; reflexivity. Qed.

Lemma steady_set_log_timer (k : Log) (t : timer) (st : Engine) :
  steady st -> steady (set_log_timer k t st).
Proof. apply steady_congr; destruct k; reflexivity. Qed.

Lemma items_set_log_timer (k : Log) (t : timer) (st : Engine) :
  items (localStorage (set_log_timer k t st)) = items (localStorage st).
Proof. destruct k; reflexivity. Qed.

(** Flushing both logs when only log [k] has pending records. *)
Lemma flush_logs_steady (k : Log) (st : Engine) :
  steady st ->
  capped (items (localStorage st)) ->
  log_pending k st <> [] ->
  (forall k', k' <> k -> log_pending k' st = []) ->
  let st' := flushExpressions (flushFeedingRecords st) in
  steady st'
  /\ (forall k', log_pending k' st' = [])
  /\ exists b, forall k',
       stored_log k' (items (localStorage st'))
       = maybe_pruned b
           (Array_slice (- log_max k')
              (stored_log k' (items (localStorage st))
               ++ (if decide (k' = k) then log_pending k st else []))).
Proof.
  intros Hst Hc Hne Hothers. unfold flushExpressions, flushFeedingRecords.
  assert (Hfinal : forall b k' (l : list jsval),
            Z.of_nat (length l) <= log_max k' ->
            maybe_pruned b l = maybe_pruned b (Array_slice (- log_max k') (l ++ []))).
  { intros b k' l Hl. rewrite app_nil_r, Array_slice_neg_all; [reflexivity | | exact Hl].
    pose proof (log_max_pos k'). lia. }
  destruct k; cbv zeta.
  - destruct (flushLog_steady_capped FeedingLog st Hst Hc Hne) as (m1 & b & E1 & Hv1 & Ho1).
    rewrite E1. rewrite flushLog_nop
      by (rewrite log_pending_flushed; apply (Hothers ExpressionLog); discriminate).
    split; [apply steady_set_log_timer, steady_flushed, Hst | ]. split.
    + intros k'. rewrite log_pending_set_log_timer, log_pending_flushed.
      destruct (decide (k' = FeedingLog)) as [ | Hk']; [reflexivity | apply Hothers, Hk'].
    + exists b. intros k'. rewrite items_set_log_timer, items_flushed.
      destruct (decide (k' = FeedingLog)) as [-> | Hk']; [exact Hv1 | ].
      rewrite (Ho1 k' Hk'). apply Hfinal, Hc.
  - rewrite (flushLog_nop FeedingLog st) by (apply Hothers; discriminate).
    assert (Hst1 : steady (set_log_timer FeedingLog None st))
      by (apply steady_set_log_timer, Hst).
    destruct (flushLog_steady_capped ExpressionLog _ Hst1 Hc Hne) as (m1 & b & E1 & Hv1 & Ho1).
    rewrite E1.
    split; [apply steady_flushed, Hst1 | ]. split.
    + intros k'. rewrite log_pending_flushed.
      destruct (decide (k' = ExpressionLog)) as [ | Hk']; [reflexivity | ].
      rewrite log_pending_set_log_timer. apply Hothers, Hk'.
    + exists b. intros k'. rewrite items_flushed.
      destruct (decide (k' = ExpressionLog)) as [-> | Hk']; [exact Hv1 | ].
      rewrite (Ho1 k' Hk'). apply Hfinal, Hc.
Qed.

Lemma save_then_flush_eq (st : Engine) (op : Save) :
  save_then_flush st op = flushAll (saveLog (op_log op) (op_record op) st).
Proof. destruct op; reflexivity. Qed.

Lemma saved_one (k : Log) (op : Save) :
  saved k [op] = if decide (k = op_log op) then [op_record op] else [].
Proof. destruct op, k; reflexivity. Qed.

Lemma saved_app (k : Log) (ops ops' : list Save) :
  saved k (ops ++ ops') = saved k ops ++ saved k ops'.
Proof.
  induction ops as [ | [r | e] ops IH]; [reflexivity | | ];
    destruct k; simpl; rewrite ?IH; reflexivity.
Qed.

Lemma save_then_flush_steady (st : Engine) (op : Save) :
  steady st ->
  capped (items (localStorage st)) ->
  (forall k, log_pending k st = []) ->
  let st' := save_then_flush st op in
  steady st'
  /\ (forall k, log_pending k st' = [])
  /\ exists b, forall k,
       stored_log k (items (localStorage st'))
       = maybe_pruned b
           (Array_slice (- log_max k) (stored_log k (items (localStorage st)) ++ saved k [op])).
Proof.
  intros Hst Hc Hnil. cbv zeta. rewrite save_then_flush_eq.
  set (k0 := op_log op). set (r := op_record op).
  rewrite (saveLog_steady k0 r st Hst (Hnil k0)).
  set (m := items (localStorage st)) in *.
  set (st1 := set_log_timer k0 (Some true) _).
  assert (Hst1 : steady st1).
  { subst st1. apply steady_set_log_timer, steady_set_log_timer, steady_set_items.
    revert Hst. apply steady_congr; destruct k0; reflexivity. }
  assert (Hi1 : items (localStorage st1) = delete testKey m).
  { subst st1. rewrite !items_set_log_timer. reflexivity. }
  assert (Hp1 : forall k, log_pending k st1 = if decide (k = k0) then [r] else []).
  { intros k. subst st1. rewrite !log_pending_set_log_timer, log_pending_set_items.
    destruct (decide (k = k0)) as [-> | Hk].
    - destruct k0; reflexivity.
    - rewrite <- (Hnil k). destruct k, k0; try reflexivity; contradiction Hk; reflexivity. }
  unfold flushAll.
  destruct (flushGotchiState_steady st1 Hst1) as (m2 & p2 & E2 & Hf2 & _). rewrite E2.
  set (st2 := set_pendingGotchiState p2 _).
  assert (Hst2 : steady st2) by (revert Hst1; apply steady_congr; reflexivity).
  assert (Hl2 : forall k, stored_log k m2 = stored_log k m).
  { intros k. rewrite (stored_log_ext k (items (localStorage st1)) m2)
      by (apply frame_gotchi_log, Hf2).
    rewrite Hi1. apply stored_log_delete_ne, testKey_not_log. }
  assert (Hc2 : capped (items (localStorage st2))) by (apply (capped_same_logs m); assumption).
  assert (Hp2 : forall k, log_pending k st2 = if decide (k = k0) then [r] else []).
  { intros k. rewrite <- (Hp1 k). destruct k; reflexivity. }
  destruct (flush_logs_steady k0 st2 Hst2 Hc2) as (Hst3 & Hp3 & b & Hv3).
  - rewrite Hp2, decide_True by reflexivity. discriminate.
  - intros k Hk. rewrite Hp2, decide_False by exact Hk. reflexivity.
  - split; [exact Hst3 | ]. split; [exact Hp3 | ].
    exists b. intros k. rewrite Hv3.
    assert (Hpk : log_pending k0 st2 = [r])
      by (rewrite Hp2; apply decide_True; reflexivity).
    change (items (localStorage st2)) with m2. rewrite Hl2, saved_one, Hpk.
    reflexivity.
Qed.

Lemma pruned_nonempty (l : list jsval) :
  (length l <= 1000)%nat -> l <> [] -> pruned l <> [].
Proof.
  intros Hlen Hne. unfold pruned. rewrite (floor_times_0_8_spec _ Hlen).
  destruct (Nat.eq_dec (length l * 4 / 5)%nat 0%nat) as [E | Hpos].
  - rewrite E. change (- Z.of_nat 0) with 0. rewrite Array_slice_zero. exact Hne.
  - rewrite Array_slice_neg by lia. intros Hnil.
    apply (f_equal (@length jsval)) in Hnil. rewrite length_drop in Hnil.
    change (length (@nil jsval)) with 0%nat in Hnil.
    assert (Hdiv : (length l * 4 / 5 <= length l)%nat) by (apply Nat.Div0.div_le_upper_bound; lia).
    lia.
Qed.

Lemma Array_slice_neg_nonempty (n : Z) (l : list jsval) :
  0 < n -> l <> [] -> Array_slice (- n) l <> [].
Proof.
  intros Hn Hne. rewrite Array_slice_neg by exact Hn. intros Hnil.
  apply (f_equal (@length jsval)) in Hnil. rewrite length_drop in Hnil. simpl in Hnil.
  destruct l; [congruence | simpl in Hnil; lia].
Qed.

Lemma suffix_last (l1 l2 : list jsval) :
  l1 `suffix_of` l2 -> l1 <> [] -> list.last l1 = list.last l2.
Proof.
  intros [k ->] Hne. rewrite last_app.
  destruct (list.last l1) eqn:E; [reflexivity | ].
  apply last_None in E. contradiction.
Qed.

(** ** C3: the caps of the two logs *)

(** C3. After any sequence of [saveFeedingRecord] and [saveExpression]
    calls, each followed by [flushAll], the persisted feeding log holds at
    most 1000 records and the persisted expression log at most 500,
    whatever the browser store accepts or rejects. On a store that accepts
    every write, what each log retains is a suffix of what it held followed
    by the records saved, in the order saved, and the record saved last is
    retained: eviction takes the oldest entries first. *)
Theorem persisted_logs_capped (st : Engine) (ops : list Save) :
  capped (items (localStorage st)) ->
  Z.of_nat (length (stored_log FeedingLog (items (localStorage (run ops st))))) <= 1000
  /\ Z.of_nat (length (stored_log ExpressionLog (items (localStorage (run ops st))))) <= 500
  /\ (steady st -> (forall k, log_pending k st = []) ->
      forall k,
        stored_log k (items (localStorage (run ops st)))
          `suffix_of` (stored_log k (items (localStorage st)) ++ saved k ops)
        /\ (saved k ops <> [] ->
            list.last (stored_log k (items (localStorage (run ops st)))) = list.last (saved k ops))).
Proof.
  intros Hc.
  assert (Hok : store_ok (rejects (localStorage st)) (run ops st))
    by (apply store_ok_run; split; [reflexivity | exact Hc]).
  destruct Hok as [_ Hcap].
  split; [apply (Hcap FeedingLog) | ]. split; [apply (Hcap ExpressionLog) | ].
  clear Hcap. intros Hst Hnil.
  assert (Hinv : steady (run ops st)
                 /\ capped (items (localStorage (run ops st)))
                 /\ (forall k, log_pending k (run ops st) = [])
                 /\ forall k,
                      stored_log k (items (localStorage (run ops st)))
                        `suffix_of` (stored_log k (items (localStorage st)) ++ saved k ops)
                      /\ (saved k ops <> [] ->
                          stored_log k (items (localStorage (run ops st))) <> [])).
  { induction ops as [ | op ops IH] using rev_ind.
    - split; [exact Hst | ]. split; [exact Hc | ]. split; [exact Hnil | ].
      intros k. simpl. rewrite app_nil_r. split; [reflexivity | congruence].
    - destruct IH as (Hst' & Hc' & Hnil' & Hsuf').
      unfold run in *. rewrite fold_left_app. cbn [fold_left].
      set (st' := fold_left save_then_flush ops st) in *.
      destruct (save_then_flush_steady st' op Hst' Hc' Hnil') as (Hst2 & Hnil2 & b & Hv2).
      assert (Hc2 : capped (items (localStorage (save_then_flush st' op)))).
      { apply (store_ok_save_then_flush (rejects (localStorage st'))).
        split; [reflexivity | exact Hc']. }
      split; [exact Hst2 | ]. split; [exact Hc2 | ]. split; [exact Hnil2 | ].
      intros k. rewrite saved_app. destruct (Hsuf' k) as [Hsuf Hne']. split.
      + rewrite Hv2. etrans; [apply maybe_pruned_suffix | ].
        etrans; [apply Array_slice_suffix | ].
        rewrite app_assoc. apply suffix_app, Hsuf.
      + intros Hne. rewrite Hv2.
        assert (Hin : stored_log k (items (localStorage st')) ++ saved k [op] <> []).
        { destruct (saved k [op]) eqn:Eop.
          - rewrite app_nil_r in *. apply Hne', Hne.
          - intros E. apply app_eq_nil in E. destruct E as [_ E]. discriminate E. }
        pose proof (Array_slice_neg_nonempty (log_max k) _ (log_max_pos k) Hin) as Hsl.
        destruct b; [ | exact Hsl].
        apply pruned_nonempty; [ | exact Hsl].
        pose proof (Array_slice_neg_length (log_max k)
                      (stored_log k (items (localStorage st')) ++ saved k [op])
                      (log_max_pos k)).
        pose proof (log_max_nat k). lia. }
  destruct Hinv as (_ & _ & _ & Hfin). intros k. destruct (Hfin k) as [Hsuf Hne].
  split; [exact Hsuf | ]. intros Hs.
  rewrite (suffix_last _ _ Hsuf (Hne Hs)). rewrite last_app.
  destruct (list.last (saved k ops)) eqn:E; [reflexivity | ].
  apply last_None in E. contradiction.
Qed.

(** ** C4 and C5: pruning *)

Lemma prune_memory_log_other (k k' : Log) (st : Engine) :
  k' <> k -> log_memory k' (prune_memory_log k st) = log_memory k' st.
Proof. destruct k, k'; intros Hne; try reflexivity; contradiction Hne; reflexivity. Qed.

Lemma prune_memory_log_same (k : Log) (st : Engine) :
  log_memory k (prune_memory_log k st) = pruned (log_memory k st).
Proof. destruct k; reflexivity. Qed.

Lemma pruneOldData_memory (k : Log) (st : Engine) :
  memoryOnlyMode st = true ->
  memoryOnlyMode (pruneOldData st) = true
  /\ log_memory k (pruneOldData st) = pruned (log_memory k st).
Proof.
  intros Hmode. unfold pruneOldData.
  rewrite (isLocalStorageAvailable_memory _ Hmode). cbn [negb]. split.
  - exact Hmode.
  - destruct k.
    + rewrite prune_memory_log_other by discriminate. apply prune_memory_log_same.
    + rewrite prune_memory_log_same, prune_memory_log_other by discriminate. reflexivity.
Qed.

(** What [pruneOldData] leaves of the log the service is working with. *)
Lemma pruneOldData_current_log (k : Log) (st : Engine) :
  memoryOnlyMode st = true \/ steady st ->
  Z.of_nat (length (current_log k st)) <= log_max k ->
  current_log k (pruneOldData st) = pruned (current_log k st).
Proof.
  intros [Hmode | Hst] Hcap; unfold current_log in *.
  - destruct (pruneOldData_memory k st Hmode) as [Hmode' Hlog].
    rewrite Hmode', Hmode. exact Hlog.
  - destruct (pruneOldData_steady st Hst) as (m' & E & Hl & _).
    rewrite (proj1 Hst) in *. rewrite E. cbn [set_items memoryOnlyMode items localStorage].
    rewrite (proj1 Hst), Hl. rewrite Array_slice_neg_all; [reflexivity | | exact Hcap].
    pose proof (log_max_pos k). lia.
Qed.

Lemma pruned_small (l : list jsval) : (length l <= 1)%nat -> pruned l = l.
Proof.
  intros Hlen. unfold pruned. rewrite floor_times_0_8_spec by lia.
  replace (length l * 4 / 5)%nat with 0%nat.
  - apply Array_slice_zero.
  - destruct l as [ | x [ | y l]]; [reflexivity | reflexivity | simpl in Hlen; lia].
Qed.

Lemma pruned_large (l : list jsval) :
  (length l <= 1000)%nat -> length l <> 1%nat ->
  pruned l = drop (length l - length l * 4 / 5) l.
Proof.
  intros Hlen Hne. unfold pruned. rewrite floor_times_0_8_spec by exact Hlen.
  destruct l as [ | x [ | y l]]; [reflexivity | contradiction Hne; reflexivity | ].
  set (n := length (x :: y :: l)) in *.
  assert (Hn : (2 <= n)%nat) by (subst n; simpl; lia).
  assert (Hq : (1 <= n * 4 / 5)%nat) by (apply Nat.div_le_lower_bound; lia).
  rewrite Array_slice_neg by lia. f_equal. lia.
Qed.

(** C4 as the code has it. For a store of N entries within its cap, with N
    other than 1, [pruneOldData] leaves exactly the integer part of 0.8 N
    entries, the most recent ones, in each of the two logs; this holds on
    the memory mirror and on a browser store that accepts every write. (A
    store of one entry is left as it is: see C5.) *)
Theorem pruneOldData_keeps_four_fifths (st : Engine) (k : Log) :
  memoryOnlyMode st = true \/ steady st ->
  Z.of_nat (length (current_log k st)) <= log_max k ->
  length (current_log k st) <> 1%nat ->
  current_log k (pruneOldData st)
  = drop (length (current_log k st) - length (current_log k st) * 4 / 5) (current_log k st)
  /\ length (current_log k (pruneOldData st)) = (length (current_log k st) * 4 / 5)%nat.
Proof.
  intros Hmode Hcap Hne.
  rewrite (pruneOldData_current_log k st Hmode Hcap).
  assert (Hlen : (length (current_log k st) <= 1000)%nat)
    by (pose proof (log_max_nat k); lia).
  rewrite (pruned_large _ Hlen Hne). split; [reflexivity | ].
  rewrite length_drop.
  assert (Hdiv : (length (current_log k st) * 4 / 5 <= length (current_log k st))%nat)
    by (apply Nat.Div0.div_le_upper_bound; lia).
  lia.
Qed.

(** C5. Pruning a log that is empty or holds one entry leaves its content
    as it was, on the memory mirror and on a browser store that accepts
    every write. *)
Theorem pruneOldData_small_store_unchanged (st : Engine) (k : Log) :
  memoryOnlyMode st = true \/ steady st ->
  (length (current_log k st) <= 1)%nat ->
  current_log k (pruneOldData st) = current_log k st.
Proof.
  intros Hmode Hlen.
  rewrite (pruneOldData_current_log k st Hmode).
  - apply pruned_small, Hlen.
  - pose proof (log_max_pos k). destruct k; unfold log_max, MAX_FEEDING_RECORDS, MAX_EXPRESSIONS; lia.
Qed.

(** ** C6: compaction *)

(** Above the ceiling the compaction step is skipped and pruning runs. *)
Lemma checkAndPruneIfNeeded_above_ceiling (st : Engine) :
  steady st ->
  MAX_STORAGE_SIZE_BYTES < fst (checkStorageSize st) ->
  checkAndPruneIfNeeded st = pruneOldData (snd (checkStorageSize st)).
Proof.
  intros Hst Hsize. rewrite (checkAndPruneIfNeeded_steady_eq _ Hst).
  rewrite (checkStorageSize_steady _ Hst) in *. cbn [fst snd] in *.
  set (m0 := delete testKey (items (localStorage st))) in *.
  destruct (Z.leb_spec (map_fold size_step 0 m0) MAX_STORAGE_SIZE_BYTES) as [Hle | _]; [lia | ].
  rewrite andb_false_r. cbv zeta.
  rewrite (checkStorageSize_steady _ (steady_set_items m0 st Hst)).
  cbn [set_items items localStorage]. subst m0. rewrite delete_delete_eq.
  destruct (Z.ltb_spec MAX_STORAGE_SIZE_BYTES
              (map_fold size_step 0 (delete testKey (items (localStorage st))))) as [_ | Hge];
    [reflexivity | lia].
Qed.

(** A flush of a log that has pending records, on a steady store, writes
    the log and then runs [checkAndPruneIfNeeded] on the result. *)
Lemma flushLog_then_check (k : Log) (st : Engine) :
  steady st ->
  log_pending k st <> [] ->
  exists st',
    write_log k (snd (isLocalStorageAvailable (set_log_timer k None st))) = inr st'
    /\ flushLog k st = set_log_pending k [] (checkAndPruneIfNeeded st').
Proof.
  intros Hst Hne. unfold flushLog.
  assert (Hp : log_pending k (set_log_timer k None st) = log_pending k st)
    by (destruct k; reflexivity).
  rewrite Hp.
  destruct (Z.eqb_spec (Z.of_nat (length (log_pending k st))) 0) as [Hzero | _].
  { exfalso. apply Hne. destruct (log_pending k st); [reflexivity | simpl in Hzero; lia]. }
  pose proof (steady_set_log_timer k None st Hst) as Hst0.
  rewrite (isLocalStorageAvailable_steady _ Hst0). cbn [negb snd].
  destruct (write_log_steady k _
              (steady_set_items (delete testKey (items (localStorage (set_log_timer k None st))))
                 _ Hst0)) as (m1 & E1 & _).
  rewrite E1. eexists. split; reflexivity.
Qed.

(** C6 as the code has it. [checkAndPruneIfNeeded] runs after a flush of
    either log (lemma [flushLog_then_check]) and after the debounced write of
    the pet. On a browser store
    that accepts every write and holds its logs within their caps: when the
    measured size is above 80% of the 5 MiB ceiling and not above the
    ceiling, it runs [compressStoredData], which rewrites every log that
    holds entries and a valid pet record as the compact text of their
    content and discards nothing; pruning follows only if the size measured
    afterwards is above the ceiling. When the measured size is above the
    ceiling, compaction does not run and the store is pruned. *)
Theorem compaction_below_ceiling (st : Engine) :
  steady st ->
  capped (items (localStorage st)) ->
  (exceeds_threshold (fst (checkStorageSize st)) = true ->
   fst (checkStorageSize st) <= MAX_STORAGE_SIZE_BYTES ->
   let st1 := compressStoredData (snd (checkStorageSize st)) in
   (forall k, stored_log k (items (localStorage st1)) = stored_log k (items (localStorage st)))
   /\ stored_gotchi (items (localStorage st1)) = stored_gotchi (items (localStorage st))
   /\ (forall k, stored_log k (items (localStorage st)) <> [] ->
       getItem (log_key k) st1
       = Some (JSON_stringify (JArr (stored_log k (items (localStorage st))))))
   /\ (forall g, stored_gotchi (items (localStorage st)) = Some g ->
       getItem GOTCHI_KEY st1 = Some (JSON_stringify g))
   /\ checkAndPruneIfNeeded st
      = (let '(sizeAfterCompression, st2) := checkStorageSize st1 in
         if MAX_STORAGE_SIZE_BYTES <? sizeAfterCompression then pruneOldData st2 else st2))
  /\ (MAX_STORAGE_SIZE_BYTES < fst (checkStorageSize st) ->
      checkAndPruneIfNeeded st = pruneOldData (snd (checkStorageSize st))).
Proof.
  intros Hst Hc. split; [ | apply checkAndPruneIfNeeded_above_ceiling, Hst].
  intros Hthr Hle. cbv zeta.
  rewrite (checkAndPruneIfNeeded_steady_eq _ Hst).
  rewrite exceeds_threshold_spec in Hthr.
  rewrite (checkStorageSize_steady _ Hst) in *. cbn [fst snd] in *.
  set (m := items (localStorage st)) in *.
  set (m0 := delete testKey m) in *.
  rewrite Hthr. apply Z.leb_le in Hle. rewrite Hle. cbn [andb].
  pose proof (same_views_probe m) as [Hg0 Hl0]. fold m0 in Hg0, Hl0.
  destruct (compressStoredData_steady _ (steady_set_items m0 st Hst))
    as (m1 & E1 & Hl1 & Hg1 & Hraw1 & Hrawg1).
  cbn [set_items items localStorage] in Hl1, Hg1, Hraw1, Hrawg1.
  rewrite E1. cbn [set_items items localStorage].
  assert (Hslice : forall k, Array_slice (- log_max k) (stored_log k m0) = stored_log k m).
  { intros k. rewrite Hl0. apply capped_slice, Hc. }
  split; [intros k; rewrite Hl1; apply Hslice | ].
  split; [congruence | ].
  split.
  { intros k Hne. unfold getItem. cbn [set_items items localStorage].
    rewrite Hraw1 by (rewrite Hl0; exact Hne). rewrite Hslice. reflexivity. }
  split; [ | reflexivity].
  intros g Hg. unfold getItem. cbn [set_items items localStorage].
  apply Hrawg1. congruence.
Qed.

(** A store whose one key holds a long text of a log: the size is above
    the ceiling, and [checkAndPruneIfNeeded] prunes the log. *)
Lemma checkAndPruneIfNeeded_long_log (st : Engine) (s : string) (l : list jsval) :
  steady st ->
  items (localStorage st) = {[FEEDING_HISTORY_KEY := s]} ->
  JSON_parse s = Some (JArr l) ->
  MAX_STORAGE_SIZE_BYTES < Z.of_nat (String.length s) * 2 ->
  Z.of_nat (length l) <= MAX_FEEDING_RECORDS ->
  MAX_STORAGE_SIZE_BYTES < fst (checkStorageSize st)
  /\ stored_log FeedingLog (items (localStorage st)) = l
  /\ stored_log FeedingLog (items (localStorage (checkAndPruneIfNeeded st))) = pruned l.
Proof.
  intros Hst Hitems Hparse Hlong Hcap.
  assert (Hne : string_is_empty s = false).
  { destruct s; [ | reflexivity]. simpl in Hlong. unfold MAX_STORAGE_SIZE_BYTES in Hlong. lia. }
  assert (Hstored : forall m, m !! FEEDING_HISTORY_KEY = Some s -> stored_log FeedingLog m = l).
  { intros m Hm. unfold stored_log. cbn [log_key]. rewrite Hm, Hne, Hparse. reflexivity. }
  assert (Hsize : MAX_STORAGE_SIZE_BYTES < fst (checkStorageSize st)).
  { rewrite (checkStorageSize_steady _ Hst). cbn [fst]. rewrite Hitems.
    rewrite delete_singleton_ne by discriminate. rewrite map_fold_singleton.
    unfold size_step. change (String.prefix STORAGE_KEY_PREFIX FEEDING_HISTORY_KEY) with true.
    change (string_is_empty FEEDING_HISTORY_KEY) with false. cbn [negb andb].
    rewrite Hne. cbn [negb]. lia. }
  split; [exact Hsize | ]. split.
  - apply Hstored. rewrite Hitems. apply lookup_singleton_eq.
  - rewrite (checkAndPruneIfNeeded_above_ceiling _ Hst Hsize).
    rewrite (checkStorageSize_steady _ Hst). cbn [snd].
    destruct (pruneOldData_steady _ (steady_set_items (delete testKey (items (localStorage st))) st Hst))
      as (m' & E & Hl & _).
    rewrite E. cbn [set_items items localStorage] in *. rewrite Hl.
    rewrite (Hstored (delete testKey (items (localStorage st)))).
    + rewrite Array_slice_neg_all; [reflexivity | | exact Hcap].
      unfold log_max, MAX_FEEDING_RECORDS. lia.
    + rewrite lookup_delete_ne by discriminate. rewrite Hitems. apply lookup_singleton_eq.
Qed.

(** ** C7: loads of a corrupted value *)

Lemma isLocalStorageAvailable_in_use (st : Engine) :
  store_in_use st ->
  isLocalStorageAvailable st
  = (true, set_items (delete testKey (items (localStorage st))) st).
Proof.
  intros [Hmode Hprobe]. unfold isLocalStorageAvailable, setItem.
  rewrite Hmode, Hprobe. unfold removeItem. simpl. rewrite delete_insert_eq. reflexivity.
Qed.

(** C7 as the code has it. While the module works on the browser store, a
    load that finds under its key a non-empty text that is not JSON, or is
    JSON of the wrong shape (an invalid pet for [loadGotchi], a value that
    is not an array for [getFeedingHistory] and [getExpressions]), deletes
    the key and returns [null], respectively the empty array. Loads are
    total functions: no error reaches the caller. (An empty text is read as
    an absent value and stays in the store.) *)
Theorem loads_self_heal (st : Engine) (s : string) :
  store_in_use st ->
  string_is_empty s = false ->
  (getItem GOTCHI_KEY st = Some s -> corrupt_gotchi s ->
   fst (loadGotchi st) = None /\ getItem GOTCHI_KEY (snd (loadGotchi st)) = None)
  /\ (forall limit, getItem FEEDING_HISTORY_KEY st = Some s -> corrupt_log s ->
      fst (getFeedingHistory limit st) = []
      /\ getItem FEEDING_HISTORY_KEY (snd (getFeedingHistory limit st)) = None)
  /\ (forall limit, getItem EXPRESSIONS_KEY st = Some s -> corrupt_log s ->
      fst (getExpressions limit st) = []
      /\ getItem EXPRESSIONS_KEY (snd (getExpressions limit st)) = None).
Proof.
  intros Huse Hne.
  assert (Hlog : forall k limit, getItem (log_key k) st = Some s -> corrupt_log s ->
            fst (getLog k limit st) = []
            /\ getItem (log_key k) (snd (getLog k limit st)) = None).
  { intros k limit Hget Hbad. unfold getLog.
    rewrite (isLocalStorageAvailable_in_use _ Huse). cbn [negb].
    unfold getItem in *. cbn [set_items items localStorage].
    rewrite lookup_delete_ne by apply testKey_not_log. rewrite Hget, Hne.
    destruct Hbad as [Hp | (v & Hp & Harr)]; rewrite Hp.
    - split; [reflexivity | ]. unfold removeItem. cbn [snd set_items items localStorage].
      apply lookup_delete_eq.
    - destruct v; try discriminate Harr;
        (split; [reflexivity | ]; unfold removeItem; cbn [snd set_items items localStorage];
         apply lookup_delete_eq). }
  split; [ | split; intros limit; [apply (Hlog FeedingLog) | apply (Hlog ExpressionLog)]].
  intros Hget Hbad. unfold loadGotchi.
  rewrite (isLocalStorageAvailable_in_use _ Huse). cbn [negb].
  unfold getItem in *. cbn [set_items items localStorage].
  rewrite lookup_delete_ne by apply testKey_not_gotchi. rewrite Hget, Hne.
  destruct Hbad as [Hp | (v & Hp & Hv)]; rewrite Hp.
  - split; [reflexivity | ]. unfold removeItem. cbn [snd set_items items localStorage].
    apply lookup_delete_eq.
  - rewrite Hv. cbn [negb]. split; [reflexivity | ].
    unfold removeItem. cbn [snd set_items items localStorage]. apply lookup_delete_eq.
Qed.

(** ** C9: the limit of a history read *)

(** X1. With a positive limit, [getFeedingHistory] and [getExpressions] return
    the last [limit] entries of the log, oldest first, and all of them when
    the log holds fewer. *)
Lemma getLog_positive_limit (k : Log) (limit : Z) (st : Engine) :
  memoryOnlyMode st = true \/ steady st ->
  0 < limit ->
  fst (getLog k limit st)
  = drop (length (current_log k st) - Z.to_nat limit) (current_log k st).
Proof.
  intros [Hmode | Hst] Hpos; unfold current_log.
  - rewrite (getLog_memory _ _ _ Hmode), Hmode. apply Array_slice_neg, Hpos.
  - destruct (getLog_steady k limit st Hst) as (m' & E & _). rewrite E, (proj1 Hst).
    apply Array_slice_neg, Hpos.
Qed.

(** With limit 0 they return the whole log. *)
Lemma getLog_zero_limit (k : Log) (st : Engine) :
  memoryOnlyMode st = true \/ steady st ->
  fst (getLog k 0 st) = current_log k st.
Proof.
  intros [Hmode | Hst]; unfold current_log.
  - rewrite (getLog_memory _ _ _ Hmode), Hmode. apply Array_slice_zero.
  - destruct (getLog_steady k 0 st Hst) as (m' & E & _). rewrite E, (proj1 Hst).
    apply Array_slice_zero.
Qed.

(** ** C1: importData *)

(** C1. For a text that is not JSON, or whose top-level shape is not that
    of an export, [importData] returns [false] and changes nothing: a
    [loadGotchi] after the call returns what it would have returned before
    it, and so do the reads of the two logs. *)
Theorem importData_rejects_invalid (jsonData : string) (st : Engine) :
  invalid_import jsonData ->
  fst (importData jsonData st) = false
  /\ snd (importData jsonData st) = st
  /\ loadGotchi (snd (importData jsonData st)) = loadGotchi st
  /\ (forall limit, getFeedingHistory limit (snd (importData jsonData st))
                    = getFeedingHistory limit st)
  /\ (forall limit, getExpressions limit (snd (importData jsonData st))
                    = getExpressions limit st).
Proof.
  intros Hbad.
  assert (E : importData jsonData st = (false, st)).
  { unfold importData. destruct Hbad as [Hp | (doc & Hp & Hv)]; rewrite Hp.
    - reflexivity.
    - rewrite Hv. reflexivity. }
  rewrite E. repeat split.
Qed.

(** ** What the inner functions leave alone *)

Lemma frame_removeItem (key : string) (st : Engine) :
  frame_of (removeItem key st) = frame_of st.
Proof. reflexivity. Qed.

Lemma frame_setItem (key v : string) (st st' : Engine) :
  setItem key v st = inr st' -> frame_of st' = frame_of st.
Proof.
  unfold setItem. destruct (rejects _ _ _ _); intros E; [discriminate E | ].
  injection E as <-. reflexivity.
Qed.

Lemma frame_isLocalStorageAvailable (st : Engine) :
  frame_of (snd (isLocalStorageAvailable st)) = frame_of st.
Proof.
  unfold isLocalStorageAvailable. destruct (memoryOnlyMode st); [reflexivity | ].
  destruct (setItem testKey "test" st) as [e | st1] eqn:E; [reflexivity | ].
  cbn [snd]. rewrite frame_removeItem. apply (frame_setItem _ _ _ _ E).
Qed.

Lemma frame_getLog (k : Log) (limit : Z) (st : Engine) :
  frame_of (snd (getLog k limit st)) = frame_of st.
Proof.
  unfold getLog. pose proof (frame_isLocalStorageAvailable st) as Hf.
  destruct (isLocalStorageAvailable st) as [a st1]. cbn [snd] in Hf. rewrite <- Hf.
  destruct a; cbn [negb]; [ | reflexivity].
  destruct (getItem (log_key k) st1) as [s | ]; [ | reflexivity].
  destruct (string_is_empty s); [reflexivity | ].
  destruct (JSON_parse s) as [[ | b | n | s' | l | fs] | ]; reflexivity.
Qed.

Lemma frame_loadGotchi (st : Engine) :
  frame_of (snd (loadGotchi st)) = frame_of st.
Proof.
  unfold loadGotchi. pose proof (frame_isLocalStorageAvailable st) as Hf.
  destruct (isLocalStorageAvailable st) as [a st1]. cbn [snd] in Hf. rewrite <- Hf.
  destruct a; cbn [negb]; [ | reflexivity].
  destruct (getItem GOTCHI_KEY st1) as [s | ]; [ | reflexivity].
  destruct (string_is_empty s); [reflexivity | ].
  destruct (JSON_parse s) as [v | ]; [ | reflexivity].
  destruct (isValidGotchiState v); reflexivity.
Qed.

Lemma frame_checkStorageSize (st : Engine) :
  frame_of (snd (checkStorageSize st)) = frame_of st.
Proof.
  unfold checkStorageSize. pose proof (frame_isLocalStorageAvailable st) as Hf.
  destruct (isLocalStorageAvailable st) as [a st1]. cbn [snd] in Hf. rewrite <- Hf.
  destruct a; reflexivity.
Qed.

Lemma frame_prune_stored_log (k : Log) (st : Engine) :
  match prune_stored_log k st with
  | inl st' => frame_of st' = frame_of st
  | inr st' => frame_of st' = frame_of st
  end.
Proof.
  unfold prune_stored_log. pose proof (frame_getLog k (log_max k) st) as Hf.
  destruct (getLog k (log_max k) st) as [entries st1]. cbn [snd] in Hf.
  destruct (setItem _ _ st1) as [e | st2] eqn:E; [exact Hf | ].
  rewrite (frame_setItem _ _ _ _ E). exact Hf.
Qed.

Lemma frame_prune_memory_log (k : Log) (st : Engine) :
  frame_of (prune_memory_log k st) = frame_of st.
Proof. destruct k; reflexivity. Qed.

Lemma frame_pruneOldData (st : Engine) : frame_of (pruneOldData st) = frame_of st.
Proof.
  unfold pruneOldData. pose proof (frame_isLocalStorageAvailable st) as Hf.
  destruct (isLocalStorageAvailable st) as [a st1]. cbn [snd] in Hf. rewrite <- Hf.
  destruct a; cbn [negb].
  - pose proof (frame_prune_stored_log FeedingLog st1) as H1.
    destruct (prune_stored_log FeedingLog st1) as [st2 | st2]; [exact H1 | ].
    rewrite <- H1.
    pose proof (frame_prune_stored_log ExpressionLog st2) as H2.
    destruct (prune_stored_log ExpressionLog st2) as [st3 | st3]; exact H2.
  - rewrite !frame_prune_memory_log. reflexivity.
Qed.

Lemma frame_compress_stored_log (k : Log) (st : Engine) :
  match compress_stored_log k st with
  | inl st' => frame_of st' = frame_of st
  | inr st' => frame_of st' = frame_of st
  end.
Proof.
  unfold compress_stored_log. pose proof (frame_getLog k (log_max k) st) as Hf.
  destruct (getLog k (log_max k) st) as [entries st1]. cbn [snd] in Hf.
  destruct (0 <? Z.of_nat (length entries)); [ | exact Hf].
  destruct (setItem _ _ st1) as [e | st2] eqn:E; [exact Hf | ].
  rewrite (frame_setItem _ _ _ _ E). exact Hf.
Qed.

Lemma frame_compressStoredData (st : Engine) :
  frame_of (compressStoredData st) = frame_of st.
Proof.
  unfold compressStoredData. pose proof (frame_isLocalStorageAvailable st) as Hf.
  destruct (isLocalStorageAvailable st) as [a st1]. cbn [snd] in Hf. rewrite <- Hf.
  destruct a; cbn [negb]; [ | reflexivity].
  pose proof (frame_compress_stored_log FeedingLog st1) as H1.
  destruct (compress_stored_log FeedingLog st1) as [st2 | st2]; [exact H1 | ].
  rewrite <- H1.
  pose proof (frame_compress_stored_log ExpressionLog st2) as H2.
  destruct (compress_stored_log ExpressionLog st2) as [st3 | st3]; [exact H2 | ].
  rewrite <- H2.
  pose proof (frame_loadGotchi st3) as H3.
  destruct (loadGotchi st3) as [g st4]. cbn [snd] in H3. rewrite <- H3.
  destruct g as [g | ]; [ | reflexivity].
  destruct (truthy g); [ | reflexivity].
  destruct (setItem GOTCHI_KEY (JSON_stringify g) st4) as [e | st5] eqn:E; [reflexivity | ].
  apply (frame_setItem _ _ _ _ E).
Qed.

Lemma frame_checkAndPruneIfNeeded (st : Engine) :
  frame_of (checkAndPruneIfNeeded st) = frame_of st.
Proof.
  unfold checkAndPruneIfNeeded. pose proof (frame_isLocalStorageAvailable st) as Hf.
  destruct (isLocalStorageAvailable st) as [a st1]. cbn [snd] in Hf. rewrite <- Hf.
  destruct a; cbn [negb]; [ | reflexivity].
  pose proof (frame_checkStorageSize st1) as H1.
  destruct (checkStorageSize st1) as [size st2]. cbn [snd] in H1. rewrite <- H1.
  cbv zeta.
  assert (H2 : frame_of (if exceeds_threshold size && (size <=? MAX_STORAGE_SIZE_BYTES)
                         then compressStoredData st2 else st2) = frame_of st2).
  { destruct (exceeds_threshold size && (size <=? MAX_STORAGE_SIZE_BYTES));
      [apply frame_compressStoredData | reflexivity]. }
  rewrite <- H2.
  pose proof (frame_checkStorageSize
                (if exceeds_threshold size && (size <=? MAX_STORAGE_SIZE_BYTES)
                 then compressStoredData st2 else st2)) as H3.
  destruct (checkStorageSize _) as [size' st4]. cbn [snd] in H3. rewrite <- H3.
  destruct (MAX_STORAGE_SIZE_BYTES <? size'); [apply frame_pruneOldData | reflexivity].
Qed.

Lemma frame_rejects (st st' : Engine) :
  frame_of st' = frame_of st -> rejects (localStorage st') = rejects (localStorage st).
Proof. unfold frame_of. intros E. congruence. Qed.

Lemma frame_log_pending (k : Log) (st st' : Engine) :
  frame_of st' = frame_of st -> log_pending k st' = log_pending k st.
Proof. unfold frame_of. intros E. destruct k; simpl; congruence. Qed.

(** ** The retry after a quota error *)

(** X2. The debounced write of the pet, on a store that takes the probe and
    rejects the pet: the first write throws, on a quota error the store is
    pruned and the write tried again, and when that throws too the callback
    switches to memory-only mode with the pending state on the mirror, so
    that [loadGotchi] returns it. *)
Theorem gotchiSaveTimer_callback_fallback (st : Engine) (state : jsval) :
  pendingGotchiState st = Some state ->
  truthy state = true ->
  (forall m, rejects (localStorage st) m GOTCHI_KEY (JSON_stringify state) <> None) ->
  isMemoryOnlyMode (gotchiSaveTimer_callback st) = true
  /\ fst (loadGotchi (gotchiSaveTimer_callback st)) = Some state
  /\ pendingGotchiState (gotchiSaveTimer_callback st) = None.
Proof.
  intros Hp Ht Hrej. unfold gotchiSaveTimer_callback. rewrite Hp, Ht. cbn [negb].
  assert (Hset : forall st', rejects (localStorage st') = rejects (localStorage st) ->
            exists e, setItem GOTCHI_KEY (JSON_stringify state) st' = inl e).
  { intros st' Hr. unfold setItem. rewrite Hr.
    destruct (rejects (localStorage st) (items (localStorage st')) GOTCHI_KEY
                (JSON_stringify state)) as [e | ] eqn:E.
    - exists e. reflexivity.
    - exfalso. exact (Hrej _ E). }
  destruct (Hset st eq_refl) as [e ->].
  destruct (is_quota_error e).
  - destruct (Hset (pruneOldData st) (frame_rejects _ _ (frame_pruneOldData st))) as [e' ->].
    split; [reflexivity | ]. split; [ | reflexivity].
    rewrite loadGotchi_memory by reflexivity. reflexivity.
  - split; [reflexivity | ]. split; [ | reflexivity].
    rewrite loadGotchi_memory by reflexivity. reflexivity.
Qed.

(** X3. A flush of a log on a store that takes the probe and rejects the log:
    after the write, and on a quota error the retry that follows pruning,
    have thrown, the module is in memory-only mode, the pending records are
    the last entries of the mirror's log, in order, and the buffer is
    empty. *)
Theorem flushLog_fallback (k : Log) (st : Engine) :
  store_in_use st ->
  log_pending k st <> [] ->
  (forall m v, rejects (localStorage st) m (log_key k) v <> None) ->
  isMemoryOnlyMode (flushLog k st) = true
  /\ log_pending k st `suffix_of` log_memory k (flushLog k st)
  /\ log_pending k (flushLog k st) = [].
Proof.
  intros Huse Hne Hrej. unfold flushLog.
  assert (Hp0 : log_pending k (set_log_timer k None st) = log_pending k st)
    by (destruct k; reflexivity).
  rewrite Hp0.
  destruct (Z.eqb_spec (Z.of_nat (length (log_pending k st))) 0) as [Hzero | _].
  { exfalso. apply Hne. destruct (log_pending k st); [reflexivity | simpl in Hzero; lia]. }
  assert (Huse0 : store_in_use (set_log_timer k None st))
    by (destruct Huse as [Hm Hr]; split; destruct k; assumption).
  rewrite (isLocalStorageAvailable_in_use _ Huse0). cbn [negb].
  set (st1 := set_items _ (set_log_timer k None st)).
  assert (Hf1 : rejects (localStorage st1) = rejects (localStorage st)
                /\ log_pending k st1 = log_pending k st)
    by (subst st1; destruct k; split; reflexivity).
  assert (Hwrite : forall st', rejects (localStorage st') = rejects (localStorage st) ->
            log_pending k st' = log_pending k st ->
            exists e st'', write_log k st' = inl (e, st'')
                           /\ rejects (localStorage st'') = rejects (localStorage st)
                           /\ log_pending k st'' = log_pending k st).
  { intros st' Hr Hp. unfold write_log.
    pose proof (frame_getLog k (log_max k) st') as Hfr.
    destruct (getLog k (log_max k) st') as [history st2]. cbn [snd] in Hfr.
    unfold setItem. rewrite (frame_rejects _ _ Hfr), Hr.
    destruct (rejects (localStorage st) _ (log_key k) _) as [e | ] eqn:E.
    - exists e, st2. split; [reflexivity | ]. split.
      + rewrite (frame_rejects _ _ Hfr). exact Hr.
      + rewrite (frame_log_pending k _ _ Hfr). exact Hp.
    - exfalso. exact (Hrej _ _ E). }
  assert (Hfall : forall st', log_pending k st' = log_pending k st ->
            isMemoryOnlyMode (fallback_log k st') = true
            /\ log_pending k st `suffix_of` log_memory k (fallback_log k st')
            /\ log_pending k (fallback_log k st') = []).
  { intros st' Hp. unfold fallback_log, isMemoryOnlyMode.
    destruct k; cbn in *; rewrite Hp; (split; [reflexivity | ]);
      (split; [apply suffix_app_r; reflexivity | reflexivity]). }
  destruct (Hwrite st1 (proj1 Hf1) (proj2 Hf1)) as (e & st2 & -> & Hr2 & Hp2).
  destruct (is_quota_error e).
  - destruct (Hwrite (pruneOldData st2)) as (e' & st3 & -> & Hr3 & Hp3).
    + rewrite (frame_rejects _ _ (frame_pruneOldData st2)). exact Hr2.
    + rewrite (frame_log_pending k _ _ (frame_pruneOldData st2)). exact Hp2.
    + apply Hfall, Hp3.
  - apply Hfall, Hp2.
Qed.

(** ** The caps under every call *)

Lemma store_ok_saveGotchi r (state : jsval) (st : Engine) :
  store_ok r st -> store_ok r (saveGotchi state st).
Proof.
  intros Hok. unfold saveGotchi.
  assert (Hok0 : store_ok r (set_pendingGotchiState (Some state) st))
    by (revert Hok; apply store_ok_congr; reflexivity).
  pose proof (store_ok_isLocalStorageAvailable r _ Hok0) as Hok1.
  destruct (isLocalStorageAvailable _) as [a st1]. simpl in Hok1.
  destruct a; cbn [negb]; revert Hok1; apply store_ok_congr; reflexivity.
Qed.

Lemma store_ok_gotchiSaveTimer_callback r (st : Engine) :
  store_ok r st -> store_ok r (gotchiSaveTimer_callback st).
Proof.
  intros Hok. unfold gotchiSaveTimer_callback.
  destruct (pendingGotchiState st) as [pending | ]; [ | exact Hok].
  destruct (truthy pending); cbn [negb]; [ | exact Hok].
  assert (Hset : forall st0 st', store_ok r st0 ->
            setItem GOTCHI_KEY (JSON_stringify pending) st0 = inr st' -> store_ok r st').
  { intros st0 st' H0 E. eapply store_ok_setItem_other; [ | exact H0 | exact E].
    intros k. apply gotchi_not_log. }
  destruct (setItem GOTCHI_KEY (JSON_stringify pending) st) as [e | st1] eqn:E.
  - destruct (is_quota_error e).
    + pose proof (store_ok_pruneOldData r st Hok) as Hok2.
      destruct (setItem GOTCHI_KEY (JSON_stringify pending) (pruneOldData st))
        as [e' | st3] eqn:E'.
      * revert Hok2. apply store_ok_congr. reflexivity.
      * pose proof (Hset _ _ Hok2 E') as Hok3. revert Hok3. apply store_ok_congr. reflexivity.
    + revert Hok. apply store_ok_congr. reflexivity.
  - pose proof (store_ok_checkAndPruneIfNeeded r st1 (Hset _ _ Hok E)) as Hok2.
    revert Hok2. apply store_ok_congr. reflexivity.
Qed.

Lemma store_ok_call r (st : Engine) (c : Call) :
  store_ok r st -> store_ok r (call st c).
Proof.
  intros Hok. destruct c; cbn [call].
  - apply store_ok_saveGotchi, Hok.
  - apply store_ok_saveLog, Hok.
  - apply store_ok_saveLog, Hok.
  - apply store_ok_flushAll, Hok.
  - apply store_ok_pruneOldData, Hok.
  - apply store_ok_loadGotchi, Hok.
  - apply store_ok_getLog, Hok.
  - apply store_ok_getLog, Hok.
  - apply store_ok_checkStorageSize, Hok.
  - unfold fire_gotchiSaveTimer. destruct (gotchiSaveTimer st) as [[ | ] | ]; try exact Hok.
    apply store_ok_gotchiSaveTimer_callback. revert Hok. apply store_ok_congr. reflexivity.
  - unfold fire_logTimer. destruct (log_timer FeedingLog st) as [[ | ] | ]; try exact Hok.
    apply store_ok_flushLog, store_ok_set_log_timer, Hok.
  - unfold fire_logTimer. destruct (log_timer ExpressionLog st) as [[ | ] | ]; try exact Hok.
    apply store_ok_flushLog, store_ok_set_log_timer, Hok.
Qed.

(** X4. Whatever a client calls and whichever timeouts fire in between, on
    whatever store, the persisted feeding log never holds more than 1000
    records and the persisted expression log never more than 500. *)
Theorem calls_keep_caps (st : Engine) (cs : list Call) :
  capped (items (localStorage st)) ->
  Z.of_nat (length (stored_log FeedingLog (items (localStorage (calls cs st))))) <= 1000
  /\ Z.of_nat (length (stored_log ExpressionLog (items (localStorage (calls cs st))))) <= 500.
Proof.
  intros Hc.
  assert (Hok : store_ok (rejects (localStorage st)) (calls cs st)).
  { assert (Hok0 : store_ok (rejects (localStorage st)) st) by (split; [reflexivity | exact Hc]).
    revert Hok0. generalize (rejects (localStorage st)). revert st Hc.
    induction cs as [ | c cs IH]; intros st Hc r Hok0; [exact Hok0 | ].
    cbn [calls fold_left]. apply (IH (call st c)).
    - apply (store_ok_call r st c Hok0).
    - apply store_ok_call, Hok0. }
  destruct Hok as [_ Hcap]. split; [apply (Hcap FeedingLog) | apply (Hcap ExpressionLog)].
Qed.

(** ** C2 and C8: a store that takes the trial write and rejects the pet *)

Lemma pet_rejected_congr (st st' : Engine) :
  memoryOnlyMode st' = memoryOnlyMode st ->
  rejects (localStorage st') = rejects (localStorage st) ->
  pet_rejected st -> pet_rejected st'.
Proof. intros Em Er (Hm & Hp & Hg). unfold pet_rejected. rewrite Em, Er. auto. Qed.

Lemma pet_rejected_in_use (st : Engine) : pet_rejected st -> store_in_use st.
Proof. intros (Hm & Hp & _). split; [exact Hm | apply Hp]. Qed.

Lemma loadGotchi_in_use (st : Engine) :
  store_in_use st ->
  fst (loadGotchi st) = stored_gotchi (items (localStorage st))
  /\ memoryOnlyMode (snd (loadGotchi st)) = false.
Proof.
  intros Huse. unfold loadGotchi. rewrite (isLocalStorageAvailable_in_use _ Huse). cbn [negb].
  destruct Huse as [Hm _].
  unfold getItem, stored_gotchi. cbn [set_items items localStorage].
  rewrite lookup_delete_ne by apply testKey_not_gotchi.
  destruct (items (localStorage st) !! GOTCHI_KEY) as [s | ]; [ | split; [reflexivity | exact Hm]].
  destruct (string_is_empty s); [split; [reflexivity | exact Hm] | ].
  destruct (JSON_parse s) as [v | ]; [ | split; [reflexivity | exact Hm]].
  destruct (isValidGotchiState v); split; try reflexivity; exact Hm.
Qed.

(** What [flushAll] leaves after [saveGotchi] when the write of the pet is
    rejected: the pet on the mirror, the flag unset, the browser store as
    the loads saw it before. *)
Lemma flushAll_pet_rejected (st : Engine) (state : jsval) :
  pet_rejected st ->
  truthy state = true ->
  (forall k, log_pending k st = []) ->
  pet_rejected (flushAll (saveGotchi state st))
  /\ same_views (items (localStorage st))
       (items (localStorage (flushAll (saveGotchi state st))))
  /\ mem_gotchi (memoryStorage (flushAll (saveGotchi state st))) = Some state.
Proof.
  intros Hrej Ht Hlogs.
  unfold saveGotchi. cbv zeta.
  rewrite isLocalStorageAvailable_in_use
    by (apply pet_rejected_in_use; revert Hrej; apply pet_rejected_congr; reflexivity).
  cbn [negb].
  set (st1 := set_gotchiSaveTimer (Some true) _).
  assert (Hrej1 : pet_rejected st1) by (revert Hrej; apply pet_rejected_congr; reflexivity).
  unfold flushAll, flushExpressions, flushFeedingRecords.
  assert (Eflush : flushGotchiState st1
                   = set_pendingGotchiState None
                       (set_mem_gotchi (Some state)
                          (set_items (delete testKey (items (localStorage st1)))
                             (set_gotchiSaveTimer None st1)))).
  { unfold flushGotchiState. cbv zeta.
    change (pendingGotchiState (set_gotchiSaveTimer None st1)) with (Some state).
    cbv beta iota. rewrite Ht. cbn [negb].
    rewrite isLocalStorageAvailable_in_use
      by (apply pet_rejected_in_use; revert Hrej1; apply pet_rejected_congr; reflexivity).
    cbn [negb]. unfold setItem.
    destruct Hrej1 as (_ & _ & Hg).
    destruct (rejects _ _ GOTCHI_KEY _) as [e | ] eqn:E; [reflexivity | ].
    exfalso. exact (Hg _ _ E). }
  rewrite Eflush. set (st2 := set_pendingGotchiState None _).
  assert (Hp2 : forall k, log_pending k st2 = []) by (intros k; rewrite <- (Hlogs k); destruct k; reflexivity).
  rewrite (flushLog_nop FeedingLog st2 (Hp2 FeedingLog)).
  rewrite (flushLog_nop ExpressionLog) by apply (Hp2 ExpressionLog).
  split; [revert Hrej; apply pet_rejected_congr; reflexivity | ].
  split; [ | reflexivity].
  change (items (localStorage (set_log_timer ExpressionLog None (set_log_timer FeedingLog None st2))))
    with (delete testKey (delete testKey (items (localStorage st)))).
  rewrite delete_delete_eq. apply same_views_probe.
Qed.

(** C2 does not hold on a store that has no room for the pet. For every
    [GotchiState] value [s], on a browser store that takes the trial write
    and rejects the write of the pet, with no record pending:
    [flushGotchiState] catches the error, puts the pet on the mirror and
    leaves [memoryOnlyMode] unset, so that [loadGotchi] after
    [saveGotchi (s)] and [flushAll ()] reads the browser store and returns
    what it held before, [null] on a fresh store, while [s] sits on the
    mirror. *)
Theorem flushAll_rejected_pet_is_not_loaded (st : Engine) (s : GotchiState) :
  pet_rejected st ->
  (forall k, log_pending k st = []) ->
  fst (loadGotchi (flushAll (saveGotchi (GotchiState_js s) st)))
  = stored_gotchi (items (localStorage st))
  /\ mem_gotchi (memoryStorage (flushAll (saveGotchi (GotchiState_js s) st)))
     = Some (GotchiState_js s)
  /\ isMemoryOnlyMode (flushAll (saveGotchi (GotchiState_js s) st)) = false.
Proof.
  intros Hrej Hlogs.
  destruct (flushAll_pet_rejected st (GotchiState_js s) Hrej eq_refl Hlogs)
    as (Hrej' & [Hg _] & Hmem).
  destruct (loadGotchi_in_use _ (pet_rejected_in_use _ Hrej')) as [Hload _].
  split; [rewrite Hload; exact Hg | ]. split; [exact Hmem | apply Hrej'].
Qed.

(** C8 does not hold when the write that fails is the one [flushAll] makes.
    On the same store, after [saveGotchi (first)] and [flushAll ()] have
    met the rejected write, the module is not in memory-only mode, and a
    subsequent [saveGotchi (second)] followed by [loadGotchi ()] returns
    what the browser store held at the start, not [second]; the flag is
    still unset afterwards. *)
Theorem rejected_flush_keeps_store_mode (st : Engine) (first second : GotchiState) :
  pet_rejected st ->
  (forall k, log_pending k st = []) ->
  let failed := flushAll (saveGotchi (GotchiState_js first) st) in
  isMemoryOnlyMode failed = false
  /\ fst (loadGotchi (saveGotchi (GotchiState_js second) failed))
     = stored_gotchi (items (localStorage st))
  /\ isMemoryOnlyMode (snd (loadGotchi (saveGotchi (GotchiState_js second) failed))) = false.
Proof.
  intros Hrej Hlogs. cbv zeta.
  destruct (flushAll_pet_rejected st (GotchiState_js first) Hrej eq_refl Hlogs)
    as (Hrej' & [Hg _] & _).
  set (failed := flushAll (saveGotchi (GotchiState_js first) st)) in *.
  split; [apply Hrej' | ].
  assert (Esave : saveGotchi (GotchiState_js second) failed
                  = set_gotchiSaveTimer (Some true)
                      (set_gotchiSaveTimer (clearTimeout (gotchiSaveTimer failed))
                         (set_items (delete testKey (items (localStorage failed)))
                            (set_pendingGotchiState (Some (GotchiState_js second)) failed)))).
  { unfold saveGotchi. cbv zeta.
    rewrite isLocalStorageAvailable_in_use
      by (apply pet_rejected_in_use; revert Hrej'; apply pet_rejected_congr; reflexivity).
    reflexivity. }
  rewrite Esave. set (st3 := set_gotchiSaveTimer (Some true) _).
  assert (Hrej3 : pet_rejected st3) by (revert Hrej'; apply pet_rejected_congr; reflexivity).
  destruct (loadGotchi_in_use _ (pet_rejected_in_use _ Hrej3)) as [Hload Hmode].
  split; [ | exact Hmode]. rewrite Hload.
  change (items (localStorage st3)) with (delete testKey (items (localStorage failed))).
  rewrite (proj1 (same_views_probe (items (localStorage failed)))). exact Hg.
Qed.

(** ** Further properties of the storage service *)

(** ** Flushes *)

Lemma buffers_of_frame (st st' : Engine) :
  frame_of st' = frame_of st -> buffers_of st' = buffers_of st.
Proof. unfold frame_of, buffers_of. intros E. congruence. Qed.

Lemma pending_nil_of_length (k : Log) (st : Engine) :
  Z.of_nat (length (log_pending k st)) = 0 -> log_pending k st = [].
Proof. destruct (log_pending k st); [reflexivity | simpl; lia]. Qed.

Lemma frame_write_log (k : Log) (st : Engine) :
  match write_log k st with
  | inl (_, st') => frame_of st' = frame_of st
  | inr st' => frame_of st' = frame_of st
  end.
Proof.
  unfold write_log. pose proof (frame_getLog k (log_max k) st) as Hf.
  destruct (getLog k (log_max k) st) as [history st1]. cbn [snd] in Hf.
  destruct (setItem _ _ st1) as [e | st2] eqn:E; [exact Hf | ].
  rewrite (frame_setItem _ _ _ _ E). exact Hf.
Qed.

Lemma buffers_push_memory_capped (k : Log) (records : list jsval) (st : Engine) :
  buffers_of (push_memory_capped k records st) = buffers_of st.
Proof.
  unfold push_memory_capped. cbv zeta.
  destruct (log_max k <? _); destruct k; reflexivity.
Qed.

Lemma buffers_set_log_pending (k : Log) (l : list jsval) (st st' : Engine) :
  buffers_of st' = buffers_of st ->
  buffers_of (set_log_pending k l st') = buffers_of (set_log_pending k l st).
Proof. unfold buffers_of. intros E. destruct k; simpl; congruence. Qed.

(** A flush of a log changes, of the timers and buffers, its own only. *)
Lemma buffers_flushLog (k : Log) (st : Engine) :
  buffers_of (flushLog k st) = buffers_of (set_log_pending k [] (set_log_timer k None st)).
Proof.
  unfold flushLog. set (st0 := set_log_timer k None st).
  destruct (Z.eqb_spec (Z.of_nat (length (log_pending k st0))) 0) as [Hz | _].
  { apply pending_nil_of_length in Hz. unfold buffers_of.
    destruct k; simpl in *; rewrite Hz; reflexivity. }
  pose proof (frame_isLocalStorageAvailable st0) as Hf1.
  destruct (isLocalStorageAvailable st0) as [a st1]. cbn [snd] in Hf1.
  apply buffers_of_frame in Hf1.
  assert (Hfall : forall st', buffers_of st' = buffers_of st0 ->
            buffers_of (fallback_log k st') = buffers_of (set_log_pending k [] st0)).
  { intros st' E. unfold fallback_log. cbv zeta. apply buffers_set_log_pending.
    rewrite <- E. destruct k; reflexivity. }
  destruct a; cbn [negb].
  - pose proof (frame_write_log k st1) as Hf2.
    destruct (write_log k st1) as [[e st2] | st2]; apply buffers_of_frame in Hf2.
    + destruct (is_quota_error e).
      * pose proof (buffers_of_frame _ _ (frame_pruneOldData st2)) as Hf3.
        pose proof (frame_write_log k (pruneOldData st2)) as Hf4.
        destruct (write_log k (pruneOldData st2)) as [[e' st4] | st4];
          apply buffers_of_frame in Hf4.
        -- apply Hfall. congruence.
        -- apply buffers_set_log_pending. congruence.
      * apply Hfall. congruence.
    + apply buffers_set_log_pending.
      rewrite (buffers_of_frame _ _ (frame_checkAndPruneIfNeeded st2)). congruence.
  - apply buffers_set_log_pending. rewrite buffers_push_memory_capped. exact Hf1.
Qed.

(** A flush of the pet clears its timer, and its buffer when a pet is
    pending. *)
Lemma buffers_flushGotchiState (st : Engine) :
  buffers_of (flushGotchiState st)
  = buffers_of
      (set_pendingGotchiState
         (if truthy_opt (pendingGotchiState st) then None else pendingGotchiState st)
         (set_gotchiSaveTimer None st)).
Proof.
  unfold flushGotchiState. cbv zeta. cbn [pendingGotchiState set_gotchiSaveTimer].
  destruct (pendingGotchiState st) as [pending | ] eqn:Hp; cbn [truthy_opt].
  2:{ unfold buffers_of. simpl. rewrite Hp. reflexivity. }
  destruct (truthy pending); cbn [negb].
  2:{ unfold buffers_of. simpl. rewrite Hp. reflexivity. }
  pose proof (frame_isLocalStorageAvailable (set_gotchiSaveTimer None st)) as Hf1.
  destruct (isLocalStorageAvailable _) as [a st1]. cbn [snd] in Hf1.
  apply buffers_of_frame in Hf1.
  assert (Hset : forall st' st'', buffers_of st' = buffers_of st'' ->
            buffers_of (set_pendingGotchiState None st')
            = buffers_of (set_pendingGotchiState None st'')).
  { intros st' st'' E. unfold buffers_of in *. simpl. congruence. }
  destruct a; cbn [negb].
  - destruct (setItem GOTCHI_KEY (JSON_stringify pending) st1) as [e | st2] eqn:E.
    + apply Hset. rewrite <- Hf1. reflexivity.
    + apply Hset. rewrite <- Hf1. apply buffers_of_frame, (frame_setItem _ _ _ _ E).
  - apply Hset. rewrite <- Hf1. reflexivity.
Qed.

Lemma settled_buffers (st : Engine) :
  settled st <->
  exists p, truthy_opt p = false /\ buffers_of st = (None, None, None, p, [], []).
Proof.
  unfold settled, buffers_of. split.
  - intros (Hp & Hg & Hk). exists (pendingGotchiState st). split; [exact Hp | ].
    destruct (Hk FeedingLog) as [Hf Hft]. destruct (Hk ExpressionLog) as [He Het].
    simpl in Hf, Hft, He, Het. rewrite Hg, Hf, Hft, He, Het. reflexivity.
  - intros (p & Hp & E). injection E as Hg Hft Het Hpg Hf He.
    split; [congruence | ]. split; [exact Hg | ].
    intros [ | ]; simpl; split; assumption.
Qed.

Lemma flushAll_buffers (st : Engine) :
  buffers_of (flushAll st)
  = (None, None, None,
     (if truthy_opt (pendingGotchiState st) then None else pendingGotchiState st), [], []).
Proof.
  unfold flushAll, flushExpressions, flushFeedingRecords.
  rewrite buffers_flushLog.
  pose proof (buffers_flushLog FeedingLog (flushGotchiState st)) as E1.
  pose proof (buffers_flushGotchiState st) as E0.
  unfold buffers_of in E0, E1 |- *.
  cbn [set_log_pending set_log_timer set_pendingFeedingRecords set_pendingExpressions
       set_feedingSaveTimer set_expressionSaveTimer set_pendingGotchiState
       set_gotchiSaveTimer gotchiSaveTimer feedingSaveTimer expressionSaveTimer
       pendingGotchiState pendingFeedingRecords pendingExpressions] in E0, E1 |- *.
  injection E1 as E11 E12 E13 E14 E15 E16. injection E0 as E01 E02 E03 E04 E05 E06.
  rewrite E11, E12, E14, E15, E01, E04. reflexivity.
Qed.

Lemma settled_flushAll_id (st : Engine) : settled st -> flushAll st = st.
Proof.
  intros (Hp & Hg & Hk).
  destruct (Hk FeedingLog) as [Hf Hft]. destruct (Hk ExpressionLog) as [He Het].
  assert (E0 : flushGotchiState st = st).
  { unfold flushGotchiState. cbv zeta. cbn [pendingGotchiState set_gotchiSaveTimer].
    assert (Eid : set_gotchiSaveTimer None st = st).
    { destruct st. simpl in Hg. subst. reflexivity. }
    rewrite Eid.
    destruct (pendingGotchiState st) as [p | ]; [ | reflexivity].
    cbn [truthy_opt] in Hp. rewrite Hp. reflexivity. }
  unfold flushAll, flushExpressions, flushFeedingRecords. rewrite E0.
  rewrite (flushLog_nop FeedingLog st Hf).
  assert (E1 : set_log_timer FeedingLog None st = st).
  { destruct st. simpl in Hft. subst. reflexivity. }
  rewrite E1. rewrite (flushLog_nop ExpressionLog st He).
  destruct st. simpl in Het. subst. reflexivity.
Qed.

(** X7. [flushAll] settles the module, whatever the store does: afterwards no
    pet and no record is pending, no timer is set, and a second [flushAll]
    changes nothing. *)
Theorem flushAll_settles (st : Engine) :
  settled (flushAll st) /\ flushAll (flushAll st) = flushAll st.
Proof.
  assert (Hs : settled (flushAll st)).
  { apply settled_buffers. eexists. split; [ | apply flushAll_buffers].
    destruct (pendingGotchiState st) as [p | ]; cbn [truthy_opt]; [ | reflexivity].
    destruct (truthy p) eqn:Ht; [reflexivity | exact Ht]. }
  split; [exact Hs | apply settled_flushAll_id, Hs].
Qed.

(** ** Memory-only mode *)

Lemma memory_saveGotchi (state : jsval) (st : Engine) :
  memoryOnlyMode st = true ->
  memoryOnlyMode (saveGotchi state st) = true
  /\ localStorage (saveGotchi state st) = localStorage st
  /\ gotchiSaveTimer (saveGotchi state st) = gotchiSaveTimer st.
Proof.
  intros Hm. unfold saveGotchi. cbv zeta.
  rewrite isLocalStorageAvailable_memory by exact Hm. cbn [negb].
  repeat split; assumption.
Qed.

Lemma memory_saveLog (k : Log) (record : jsval) (st : Engine) :
  memoryOnlyMode st = true ->
  memoryOnlyMode (saveLog k record st) = true
  /\ localStorage (saveLog k record st) = localStorage st
  /\ gotchiSaveTimer (saveLog k record st) = gotchiSaveTimer st.
Proof.
  intros Hm. unfold saveLog. cbv zeta.
  rewrite isLocalStorageAvailable_memory by (destruct k; exact Hm). cbn [negb].
  set (st1 := set_log_pending k _ st).
  destruct (push_memory_capped_frame k [record] st1) as (E1 & _ & E2).
  pose proof (buffers_push_memory_capped k [record] st1) as E3.
  unfold buffers_of in E3. injection E3 as E3 _ _ _ _ _.
  subst st1. destruct k; cbn in *; repeat split; congruence.
Qed.

Lemma memory_flushGotchiState (st : Engine) :
  memoryOnlyMode st = true ->
  memoryOnlyMode (flushGotchiState st) = true
  /\ localStorage (flushGotchiState st) = localStorage st
  /\ gotchiSaveTimer (flushGotchiState st) = None.
Proof.
  intros Hm. unfold flushGotchiState. cbv zeta.
  cbn [pendingGotchiState set_gotchiSaveTimer].
  destruct (pendingGotchiState st) as [p | ]; [ | repeat split; assumption].
  destruct (truthy p); cbn [negb]; [ | repeat split; assumption].
  rewrite isLocalStorageAvailable_memory by exact Hm. cbn [negb].
  repeat split; assumption.
Qed.

Lemma memory_flushLog (k : Log) (st : Engine) :
  memoryOnlyMode st = true ->
  memoryOnlyMode (flushLog k st) = true
  /\ localStorage (flushLog k st) = localStorage st
  /\ gotchiSaveTimer (flushLog k st) = gotchiSaveTimer st.
Proof.
  intros Hm. destruct (flushLog_memory k st Hm) as (E1 & _ & E2).
  split; [exact E1 | ]. split; [exact E2 | ].
  pose proof (buffers_flushLog k st) as E3. unfold buffers_of in E3.
  injection E3 as E3 _ _ _ _ _. rewrite E3. destruct k; reflexivity.
Qed.

Lemma memory_pruneOldData (st : Engine) :
  memoryOnlyMode st = true ->
  memoryOnlyMode (pruneOldData st) = true
  /\ localStorage (pruneOldData st) = localStorage st
  /\ gotchiSaveTimer (pruneOldData st) = gotchiSaveTimer st.
Proof.
  intros Hm. unfold pruneOldData.
  rewrite isLocalStorageAvailable_memory by exact Hm. cbn [negb].
  repeat split; assumption.
Qed.

Lemma memory_checkAndPruneIfNeeded (st : Engine) :
  memoryOnlyMode st = true -> checkAndPruneIfNeeded st = st.
Proof.
  intros Hm. unfold checkAndPruneIfNeeded.
  rewrite isLocalStorageAvailable_memory by exact Hm. reflexivity.
Qed.

Lemma memory_gotchiSaveTimer_callback (st : Engine) :
  memoryOnlyMode st = true -> memoryOnlyMode (gotchiSaveTimer_callback st) = true.
Proof.
  intros Hm. unfold gotchiSaveTimer_callback.
  destruct (pendingGotchiState st) as [p | ]; [ | exact Hm].
  destruct (truthy p); cbn [negb]; [ | exact Hm].
  assert (Hset : forall st0 st', memoryOnlyMode st0 = true ->
            setItem GOTCHI_KEY (JSON_stringify p) st0 = inr st' -> memoryOnlyMode st' = true).
  { intros st0 st' H0. unfold setItem. destruct (rejects _ _ _ _); intros E; [discriminate E | ].
    injection E as <-. exact H0. }
  destruct (setItem GOTCHI_KEY (JSON_stringify p) st) as [e | st1] eqn:E.
  - destruct (is_quota_error e); [ | reflexivity].
    destruct (setItem GOTCHI_KEY (JSON_stringify p) (pruneOldData st)) as [e' | st3] eqn:E';
      [reflexivity | ].
    apply (Hset _ _ (proj1 (memory_pruneOldData st Hm)) E').
  - rewrite memory_checkAndPruneIfNeeded by apply (Hset _ _ Hm E).
    apply (Hset _ _ Hm E).
Qed.

Lemma memory_call (st : Engine) (c : Call) :
  memoryOnlyMode st = true ->
  memoryOnlyMode (call st c) = true
  /\ (gotchiSaveTimer st <> Some true ->
      gotchiSaveTimer (call st c) <> Some true
      /\ localStorage (call st c) = localStorage st).
Proof.
  intros Hm.
  assert (Hkeep : forall st',
            memoryOnlyMode st' = true
            /\ localStorage st' = localStorage st
            /\ gotchiSaveTimer st' = gotchiSaveTimer st ->
            memoryOnlyMode st' = true
            /\ (gotchiSaveTimer st <> Some true ->
                gotchiSaveTimer st' <> Some true /\ localStorage st' = localStorage st)).
  { intros st' (E1 & E2 & E3). split; [exact E1 | ]. intros Ht. rewrite E3. split; assumption. }
  destruct c; cbn [call].
  - apply Hkeep, memory_saveGotchi, Hm.
  - apply Hkeep, memory_saveLog, Hm.
  - apply Hkeep, memory_saveLog, Hm.
  - unfold flushAll, flushExpressions, flushFeedingRecords.
    destruct (memory_flushGotchiState st Hm) as (A1 & A2 & A3).
    destruct (memory_flushLog FeedingLog _ A1) as (B1 & B2 & B3).
    destruct (memory_flushLog ExpressionLog _ B1) as (C1 & C2 & C3).
    split; [exact C1 | ]. intros _. split; [ | congruence].
    rewrite C3, B3, A3. discriminate.
  - apply Hkeep, memory_pruneOldData, Hm.
  - rewrite loadGotchi_memory by exact Hm. apply Hkeep. repeat split; assumption.
  - unfold getFeedingHistory. rewrite getLog_memory by exact Hm.
    apply Hkeep. repeat split; assumption.
  - unfold getExpressions. rewrite getLog_memory by exact Hm.
    apply Hkeep. repeat split; assumption.
  - unfold checkStorageSize. rewrite isLocalStorageAvailable_memory by exact Hm.
    apply Hkeep. repeat split; assumption.
  - unfold fire_gotchiSaveTimer. destruct (gotchiSaveTimer st) as [[ | ] | ] eqn:Et.
    + split; [apply memory_gotchiSaveTimer_callback, Hm | ]. intros Hne. contradiction.
    + split; [exact Hm | ]. intros _. rewrite Et. split; [discriminate | reflexivity].
    + split; [exact Hm | ]. intros _. rewrite Et. split; [discriminate | reflexivity].
  - unfold fire_logTimer. destruct (log_timer FeedingLog st) as [[ | ] | ].
    + destruct (memory_flushLog FeedingLog (set_log_timer FeedingLog (Some false) st) Hm)
        as (E1 & E2 & E3).
      apply Hkeep. repeat split; assumption.
    + apply Hkeep. repeat split; assumption.
    + apply Hkeep. repeat split; assumption.
  - unfold fire_logTimer. destruct (log_timer ExpressionLog st) as [[ | ] | ].
    + destruct (memory_flushLog ExpressionLog (set_log_timer ExpressionLog (Some false) st) Hm)
        as (E1 & E2 & E3).
      apply Hkeep. repeat split; assumption.
    + apply Hkeep. repeat split; assumption.
    + apply Hkeep. repeat split; assumption.
Qed.

(** X8. Memory-only mode is never left: once the flag is set it stays set
    under every call and every timeout, on whatever store. When no write of
    the pet is waiting on its timer at that moment, the browser store is
    never touched again either. *)
Theorem memory_only_mode_is_final (st : Engine) (cs : list Call) :
  memoryOnlyMode st = true ->
  isMemoryOnlyMode (calls cs st) = true
  /\ (gotchiSaveTimer st <> Some true -> localStorage (calls cs st) = localStorage st).
Proof.
  revert st. induction cs as [ | c cs IH]; intros st Hm.
  - split; [exact Hm | reflexivity].
  - cbn [calls fold_left]. destruct (memory_call st c Hm) as [Hm' Hkeep].
    destruct (IH (call st c) Hm') as [IH1 IH2].
    split; [exact IH1 | ]. intros Ht. destruct (Hkeep Ht) as [Ht' Hls].
    unfold calls in IH2. rewrite (IH2 Ht'). exact Hls.
Qed.

(** ** The debounce window *)

Lemma saveGotchi_steady_eq (state : jsval) (st : Engine) :
  steady st ->
  saveGotchi state st
  = set_gotchiSaveTimer (Some true)
      (set_gotchiSaveTimer (clearTimeout (gotchiSaveTimer st))
         (set_items (delete testKey (items (localStorage st)))
            (set_pendingGotchiState (Some state) st))).
Proof.
  intros Hs. unfold saveGotchi. cbv zeta.
  rewrite isLocalStorageAvailable_steady by (revert Hs; apply steady_congr; reflexivity).
  reflexivity.
Qed.

Lemma saveLog_steady_eq (k : Log) (record : jsval) (st : Engine) :
  steady st ->
  saveLog k record st
  = let st1 :=
      set_log_timer k (clearTimeout (log_timer k st))
        (set_items (delete testKey (items (localStorage st)))
           (set_log_pending k (log_pending k st ++ [record]) st)) in
    if BATCH_SIZE <=? Z.of_nat (length (log_pending k st)) + 1
    then flushLog k st1
    else set_log_timer k (Some true) st1.
Proof.
  intros Hs. unfold saveLog. cbv zeta.
  rewrite isLocalStorageAvailable_steady
    by (revert Hs; apply steady_congr; destruct k; reflexivity).
  cbn [negb].
  replace (Z.of_nat (length (log_pending k _)))
    with (Z.of_nat (length (log_pending k st)) + 1).
  2:{ destruct k; cbn; rewrite length_app; simpl; lia. }
  destruct (BATCH_SIZE <=? _); destruct k; reflexivity.
Qed.

(** X9. A read does not see a write that still waits in its buffer: on a store
    that accepts every write, [loadGotchi] after [saveGotchi] returns what
    it returned before, and so do [getFeedingHistory] and [getExpressions]
    after a save that leaves fewer than ten records pending. *)
Theorem reads_miss_pending_writes (st : Engine) :
  steady st ->
  (forall state, fst (loadGotchi (saveGotchi state st)) = fst (loadGotchi st))
  /\ (forall k record limit,
        Z.of_nat (length (log_pending k st)) + 1 < BATCH_SIZE ->
        fst (getLog k limit (saveLog k record st)) = fst (getLog k limit st)).
Proof.
  intros Hs. split.
  - intros state. rewrite (saveGotchi_steady_eq state st Hs).
    set (st' := set_gotchiSaveTimer (Some true) _).
    assert (Hs' : steady st') by (revert Hs; apply steady_congr; reflexivity).
    destruct (loadGotchi_steady st' Hs') as (m1 & -> & _).
    destruct (loadGotchi_steady st Hs) as (m2 & -> & _).
    cbn [fst]. subst st'. cbn [items localStorage set_gotchiSaveTimer set_items].
    apply (same_views_probe (items (localStorage st))).
  - intros k record limit Hlt. rewrite (saveLog_steady_eq k record st Hs). cbv zeta.
    destruct (Z.leb_spec BATCH_SIZE (Z.of_nat (length (log_pending k st)) + 1)) as [Hge | _];
      [lia | ].
    set (st' := set_log_timer k (Some true) _).
    assert (Hs' : steady st') by (revert Hs; apply steady_congr; destruct k; reflexivity).
    destruct (getLog_steady k limit st' Hs') as (m1 & -> & _).
    destruct (getLog_steady k limit st Hs) as (m2 & -> & _).
    cbn [fst]. f_equal.
    assert (Ei : items (localStorage st') = delete testKey (items (localStorage st)))
      by (subst st'; destruct k; reflexivity).
    rewrite Ei. apply (proj2 (same_views_probe (items (localStorage st)))).
Qed.

Lemma gotchiSaveTimer_callback_steady (st : Engine) (g : jsval) :
  steady st ->
  pendingGotchiState st = Some g ->
  truthy g = true ->
  exists m',
    gotchiSaveTimer_callback st = set_pendingGotchiState None (set_items m' st)
    /\ stored_gotchi m' = (if isValidGotchiState g then Some g else None)
    /\ forall k, stored_log k m' `suffix_of` stored_log k (items (localStorage st)).
Proof.
  intros Hs Hp Ht. unfold gotchiSaveTimer_callback. rewrite Hp, Ht. cbn [negb].
  rewrite (setItem_steady _ _ _ Hs).
  set (st1 := set_items _ st).
  assert (Hs1 : steady st1) by (apply steady_set_items, Hs).
  destruct (checkAndPruneIfNeeded_steady st1 Hs1) as (m' & -> & Hlogs & Hg).
  exists m'. split; [reflexivity | ]. split.
  - rewrite Hg. subst st1. cbn [items localStorage set_items].
    apply stored_gotchi_insert.
  - intros k. etransitivity; [apply Hlogs | ].
    subst st1. cbn [items localStorage set_items].
    rewrite stored_log_insert_ne by apply gotchi_not_log. reflexivity.
Qed.

(** X10. The debounced write of the pet keeps the last state only: of two
    [saveGotchi] calls before the timer fires, the second state is what the
    timer writes and what [loadGotchi] returns afterwards, and the buffer is
    empty. *)
Theorem saveGotchi_last_write_wins (st : Engine) (first second : jsval) :
  steady st ->
  isValidGotchiState second = true ->
  let st' := fire_gotchiSaveTimer (saveGotchi second (saveGotchi first st)) in
  fst (loadGotchi st') = Some second
  /\ stored_gotchi (items (localStorage st')) = Some second
  /\ pendingGotchiState st' = None.
Proof.
  intros Hs Hv.
  destruct (saveGotchi_steady first st Hs) as [Hs1 _].
  rewrite (saveGotchi_steady_eq second _ Hs1).
  unfold fire_gotchiSaveTimer. cbn [gotchiSaveTimer set_gotchiSaveTimer].
  set (st2 := set_gotchiSaveTimer (Some false) _).
  assert (Hs2 : steady st2) by (revert Hs1; apply steady_congr; reflexivity).
  destruct (gotchiSaveTimer_callback_steady st2 second Hs2 eq_refl
              (isValidGotchiState_truthy _ Hv)) as (m' & E & Hg & _).
  cbv zeta. rewrite E. rewrite Hv in Hg.
  assert (Hs3 : steady (set_pendingGotchiState None (set_items m' st2)))
    by (revert Hs2; apply steady_congr; reflexivity).
  destruct (loadGotchi_steady _ Hs3) as (m3 & -> & _).
  cbn [fst items localStorage set_pendingGotchiState set_items].
  repeat split; assumption.
Qed.

(** ** Batches *)

Lemma saveLogs_snoc (k : Log) (records : list jsval) (record : jsval) (st : Engine) :
  saveLogs k (records ++ [record]) st = saveLog k record (saveLogs k records st).
Proof. unfold saveLogs. rewrite fold_left_app. reflexivity. Qed.

Lemma saveLogs_buffered (k : Log) (records : list jsval) (st : Engine) :
  steady st ->
  log_pending k st = [] ->
  records <> [] ->
  Z.of_nat (length records) < BATCH_SIZE ->
  let st' := saveLogs k records st in
  steady st'
  /\ items (localStorage st') = delete testKey (items (localStorage st))
  /\ log_pending k st' = records
  /\ log_timer k st' = Some true.
Proof.
  intros Hs Hp. induction records as [ | record records IH] using rev_ind;
    intros Hne Hlen; [contradiction | ].
  rewrite saveLogs_snoc. rewrite length_app in Hlen. simpl in Hlen.
  destruct records as [ | r0 records'].
  - cbn [saveLogs fold_left]. rewrite (saveLog_steady_eq k record st Hs). cbv zeta.
    rewrite Hp. cbn [length app].
    destruct (Z.leb_spec BATCH_SIZE (Z.of_nat 0 + 1)) as [Hge | _];
      [unfold BATCH_SIZE in Hge; lia | ].
    split; [revert Hs; apply steady_congr; destruct k; reflexivity | ].
    destruct k; repeat split; reflexivity.
  - destruct IH as (Hs' & Hi & Hp' & Ht'); [discriminate | lia | ].
    set (st1 := saveLogs k (r0 :: records') st) in *.
    rewrite (saveLog_steady_eq k record st1 Hs'). cbv zeta. rewrite Hp'.
    destruct (Z.leb_spec BATCH_SIZE (Z.of_nat (length (r0 :: records')) + 1)) as [Hge | _];
      [lia | ].
    split; [revert Hs'; apply steady_congr; destruct k; reflexivity | ].
    assert (Ei : forall X, items (localStorage
                   (set_log_timer k (Some true)
                      (set_log_timer k (clearTimeout (log_timer k st1))
                         (set_items (delete testKey (items (localStorage st1))) X))))
                 = delete testKey (items (localStorage st1)))
      by (intros X; destruct k; reflexivity).
    rewrite Ei, Hi, delete_delete_eq.
    destruct k; repeat split; reflexivity.
Qed.

(** X11. Records are written in batches of ten: on a store that accepts every
    write and is within its caps, up to nine saves in a row leave the
    persisted log as it was, with the records in the buffer and the timer
    set; the tenth save writes all ten at once, with no timer involved, and
    empties the buffer. *)
Theorem saveLog_batches_of_ten (k : Log) (records : list jsval) (st : Engine) :
  steady st ->
  capped (items (localStorage st)) ->
  log_pending k st = [] ->
  records <> [] ->
  let st' := saveLogs k records st in
  (Z.of_nat (length records) < BATCH_SIZE ->
   stored_log k (items (localStorage st')) = stored_log k (items (localStorage st))
   /\ log_pending k st' = records
   /\ log_timer k st' = Some true)
  /\ (Z.of_nat (length records) = BATCH_SIZE ->
      log_pending k st' = []
      /\ log_timer k st' = None
      /\ exists b,
           stored_log k (items (localStorage st'))
           = maybe_pruned b
               (Array_slice (- log_max k)
                  (stored_log k (items (localStorage st)) ++ records))).
Proof.
  intros Hs Hc Hp Hne. cbv zeta. split.
  - intros Hlen. destruct (saveLogs_buffered k records st Hs Hp Hne Hlen) as (_ & Hi & Hp' & Ht').
    split; [ | split; assumption].
    rewrite Hi. apply (proj2 (same_views_probe (items (localStorage st)))).
  - intros Hlen.
    destruct records as [ | record records] using rev_ind; [contradiction | ].
    clear IHrecords. rewrite length_app in Hlen. simpl in Hlen.
    assert (Hne' : records <> []).
    { intros ->. unfold BATCH_SIZE in Hlen. simpl in Hlen. lia. }
    destruct (saveLogs_buffered k records st Hs Hp Hne') as (Hs' & Hi & Hp' & Ht'); [lia | ].
    rewrite saveLogs_snoc. set (st1 := saveLogs k records st) in *.
    rewrite (saveLog_steady_eq k record st1 Hs'). cbv zeta. rewrite Hp'.
    destruct (Z.leb_spec BATCH_SIZE (Z.of_nat (length records) + 1)) as [_ | Hlt]; [ | lia].
    set (st2 := set_log_timer k _ _).
    assert (Hs2 : steady st2) by (revert Hs'; apply steady_congr; destruct k; reflexivity).
    assert (Hi2 : items (localStorage st2) = delete testKey (items (localStorage st)))
      by (subst st2; transitivity (delete testKey (items (localStorage st1)));
          [destruct k; reflexivity | rewrite Hi; apply delete_delete_eq]).
    assert (Hp2 : log_pending k st2 = records ++ [record])
      by (subst st2; destruct k; reflexivity).
    assert (Hc2 : capped (items (localStorage st2)))
      by (rewrite Hi2; apply capped_delete, Hc).
    destruct (flushLog_steady_capped k st2 Hs2 Hc2) as (m' & b & E & Hlog & _).
    { rewrite Hp2. destruct records; discriminate. }
    rewrite E. split; [destruct k; reflexivity | ]. split; [destruct k; reflexivity | ].
    exists b. rewrite items_flushed, Hlog, Hp2, Hi2.
    rewrite (proj2 (same_views_probe (items (localStorage st)))). reflexivity.
Qed.

(** ** Pruning again and again *)

Lemma pruneOldData_keeps_mode (st : Engine) :
  memoryOnlyMode st = true \/ steady st ->
  memoryOnlyMode (pruneOldData st) = true \/ steady (pruneOldData st).
Proof.
  intros [Hm | Hs].
  - left. apply (memory_pruneOldData st Hm).
  - right. destruct (pruneOldData_steady st Hs) as (m' & -> & _).
    apply steady_set_items, Hs.
Qed.

(** X12. Pruning never empties a log and never drops its newest entry, however
    often it runs: a log within its cap that is not empty is not empty
    after any number of [pruneOldData] calls, what is left is a suffix of
    what was there, and its last entry is the same. *)
Theorem pruning_keeps_newest (k : Log) (st : Engine) (n : nat) :
  memoryOnlyMode st = true \/ steady st ->
  Z.of_nat (length (current_log k st)) <= log_max k ->
  current_log k st <> [] ->
  let st' := Nat.iter n pruneOldData st in
  current_log k st' <> []
  /\ current_log k st' `suffix_of` current_log k st
  /\ list.last (current_log k st') = list.last (current_log k st).
Proof.
  intros Hmode Hcap Hne. cbv zeta.
  assert (Hall : (memoryOnlyMode (Nat.iter n pruneOldData st) = true
                  \/ steady (Nat.iter n pruneOldData st))
                 /\ current_log k (Nat.iter n pruneOldData st) <> []
                 /\ current_log k (Nat.iter n pruneOldData st) `suffix_of` current_log k st).
  { induction n as [ | n IH]; [split; [exact Hmode | split; [exact Hne | reflexivity]] | ].
    destruct IH as (Hmode' & Hne' & Hsuf). cbn [Nat.iter nat_rect].
    change (nat_rect _ st (fun _ => pruneOldData) n) with (Nat.iter n pruneOldData st).
    set (st' := Nat.iter n pruneOldData st) in *.
    assert (Hcap' : Z.of_nat (length (current_log k st')) <= log_max k).
    { apply suffix_length in Hsuf. lia. }
    split; [apply pruneOldData_keeps_mode, Hmode' | ].
    rewrite (pruneOldData_current_log k st' Hmode' Hcap'). split.
    - apply pruned_nonempty; [ | exact Hne'].
      pose proof (log_max_nat k). lia.
    - etransitivity; [apply pruned_suffix | exact Hsuf]. }
  destruct Hall as (_ & Hne' & Hsuf).
  split; [exact Hne' | ]. split; [exact Hsuf | ].
  apply suffix_last; assumption.
Qed.

(** ** The size of the store *)

Lemma size_step_comm (j1 j2 z1 z2 : string) (y : Z) :
  size_step j1 z1 (size_step j2 z2 y) = size_step j2 z2 (size_step j1 z1 y).
Proof.
  unfold size_step.
  destruct (negb (string_is_empty j1) && String.prefix STORAGE_KEY_PREFIX j1);
    destruct (negb (string_is_empty j2) && String.prefix STORAGE_KEY_PREFIX j2);
    destruct (negb (string_is_empty z1)); destruct (negb (string_is_empty z2)); lia.
Qed.

Lemma size_insert (key value : string) (m : gmap string string) :
  map_fold size_step 0 (<[key := value]> m)
  = size_step key value (map_fold size_step 0 (delete key m)).
Proof.
  rewrite <- (insert_delete_eq m key value).
  apply map_fold_insert_L; [ | apply lookup_delete_eq].
  intros. apply size_step_comm.
Qed.

Lemma size_lookup (key value : string) (m : gmap string string) :
  m !! key = Some value ->
  map_fold size_step 0 m = size_step key value (map_fold size_step 0 (delete key m)).
Proof.
  intros Hl. apply map_fold_delete_L; [ | exact Hl].
  intros. apply size_step_comm.
Qed.

Lemma size_step_foreign (key value : string) (y : Z) :
  String.prefix STORAGE_KEY_PREFIX key = false -> size_step key value y = y.
Proof. intros Hp. unfold size_step. rewrite Hp, andb_false_r. reflexivity. Qed.

Lemma size_delete_foreign (key : string) (m : gmap string string) :
  String.prefix STORAGE_KEY_PREFIX key = false ->
  map_fold size_step 0 (delete key m) = map_fold size_step 0 m.
Proof.
  intros Hp. destruct (m !! key) as [v | ] eqn:Hl.
  - rewrite (size_lookup key v m Hl), size_step_foreign by exact Hp. reflexivity.
  - rewrite delete_id by exact Hl. reflexivity.
Qed.

(** X13. [checkStorageSize] counts the keys of the application only: on a store
    that accepts every write, setting or removing a key that does not start
    with [wordgotchi] leaves the result as it was, and a key that does,
    with a text that is not empty, counts for twice the length of the key
    and the text together. *)
Theorem checkStorageSize_counts_own_keys (st : Engine) (key value : string) :
  steady st ->
  (String.prefix STORAGE_KEY_PREFIX key = false ->
   fst (checkStorageSize (set_items (<[key := value]> (items (localStorage st))) st))
   = fst (checkStorageSize st)
   /\ fst (checkStorageSize (set_items (delete key (items (localStorage st))) st))
      = fst (checkStorageSize st))
  /\ (String.prefix STORAGE_KEY_PREFIX key = true ->
      string_is_empty value = false ->
      fst (checkStorageSize (set_items (<[key := value]> (items (localStorage st))) st))
      = fst (checkStorageSize (set_items (delete key (items (localStorage st))) st))
        + 2 * (Z.of_nat (String.length key) + Z.of_nat (String.length value))).
Proof.
  intros Hs.
  assert (Hsize : forall m, fst (checkStorageSize (set_items m st))
                            = map_fold size_step 0 (delete testKey m)).
  { intros m. rewrite checkStorageSize_steady by apply steady_set_items, Hs. reflexivity. }
  assert (Htest : String.prefix STORAGE_KEY_PREFIX testKey = false) by reflexivity.
  split.
  - intros Hp. rewrite !Hsize.
    rewrite (checkStorageSize_steady st Hs). cbn [fst].
    rewrite !(size_delete_foreign testKey) by exact Htest.
    rewrite size_insert, size_step_foreign by exact Hp.
    rewrite size_delete_foreign by exact Hp. split; reflexivity.
  - intros Hp Hv. rewrite !Hsize.
    rewrite !(size_delete_foreign testKey) by exact Htest.
    rewrite size_insert. unfold size_step. rewrite Hp, Hv.
    destruct key as [ | c key']; [discriminate Hp | ]. cbn [string_is_empty negb andb]. lia.
Qed.

(** ** Reads *)

Lemma read_call_steady (st : Engine) (c : Call) :
  steady st ->
  is_read c = true ->
  steady (call st c) /\ same_views (items (localStorage st)) (items (localStorage (call st c))).
Proof.
  intros Hs Hr. destruct c; try discriminate Hr; cbn [call].
  - destruct (loadGotchi_steady st Hs) as (m' & -> & Hv & _). cbn [snd].
    split; [apply steady_set_items, Hs | exact Hv].
  - unfold getFeedingHistory. destruct (getLog_steady FeedingLog limit st Hs) as (m' & -> & Hv & _).
    cbn [snd]. split; [apply steady_set_items, Hs | exact Hv].
  - unfold getExpressions. destruct (getLog_steady ExpressionLog limit st Hs) as (m' & -> & Hv & _).
    cbn [snd]. split; [apply steady_set_items, Hs | exact Hv].
  - rewrite (checkStorageSize_steady st Hs). cbn [snd].
    split; [apply steady_set_items, Hs | apply same_views_probe].
Qed.

Lemma read_call_memory (st : Engine) (c : Call) :
  memoryOnlyMode st = true -> is_read c = true -> call st c = st.
Proof.
  intros Hm Hr. destruct c; try discriminate Hr; cbn [call].
  - rewrite loadGotchi_memory by exact Hm. reflexivity.
  - unfold getFeedingHistory. rewrite getLog_memory by exact Hm. reflexivity.
  - unfold getExpressions. rewrite getLog_memory by exact Hm. reflexivity.
  - unfold checkStorageSize. rewrite isLocalStorageAvailable_memory by exact Hm. reflexivity.
Qed.

(** X14. Reads do not disturb each other: on a store that accepts every write,
    and in memory-only mode, after any sequence of [loadGotchi],
    [getFeedingHistory], [getExpressions] and [checkStorageSize] calls the
    three loads return what they would have returned before it. *)
Theorem reads_do_not_interfere (st : Engine) (cs : list Call) :
  steady st \/ memoryOnlyMode st = true ->
  forallb is_read cs = true ->
  fst (loadGotchi (calls cs st)) = fst (loadGotchi st)
  /\ forall k limit, fst (getLog k limit (calls cs st)) = fst (getLog k limit st).
Proof.
  intros [Hs | Hm] Hr.
  - assert (Hall : steady (calls cs st)
                   /\ same_views (items (localStorage st)) (items (localStorage (calls cs st)))).
    { revert st Hs. induction cs as [ | c cs IH]; intros st Hs.
      - split; [exact Hs | apply same_views_refl].
      - cbn [forallb] in Hr. apply andb_prop in Hr as [Hc Hr].
        destruct (read_call_steady st c Hs Hc) as [Hs' Hv].
        destruct (IH Hr (call st c) Hs') as [Hs'' Hv'].
        cbn [calls fold_left]. split; [exact Hs'' | ].
        eapply same_views_trans; [exact Hv | exact Hv']. }
    destruct Hall as (Hs' & Hg & Hl). split.
    + destruct (loadGotchi_steady _ Hs') as (m1 & -> & _).
      destruct (loadGotchi_steady _ Hs) as (m2 & -> & _). exact Hg.
    + intros k limit.
      destruct (getLog_steady k limit _ Hs') as (m1 & -> & _).
      destruct (getLog_steady k limit _ Hs) as (m2 & -> & _). cbn [fst]. rewrite Hl. reflexivity.
  - assert (E : calls cs st = st).
    { induction cs as [ | c cs IH]; [reflexivity | ].
      cbn [forallb] in Hr. apply andb_prop in Hr as [Hc Hr].
      cbn [calls fold_left]. rewrite (read_call_memory st c Hm Hc). apply IH, Hr. }
    rewrite E. split; reflexivity.
Qed.

(** ** The logs of the mirror *)

Lemma Array_slice_neg_app {A : Type} (n : Z) (l l' : list A) :
  0 < n -> Array_slice (- n) (Array_slice (- n) l ++ l') = Array_slice (- n) (l ++ l').
Proof.
  intros Hn. rewrite !Array_slice_neg by exact Hn.
  rewrite !length_app, length_drop.
  destruct (Nat.le_gt_cases (length l) (Z.to_nat n)) as [Hle | Hgt].
  - replace (length l - Z.to_nat n)%nat with 0%nat by lia. rewrite drop_0.
    f_equal. lia.
  - set (a := (length l - Z.to_nat n)%nat).
    assert (Ea : drop a l ++ l' = drop a (l ++ l')).
    { rewrite drop_app_le by (subst a; lia). reflexivity. }
    rewrite Ea, drop_drop. f_equal. subst a. lia.
Qed.

Lemma saveLog_memory_eq (k : Log) (record : jsval) (st : Engine) :
  memoryOnlyMode st = true ->
  memoryOnlyMode (saveLog k record st) = true
  /\ log_memory k (saveLog k record st) = Array_slice (- log_max k) (log_memory k st ++ [record])
  /\ log_pending k (saveLog k record st) = []
  /\ forall k', k' <> k -> log_memory k' (saveLog k record st) = log_memory k' st.
Proof.
  intros Hm. split; [apply (memory_saveLog k record st Hm) | ].
  unfold saveLog. cbv zeta.
  rewrite isLocalStorageAvailable_memory by (destruct k; exact Hm). cbn [negb].
  unfold push_memory_capped. cbv zeta.
  set (l := log_memory k st ++ [record]).
  assert (El : forall X, log_memory k (set_log_memory k l (set_log_pending k X st)) = l)
    by (intros X; destruct k; reflexivity).
  assert (El0 : log_memory k (set_log_pending k (log_pending k st ++ [record]) st)
                = log_memory k st) by (destruct k; reflexivity).
  rewrite El0. fold l. rewrite El.
  destruct (Z.ltb_spec (log_max k) (Z.of_nat (length l))) as [Hlt | Hge].
  - split; [destruct k; reflexivity | ]. split; [destruct k; reflexivity | ].
    intros k' Hne. destruct k, k'; try contradiction; reflexivity.
  - split.
    + rewrite Array_slice_neg_all by (pose proof (log_max_pos k); lia).
      destruct k; reflexivity.
    + split; [destruct k; reflexivity | ].
      intros k' Hne. destruct k, k'; try contradiction; reflexivity.
Qed.

(** X15. In memory-only mode a save goes straight to the mirror: after a run of
    saves to one log the mirror's log is the old log followed by the saved
    records, cut to its newest 1000 (feeding) or 500 (expressions) entries;
    the other log is as it was, and the buffer is empty, records that were
    waiting in it before included. *)
Theorem memory_log_after_saves (k : Log) (records : list jsval) (st : Engine) :
  memoryOnlyMode st = true ->
  records <> [] ->
  let st' := saveLogs k records st in
  log_memory k st' = Array_slice (- log_max k) (log_memory k st ++ records)
  /\ (forall limit, fst (getLog k limit st') = Array_slice (- limit) (log_memory k st'))
  /\ log_pending k st' = []
  /\ forall k', k' <> k -> log_memory k' st' = log_memory k' st.
Proof.
  intros Hm Hne. cbv zeta.
  assert (Hall : memoryOnlyMode (saveLogs k records st) = true
                 /\ log_memory k (saveLogs k records st)
                    = Array_slice (- log_max k) (log_memory k st ++ records)
                 /\ log_pending k (saveLogs k records st) = []
                 /\ forall k', k' <> k -> log_memory k' (saveLogs k records st) = log_memory k' st).
  { induction records as [ | record records IH] using rev_ind; [contradiction | ].
    rewrite saveLogs_snoc.
    destruct records as [ | r0 records'].
    - cbn [saveLogs fold_left app]. apply saveLog_memory_eq, Hm.
    - destruct IH as (Hm' & Hl & Hp & Ho); [discriminate | ].
      destruct (saveLog_memory_eq k record _ Hm') as (Hm'' & Hl' & Hp' & Ho').
      split; [exact Hm'' | ]. split; [ | split; [exact Hp' | ]].
      + rewrite Hl', Hl, Array_slice_neg_app by apply log_max_pos.
        rewrite <- app_assoc. reflexivity.
      + intros k' Hk. rewrite (Ho' k' Hk). apply Ho, Hk. }
  destruct Hall as (Hm' & Hl & Hp & Ho).
  split; [exact Hl | ]. split; [ | split; assumption].
  intros limit. rewrite getLog_memory by exact Hm'. reflexivity.
Qed.

(** ** The pet's timer in memory-only mode *)

(** X16. The debounced write of the pet does not look at the mode. When its
    timer fires in memory-only mode and the browser store takes the write,
    the pending state goes to the browser store and the buffer is emptied;
    the mirror keeps the pet it had, and that is what [loadGotchi] goes on
    returning. *)
Theorem gotchi_timer_writes_past_the_mirror (st : Engine) (state : jsval) :
  memoryOnlyMode st = true ->
  gotchiSaveTimer st = Some true ->
  pendingGotchiState st = Some state ->
  truthy state = true ->
  rejects (localStorage st) (items (localStorage st)) GOTCHI_KEY (JSON_stringify state) = None ->
  let st' := fire_gotchiSaveTimer st in
  items (localStorage st') = <[GOTCHI_KEY := JSON_stringify state]> (items (localStorage st))
  /\ isMemoryOnlyMode st' = true
  /\ fst (loadGotchi st') = mem_gotchi (memoryStorage st)
  /\ pendingGotchiState st' = None.
Proof.
  intros Hm Ht Hp Htr Hacc. cbv zeta. unfold fire_gotchiSaveTimer. rewrite Ht.
  unfold gotchiSaveTimer_callback. cbn [pendingGotchiState set_gotchiSaveTimer].
  rewrite Hp, Htr. cbn [negb]. unfold setItem.
  cbn [localStorage items rejects set_gotchiSaveTimer]. rewrite Hacc.
  rewrite memory_checkAndPruneIfNeeded by exact Hm.
  split; [reflexivity | ]. split; [exact Hm | ]. split; [ | reflexivity].
  rewrite loadGotchi_memory by exact Hm. reflexivity.
Qed.

(** ** Housekeeping on a store that refuses writes *)

Section Housekeeping.

Variable m0 : gmap string string.
Variable r : gmap string string -> string -> string -> option DOMException.
Hypothesis r_probe : forall m, r m testKey "test" = None.

Lemma shrunk_refl (m : gmap string string) : shrunk m m.
Proof. split; [reflexivity | intros k; split; [reflexivity | tauto]]. Qed.

Lemma shrunk_same_views (m m' m'' : gmap string string) :
  shrunk m m' -> same_views m' m'' -> shrunk m m''.
Proof.
  intros [Hg Hl] [Hg' Hl']. split; [congruence | ].
  intros k. rewrite Hl'. apply Hl.
Qed.

Lemma entries_nonempty (k : Log) (l : list jsval) :
  l <> [] ->
  Array_slice (- log_max k) l <> []
  /\ pruned (Array_slice (- log_max k) l) <> [].
Proof.
  intros Hne.
  assert (Hs : Array_slice (- log_max k) l <> [])
    by (apply Array_slice_neg_nonempty; [apply log_max_pos | exact Hne]).
  split; [exact Hs | ]. apply pruned_nonempty; [ | exact Hs].
  pose proof (Array_slice_neg_length (log_max k) l (log_max_pos k)).
  pose proof (log_max_nat k). lia.
Qed.

Lemma kept_congr (st st' : Engine) :
  memoryOnlyMode st' = memoryOnlyMode st ->
  localStorage st' = localStorage st ->
  kept m0 r st -> kept m0 r st'.
Proof. intros Em El (Hm & Hr & Hs). unfold kept. rewrite Em, El. auto. Qed.

Lemma kept_same_views (m' : gmap string string) (st : Engine) :
  kept m0 r st -> same_views (items (localStorage st)) m' -> kept m0 r (set_items m' st).
Proof.
  intros (Hm & Hr & Hs) Hv. split; [exact Hm | ]. split; [exact Hr | ].
  apply (shrunk_same_views _ _ _ Hs Hv).
Qed.

Lemma kept_isLocalStorageAvailable (st : Engine) :
  kept m0 r st ->
  isLocalStorageAvailable st = (true, set_items (delete testKey (items (localStorage st))) st)
  /\ kept m0 r (set_items (delete testKey (items (localStorage st))) st).
Proof.
  intros Hk. split.
  - apply isLocalStorageAvailable_in_use. destruct Hk as (Hm & Hr & _).
    split; [exact Hm | ]. rewrite Hr. apply r_probe.
  - apply kept_same_views; [exact Hk | apply same_views_probe].
Qed.

Lemma same_views_heal_log (k : Log) (m : gmap string string) :
  stored_log k m = [] -> same_views m (delete (log_key k) m).
Proof.
  intros Hempty. split.
  - apply stored_gotchi_delete_ne. intros E. symmetry in E. exact (gotchi_not_log k E).
  - intros k'. destruct (decide (k' = k)) as [-> | Hne].
    + rewrite stored_log_delete. symmetry. exact Hempty.
    + apply stored_log_delete_ne. intros E. apply Hne. apply log_key_inj. congruence.
Qed.

Lemma same_views_heal_gotchi (m : gmap string string) :
  stored_gotchi m = None -> same_views m (delete GOTCHI_KEY m).
Proof.
  intros Hempty. split.
  - unfold stored_gotchi at 1. rewrite lookup_delete_eq. symmetry. exact Hempty.
  - intros k. apply stored_log_delete_ne, gotchi_not_log.
Qed.

Lemma kept_getLog (k : Log) (limit : Z) (st : Engine) :
  kept m0 r st ->
  kept m0 r (snd (getLog k limit st))
  /\ fst (getLog k limit st)
     = Array_slice (- limit) (stored_log k (items (localStorage (snd (getLog k limit st))))).
Proof.
  intros Hk. unfold getLog.
  destruct (kept_isLocalStorageAvailable st Hk) as [-> Hk1]. cbn [negb].
  set (st1 := set_items _ st) in *.
  unfold getItem. unfold stored_log.
  destruct (items (localStorage st1) !! log_key k) as [s | ] eqn:Hs.
  2:{ cbn [fst snd]. rewrite Hs, Array_slice_nil. split; [exact Hk1 | reflexivity]. }
  destruct (string_is_empty s) eqn:He.
  { cbn [fst snd]. rewrite Hs, He, Array_slice_nil. split; [exact Hk1 | reflexivity]. }
  assert (Hheal : JSON_parse s = None
                  \/ (exists v, JSON_parse s = Some v /\ Array_isArray v = false) ->
                  kept m0 r (removeItem (log_key k) st1)).
  { intros Hbad. apply (kept_same_views _ st1 Hk1), same_views_heal_log.
    unfold stored_log. rewrite Hs, He.
    destruct Hbad as [-> | (v & -> & Hv)]; [reflexivity | ].
    destruct v; try reflexivity; discriminate Hv. }
  destruct (JSON_parse s) as [[ | b | n | s' | l | fs] | ] eqn:Hp; cbn [fst snd];
    try (split; [apply Hheal; right; eexists; split; reflexivity | ];
         unfold removeItem; cbn [items localStorage set_items];
         rewrite lookup_delete_eq, Array_slice_nil; reflexivity).
  - rewrite Hs, He, Hp. split; [exact Hk1 | reflexivity].
  - split; [apply Hheal; left; reflexivity | ].
    unfold removeItem. cbn [items localStorage set_items].
    rewrite lookup_delete_eq, Array_slice_nil. reflexivity.
Qed.

Lemma kept_loadGotchi (st : Engine) :
  kept m0 r st ->
  kept m0 r (snd (loadGotchi st))
  /\ fst (loadGotchi st) = stored_gotchi (items (localStorage (snd (loadGotchi st)))).
Proof.
  intros Hk. unfold loadGotchi.
  destruct (kept_isLocalStorageAvailable st Hk) as [-> Hk1]. cbn [negb].
  set (st1 := set_items _ st) in *.
  unfold getItem. unfold stored_gotchi.
  destruct (items (localStorage st1) !! GOTCHI_KEY) as [s | ] eqn:Hs.
  2:{ cbn [fst snd]. rewrite Hs. split; [exact Hk1 | reflexivity]. }
  destruct (string_is_empty s) eqn:He.
  { cbn [fst snd]. rewrite Hs, He. split; [exact Hk1 | reflexivity]. }
  assert (Hheal : stored_gotchi (items (localStorage st1)) = None ->
                  kept m0 r (removeItem GOTCHI_KEY st1)
                  /\ None = match delete GOTCHI_KEY (items (localStorage st1)) !! GOTCHI_KEY with
                            | Some serialized =>
                                if string_is_empty serialized then None
                                else match JSON_parse serialized with
                                     | Some state =>
                                         if isValidGotchiState state then Some state else None
                                     | None => None
                                     end
                            | None => None
                            end).
  { intros Hnone. split.
    - apply (kept_same_views _ st1 Hk1), same_views_heal_gotchi, Hnone.
    - rewrite lookup_delete_eq. reflexivity. }
  destruct (JSON_parse s) as [v | ] eqn:Hp.
  - destruct (isValidGotchiState v) eqn:Hv; cbn [negb fst snd].
    + rewrite Hs, He, Hp, Hv. split; [exact Hk1 | reflexivity].
    + apply Hheal. unfold stored_gotchi. rewrite Hs, He, Hp, Hv. reflexivity.
  - cbn [fst snd]. apply Hheal. unfold stored_gotchi. rewrite Hs, He, Hp. reflexivity.
Qed.

Lemma kept_checkStorageSize (st : Engine) :
  kept m0 r st -> kept m0 r (snd (checkStorageSize st)).
Proof.
  intros Hk. unfold checkStorageSize.
  destruct (kept_isLocalStorageAvailable st Hk) as [-> Hk1]. exact Hk1.
Qed.

Lemma kept_setItem_log (k : Log) (l : list jsval) (st st' : Engine) :
  kept m0 r st ->
  l `suffix_of` stored_log k (items (localStorage st)) ->
  (stored_log k (items (localStorage st)) <> [] -> l <> []) ->
  setItem (log_key k) (JSON_stringify (JArr l)) st = inr st' ->
  kept m0 r st'.
Proof.
  intros (Hm & Hr & Hg & Hl) Hsuf Hne. unfold setItem.
  destruct (rejects _ _ _ _); intros E; [discriminate E | ]. injection E as <-.
  split; [exact Hm | ]. split; [exact Hr | ]. cbn [items localStorage set_items]. split.
  - rewrite stored_gotchi_insert_ne; [exact Hg | ].
    intros E. symmetry in E. exact (gotchi_not_log k E).
  - intros k'. destruct (decide (k' = k)) as [-> | Hk'].
    + rewrite stored_log_insert. destruct (Hl k) as [Hl1 Hl2]. split.
      * etransitivity; [exact Hsuf | exact Hl1].
      * intros H0. apply Hne, Hl2, H0.
    + rewrite stored_log_insert_ne by (intros E; apply Hk'; symmetry; apply log_key_inj, E).
      apply Hl.
Qed.

Lemma kept_setItem_gotchi (g : jsval) (st st' : Engine) :
  kept m0 r st ->
  stored_gotchi (items (localStorage st)) = Some g ->
  setItem GOTCHI_KEY (JSON_stringify g) st = inr st' ->
  kept m0 r st'.
Proof.
  intros (Hm & Hr & Hg & Hl) Hsome. unfold setItem.
  destruct (rejects _ _ _ _); intros E; [discriminate E | ]. injection E as <-.
  split; [exact Hm | ]. split; [exact Hr | ]. cbn [items localStorage set_items]. split.
  - rewrite stored_gotchi_insert, (stored_gotchi_valid _ _ Hsome). congruence.
  - intros k. rewrite stored_log_insert_ne by apply gotchi_not_log. apply Hl.
Qed.

Lemma kept_prune_stored_log (k : Log) (st : Engine) :
  kept m0 r st ->
  match prune_stored_log k st with inl st' => kept m0 r st' | inr st' => kept m0 r st' end.
Proof.
  intros Hk. unfold prune_stored_log.
  destruct (kept_getLog k (log_max k) st Hk) as [Hk1 He].
  destruct (getLog k (log_max k) st) as [entries st1]. cbn [fst snd] in Hk1, He.
  destruct (setItem _ _ st1) as [e | st2] eqn:E; [exact Hk1 | ].
  eapply kept_setItem_log; [exact Hk1 | | | exact E].
  - etransitivity; [apply Array_slice_suffix | ]. rewrite He. apply Array_slice_suffix.
  - intros Hne. rewrite He. apply (entries_nonempty k _ Hne).
Qed.

Lemma kept_pruneOldData (st : Engine) : kept m0 r st -> kept m0 r (pruneOldData st).
Proof.
  intros Hk. unfold pruneOldData.
  destruct (kept_isLocalStorageAvailable st Hk) as [-> Hk1]. cbn [negb].
  pose proof (kept_prune_stored_log FeedingLog _ Hk1) as Hk2.
  destruct (prune_stored_log FeedingLog _) as [st2 | st2]; [exact Hk2 | ].
  pose proof (kept_prune_stored_log ExpressionLog _ Hk2) as Hk3.
  destruct (prune_stored_log ExpressionLog st2) as [st3 | st3]; exact Hk3.
Qed.

Lemma kept_compress_stored_log (k : Log) (st : Engine) :
  kept m0 r st ->
  match compress_stored_log k st with inl st' => kept m0 r st' | inr st' => kept m0 r st' end.
Proof.
  intros Hk. unfold compress_stored_log.
  destruct (kept_getLog k (log_max k) st Hk) as [Hk1 He].
  destruct (getLog k (log_max k) st) as [entries st1]. cbn [fst snd] in Hk1, He.
  destruct (0 <? Z.of_nat (length entries)); [ | exact Hk1].
  destruct (setItem _ _ st1) as [e | st2] eqn:E; [exact Hk1 | ].
  eapply kept_setItem_log; [exact Hk1 | | | exact E].
  - rewrite He. apply Array_slice_suffix.
  - intros Hne. rewrite He. apply (entries_nonempty k _ Hne).
Qed.

Lemma kept_compressStoredData (st : Engine) : kept m0 r st -> kept m0 r (compressStoredData st).
Proof.
  intros Hk. unfold compressStoredData.
  destruct (kept_isLocalStorageAvailable st Hk) as [-> Hk1]. cbn [negb].
  pose proof (kept_compress_stored_log FeedingLog _ Hk1) as Hk2.
  destruct (compress_stored_log FeedingLog _) as [st2 | st2]; [exact Hk2 | ].
  pose proof (kept_compress_stored_log ExpressionLog _ Hk2) as Hk3.
  destruct (compress_stored_log ExpressionLog st2) as [st3 | st3]; [exact Hk3 | ].
  destruct (kept_loadGotchi st3 Hk3) as [Hk4 Hg].
  destruct (loadGotchi st3) as [g st4]. cbn [fst snd] in Hk4, Hg.
  destruct g as [g | ]; [ | exact Hk4].
  destruct (truthy g); [ | exact Hk4].
  destruct (setItem GOTCHI_KEY (JSON_stringify g) st4) as [e | st5] eqn:E; [exact Hk4 | ].
  eapply kept_setItem_gotchi; [exact Hk4 | symmetry; exact Hg | exact E].
Qed.

Lemma kept_checkAndPruneIfNeeded (st : Engine) :
  kept m0 r st -> kept m0 r (checkAndPruneIfNeeded st).
Proof.
  intros Hk. unfold checkAndPruneIfNeeded.
  destruct (kept_isLocalStorageAvailable st Hk) as [-> Hk1]. cbn [negb].
  pose proof (kept_checkStorageSize _ Hk1) as Hk2.
  destruct (checkStorageSize _) as [size st2]. cbn [snd] in Hk2.
  assert (Hk3 : kept m0 r (if exceeds_threshold size && (size <=? MAX_STORAGE_SIZE_BYTES)
                           then compressStoredData st2 else st2)).
  { destruct (exceeds_threshold size && (size <=? MAX_STORAGE_SIZE_BYTES));
      [apply kept_compressStoredData, Hk2 | exact Hk2]. }
  cbv zeta.
  pose proof (kept_checkStorageSize _ Hk3) as Hk4.
  destruct (checkStorageSize _) as [size' st4]. cbn [snd] in Hk4.
  destruct (MAX_STORAGE_SIZE_BYTES <? size'); [apply kept_pruneOldData, Hk4 | exact Hk4].
Qed.

Lemma kept_call (st : Engine) (c : Call) :
  is_housekeeping c = true -> kept m0 r st -> kept m0 r (call st c).
Proof.
  intros Hc Hk. destruct c; try discriminate Hc; cbn [call].
  - apply kept_pruneOldData, Hk.
  - apply kept_loadGotchi, Hk.
  - apply kept_getLog, Hk.
  - apply kept_getLog, Hk.
  - apply kept_checkStorageSize, Hk.
Qed.

Lemma frame_call (st : Engine) (c : Call) :
  is_housekeeping c = true -> frame_of (call st c) = frame_of st.
Proof.
  intros Hc. destruct c; try discriminate Hc; cbn [call].
  - apply frame_pruneOldData.
  - apply frame_loadGotchi.
  - apply frame_getLog.
  - apply frame_getLog.
  - apply frame_checkStorageSize.
Qed.

Lemma kept_calls (cs : list Call) (st : Engine) :
  forallb is_housekeeping cs = true ->
  kept m0 r st ->
  kept m0 r (calls cs st) /\ frame_of (calls cs st) = frame_of st.
Proof.
  revert st. induction cs as [ | c cs IH]; intros st Hcs Hk; [split; [exact Hk | reflexivity] | ].
  cbn [forallb] in Hcs. apply andb_prop in Hcs as [Hc Hcs].
  cbn [calls fold_left].
  destruct (IH (call st c) Hcs (kept_call st c Hc Hk)) as [Hk' Hf].
  split; [exact Hk' | ]. unfold calls in Hf. rewrite Hf. apply frame_call, Hc.
Qed.

(** The [try] block of a flush on a store that takes the trial write:
    when the write goes through, the newest pending record is the newest
    stored one. *)
Lemma write_log_newest (k : Log) (st : Engine) :
  kept m0 r st ->
  log_pending k st <> [] ->
  match write_log k st with
  | inr st' =>
      memoryOnlyMode st' = false
      /\ rejects (localStorage st') = r
      /\ stored_log k (items (localStorage st')) <> []
      /\ list.last (stored_log k (items (localStorage st'))) = list.last (log_pending k st)
  | inl (_, st') => kept m0 r st' /\ frame_of st' = frame_of st
  end.
Proof.
  intros Hk Hne. unfold write_log.
  destruct (kept_getLog k (log_max k) st Hk) as [Hk1 He].
  pose proof (frame_getLog k (log_max k) st) as Hf.
  destruct (getLog k (log_max k) st) as [history st1]. cbn [fst snd] in Hk1, He, Hf.
  rewrite (frame_log_pending k _ _ Hf).
  set (trimmed := Array_slice (- log_max k) (history ++ log_pending k st)).
  assert (Hnil : history ++ log_pending k st <> []).
  { intros E. apply app_eq_nil in E as [_ E]. exact (Hne E). }
  assert (Htrim : trimmed <> [])
    by (apply Array_slice_neg_nonempty; [apply log_max_pos | exact Hnil]).
  assert (Hlast : list.last trimmed = list.last (log_pending k st)).
  { subst trimmed. rewrite (suffix_last _ _ (Array_slice_suffix _ _)) by exact Htrim.
    rewrite last_app. destruct (list.last (log_pending k st)) eqn:El; [reflexivity | ].
    apply last_None in El. contradiction. }
  unfold setItem. destruct Hk1 as (Hm1 & Hr1 & Hs1).
  destruct (rejects _ _ _ _) as [e | ].
  - split; [ | exact Hf]. split; [exact Hm1 | split; assumption].
  - cbn [items localStorage set_items memoryOnlyMode rejects].
    rewrite stored_log_insert. repeat split; assumption.
Qed.

End Housekeeping.

(** X17. Housekeeping never invents data, whichever of its writes the store
    refuses: while the module works on a browser store that takes the
    trial write, any sequence of loads, size checks and [pruneOldData]
    calls, and the check that follows a flush, leave the stored pet as
    [loadGotchi] sees it unchanged and each stored log a suffix of what it
    was; the module stays on the browser store, and its timers and buffers
    are untouched. *)
Theorem housekeeping_only_shrinks (st : Engine) (cs : list Call) :
  memoryOnlyMode st = false ->
  (forall m, rejects (localStorage st) m testKey "test" = None) ->
  forallb is_housekeeping cs = true ->
  (shrunk (items (localStorage st)) (items (localStorage (calls cs st)))
   /\ isMemoryOnlyMode (calls cs st) = false
   /\ frame_of (calls cs st) = frame_of st)
  /\ (shrunk (items (localStorage st)) (items (localStorage (checkAndPruneIfNeeded st)))
      /\ isMemoryOnlyMode (checkAndPruneIfNeeded st) = false
      /\ frame_of (checkAndPruneIfNeeded st) = frame_of st).
Proof.
  intros Hm Hprobe Hcs.
  assert (Hk : kept (items (localStorage st)) (rejects (localStorage st)) st)
    by (split; [exact Hm | split; [reflexivity | apply shrunk_refl]]).
  split.
  - destruct (kept_calls _ _ Hprobe cs st Hcs Hk) as [(Hm' & _ & Hs) Hf].
    split; [exact Hs | ]. split; [exact Hm' | exact Hf].
  - destruct (kept_checkAndPruneIfNeeded _ _ Hprobe st Hk) as (Hm' & _ & Hs).
    split; [exact Hs | ]. split; [exact Hm' | apply frame_checkAndPruneIfNeeded].
Qed.

Lemma last_app_nonempty (l pending : list jsval) :
  pending <> [] -> list.last (l ++ pending) = list.last pending.
Proof.
  intros Hne. rewrite last_app. destruct (list.last pending) eqn:El; [reflexivity | ].
  apply last_None in El. contradiction.
Qed.

Lemma push_memory_capped_newest (k : Log) (records : list jsval) (st : Engine) :
  records <> [] ->
  list.last (log_memory k (push_memory_capped k records st)) = list.last records.
Proof.
  intros Hne. unfold push_memory_capped. cbv zeta.
  assert (El : forall l, log_memory k (set_log_memory k l st) = l)
    by (intros l; destruct k; reflexivity).
  rewrite El.
  assert (Hnil : log_memory k st ++ records <> []).
  { intros E. apply app_eq_nil in E as [_ E]. exact (Hne E). }
  destruct (log_max k <? _).
  - assert (El' : forall l l', log_memory k (set_log_memory k l (set_log_memory k l' st)) = l)
      by (intros l l'; destruct k; reflexivity).
    rewrite El'.
    rewrite (suffix_last _ _ (Array_slice_suffix _ _))
      by (apply Array_slice_neg_nonempty; [apply log_max_pos | exact Hnil]).
    apply last_app_nonempty, Hne.
  - rewrite El. apply last_app_nonempty, Hne.
Qed.

(** X18. A flush never loses the newest record. In memory-only mode, and on a
    browser store that takes the trial write, whatever else the store
    refuses: after [flushFeedingRecords] or [flushExpressions] with records
    pending, the last record of the buffer is the last entry of the log
    the module then works with, the browser store's or, after a fallback,
    the mirror's. *)
Theorem flushLog_keeps_newest (k : Log) (st : Engine) :
  memoryOnlyMode st = true
  \/ (forall m, rejects (localStorage st) m testKey "test" = None) ->
  log_pending k st <> [] ->
  list.last (current_log k (flushLog k st)) = list.last (log_pending k st).
Proof.
  intros Hmode Hne. unfold flushLog.
  set (st0 := set_log_timer k None st).
  assert (Hp0 : log_pending k st0 = log_pending k st) by (destruct k; reflexivity).
  rewrite Hp0.
  destruct (Z.eqb_spec (Z.of_nat (length (log_pending k st))) 0) as [Hz | _].
  { exfalso. apply Hne. destruct (log_pending k st); [reflexivity | simpl in Hz; lia]. }
  assert (Hmem : forall st', memoryOnlyMode st' = true ->
            list.last (current_log k (set_log_pending k []
                         (push_memory_capped k (log_pending k st) st')))
            = list.last (log_pending k st)).
  { intros st' Hm'. unfold current_log.
    assert (Em : memoryOnlyMode (set_log_pending k [] (push_memory_capped k (log_pending k st) st'))
                 = true).
    { destruct (push_memory_capped_frame k (log_pending k st) st') as (E & _).
      transitivity (memoryOnlyMode (push_memory_capped k (log_pending k st) st'));
        [destruct k; reflexivity | rewrite E; exact Hm']. }
    rewrite Em.
    replace (log_memory k (set_log_pending k [] (push_memory_capped k (log_pending k st) st')))
      with (log_memory k (push_memory_capped k (log_pending k st) st'))
      by (destruct k; reflexivity).
    apply push_memory_capped_newest, Hne. }
  assert (Hfall : forall st', log_pending k st' = log_pending k st ->
            list.last (current_log k (fallback_log k st')) = list.last (log_pending k st)).
  { intros st' Hp'. unfold fallback_log, current_log. cbv zeta.
    replace (memoryOnlyMode (set_log_pending k [] _)) with true by (destruct k; reflexivity).
    replace (log_memory k (set_log_pending k [] _))
      with (log_memory k st' ++ log_pending k st') by (destruct k; reflexivity).
    rewrite Hp'. apply last_app_nonempty, Hne. }
  assert (Hstored : forall st', memoryOnlyMode st' = false ->
            list.last (stored_log k (items (localStorage st'))) = list.last (log_pending k st) ->
            list.last (current_log k (set_log_pending k [] st')) = list.last (log_pending k st)).
  { intros st' Hm' Hl'. unfold current_log.
    replace (memoryOnlyMode (set_log_pending k [] st')) with false by (destruct k; symmetry; exact Hm').
    replace (items (localStorage (set_log_pending k [] st'))) with (items (localStorage st'))
      by (destruct k; reflexivity).
    exact Hl'. }
  destruct Hmode as [Hm | Hprobe].
  - rewrite isLocalStorageAvailable_memory by (destruct k; exact Hm). cbn [negb].
    rewrite Hp0. apply Hmem. destruct k; exact Hm.
  - destruct (memoryOnlyMode st) eqn:Hm.
    { rewrite isLocalStorageAvailable_memory by (destruct k; exact Hm). cbn [negb].
      rewrite Hp0. apply Hmem. destruct k; exact Hm. }
    set (r := rejects (localStorage st)) in *.
    assert (Hk0 : kept (items (localStorage st0)) r st0).
    { split; [destruct k; exact Hm | ]. split; [destruct k; reflexivity | apply shrunk_refl]. }
    destruct (kept_isLocalStorageAvailable _ r Hprobe st0 Hk0) as [-> Hk1]. cbn [negb].
    set (st1 := set_items _ st0) in *.
    assert (Hp1 : log_pending k st1 = log_pending k st) by (destruct k; reflexivity).
    pose proof (write_log_newest _ r Hprobe k st1 Hk1) as Hw. rewrite Hp1 in Hw.
    specialize (Hw Hne).
    destruct (write_log k st1) as [[e st2] | st2].
    + destruct Hw as [Hk2 Hf2].
      assert (Hp2 : log_pending k st2 = log_pending k st)
        by (rewrite (frame_log_pending k _ _ Hf2); exact Hp1).
      destruct (is_quota_error e); [ | apply Hfall, Hp2].
      pose proof (kept_pruneOldData _ r Hprobe st2 Hk2) as Hk3.
      assert (Hp3 : log_pending k (pruneOldData st2) = log_pending k st)
        by (rewrite (frame_log_pending k _ _ (frame_pruneOldData st2)); exact Hp2).
      pose proof (write_log_newest _ r Hprobe k _ Hk3) as Hw'. rewrite Hp3 in Hw'.
      specialize (Hw' Hne).
      destruct (write_log k (pruneOldData st2)) as [[e' st4] | st4].
      * destruct Hw' as [_ Hf4]. apply Hfall.
        rewrite (frame_log_pending k _ _ Hf4). exact Hp3.
      * destruct Hw' as (Hm4 & _ & _ & Hl4). apply Hstored; assumption.
    + destruct Hw as (Hm2 & Hr2 & Hne2 & Hl2).
      assert (Hk2 : kept (items (localStorage st2)) r st2)
        by (split; [exact Hm2 | split; [exact Hr2 | apply shrunk_refl]]).
      destruct (kept_checkAndPruneIfNeeded _ r Hprobe st2 Hk2) as (Hm3 & _ & _ & Hs3).
      apply Hstored; [exact Hm3 | ].
      destruct (Hs3 k) as [Hsuf Hnon]. rewrite <- Hl2.
      apply suffix_last; [exact Hsuf | apply Hnon, Hne2].
Qed.

End Properties.

(** * Properties of the context and of the utilities *)

Section ContextProperties.

Import GotchiContext.

Lemma dispatch_all_snoc (actions : list GotchiAction) (action : GotchiAction)
    (state : GotchiContextState) :
  dispatch_all (actions ++ [action]) state = gotchiReducer (dispatch_all actions state) action.
Proof. unfold dispatch_all. rewrite fold_left_app. reflexivity. Qed.

Lemma text_after_remove (words : list FeedingWord) (current : string) :
  (if Z.of_nat (length words) =? 0 then ""%string else current)
  = match words with [] => ""%string | _ :: _ => current end.
Proof.
  destruct words as [ | w ws]; [reflexivity | ].
  destruct (Z.eqb_spec (Z.of_nat (length (w :: ws))) 0) as [Ez | _]; [ | reflexivity].
  simpl in Ez. lia.
Qed.

Lemma filter_filter_remove (ids : list string) (payload : string) (l : list FeedingWord) :
  List.filter (fun w => negb (String.eqb (word_id w) payload))
    (List.filter (fun w => negb (existsb (String.eqb (word_id w)) ids)) l)
  = List.filter (fun w => negb (existsb (String.eqb (word_id w)) (ids ++ [payload]))) l.
Proof.
  induction l as [ | w l IH]; [reflexivity | ].
  simpl. rewrite existsb_app. simpl. rewrite orb_false_r.
  destruct (existsb (String.eqb (word_id w)) ids); simpl.
  - exact IH.
  - destruct (String.eqb (word_id w) payload); simpl; [exact IH | ]. rewrite IH. reflexivity.
Qed.

(** X19. Removing words from a feeding session: after [REMOVE_WORD] has been
    dispatched for a list of ids, the words left are those of the session
    whose id is not in the list, in their order, and the input text is
    cleared exactly when no word is left; nothing else in the state
    changes. *)
Theorem remove_words_clears_text (ids : list string) (state : GotchiContextState) :
  ids <> [] ->
  let state' := dispatch_all (map REMOVE_WORD ids) state in
  currentFeedingWords state'
  = List.filter (fun w => negb (existsb (String.eqb (word_id w)) ids)) (currentFeedingWords state)
  /\ currentInputText state'
     = (match currentFeedingWords state' with
        | [] => ""%string
        | _ :: _ => currentInputText state
        end)
  /\ gotchi state' = gotchi state
  /\ feedingHistory state' = feedingHistory state
  /\ expressions state' = expressions state.
Proof.
  induction ids as [ | payload ids IH] using rev_ind; intros Hne; [contradiction | ].
  cbv zeta. rewrite map_app. cbn [map]. rewrite dispatch_all_snoc.
  destruct ids as [ | id0 ids'].
  - cbn [map dispatch_all fold_left gotchiReducer currentFeedingWords currentInputText
         gotchi feedingHistory expressions app existsb].
    rewrite text_after_remove. split; [ | repeat split].
    apply List.filter_ext. intros w. rewrite orb_false_r. reflexivity.
  - destruct IH as (Hw & Ht & Hg & Hh & He); [discriminate | ].
    set (state1 := dispatch_all (map REMOVE_WORD (id0 :: ids')) state) in *.
    cbn [gotchiReducer currentFeedingWords currentInputText gotchi feedingHistory expressions].
    rewrite text_after_remove. split; [rewrite Hw; apply filter_filter_remove | ].
    split; [ | repeat split; assumption].
    destruct (List.filter _ (currentFeedingWords state1)) as [ | w ws] eqn:Ef; [reflexivity | ].
    rewrite Ht. destruct (currentFeedingWords state1); [discriminate Ef | reflexivity].
Qed.

(** X20. The histories of the context are append-only: a sequence of actions
    without [LOAD_HISTORY] leaves the feeding history it found as a prefix,
    followed by the records of its [FEED_WORDS] actions in order, and the
    expressions likewise, followed by the art and the poem of each
    [ADD_EXPRESSIONS]. *)
Theorem histories_append_only (actions : list GotchiAction) (state : GotchiContextState) :
  forallb (fun action => negb (is_load_history action)) actions = true ->
  feedingHistory (dispatch_all actions state)
  = feedingHistory state ++ concat (map fed actions)
  /\ expressions (dispatch_all actions state)
     = expressions state ++ concat (map expressed actions).
Proof.
  revert state. induction actions as [ | action actions IH]; intros state Hl.
  - simpl. rewrite !app_nil_r. split; reflexivity.
  - cbn [forallb] in Hl. apply andb_prop in Hl as [Ha Hl].
    cbn [dispatch_all fold_left]. destruct (IH (gotchiReducer state action) Hl) as [Hf He].
    unfold dispatch_all in Hf, He. rewrite Hf, He. cbn [map concat].
    rewrite !app_assoc.
    destruct action; try discriminate Ha;
      cbn [gotchiReducer feedingHistory expressions fed expressed app];
      rewrite ?app_nil_r; try (split; reflexivity).
    destruct (gotchi state); split; reflexivity.
Qed.

End ContextProperties.

Section UtilsProperties.

Import Utils.

Lemma trimStart_all (s : text) : forallb is_white_space s = true -> trimStart s = [].
Proof.
  induction s as [ | c s IH]; [reflexivity | ]. simpl.
  intros E. apply andb_prop in E as [Hc Hs]. rewrite Hc. apply IH, Hs.
Qed.

Lemma trimStart_nil_inv (s : text) : trimStart s = [] -> forallb is_white_space s = true.
Proof.
  induction s as [ | c s IH]; [reflexivity | ]. simpl.
  destruct (is_white_space c); [exact IH | discriminate].
Qed.

Lemma trimStart_head (s : text) (c : Z) :
  is_white_space c = false -> trimStart (c :: s) = c :: s.
Proof. intros Hc. simpl. rewrite Hc. reflexivity. Qed.

Lemma forallb_rev {A : Type} (f : A -> bool) (l : list A) :
  forallb f (rev l) = forallb f l.
Proof.
  induction l as [ | a l IH]; [reflexivity | ].
  simpl. rewrite forallb_app, IH. simpl. rewrite andb_true_r. apply andb_comm.
Qed.

Lemma trimStart_head_not_white (s : text) :
  match trimStart s with
  | c :: _ => is_white_space c = false
  | [] => True
  end.
Proof.
  induction s as [ | a s IH]; [exact I | ].
  simpl. destruct (is_white_space a) eqn:Ha; [exact IH | exact Ha].
Qed.

Lemma trim_nil_iff (s : text) : trim s = [] <-> forallb is_white_space s = true.
Proof.
  unfold trim. split.
  - intros E. apply (f_equal (@rev Z)) in E. rewrite rev_involutive in E.
    change (rev []) with (@nil Z) in E.
    apply trimStart_nil_inv in E. rewrite forallb_rev in E.
    pose proof (trimStart_head_not_white s) as Hh.
    destruct (trimStart s) as [ | c r] eqn:Ht.
    + apply trimStart_nil_inv, Ht.
    + simpl in E. rewrite Hh in E. discriminate E.
  - intros E. rewrite (trimStart_all s E). reflexivity.
Qed.

Lemma trim_no_white_space (s : text) : no_white_space s = true -> trim s = s.
Proof.
  intros Hs. unfold trim.
  assert (Hstart : forall t, no_white_space t = true -> trimStart t = t).
  { intros [ | c t]; [reflexivity | ]. simpl. intros E.
    apply andb_prop in E as [Hc _]. apply negb_true_iff in Hc. rewrite Hc. reflexivity. }
  rewrite (Hstart s Hs), Hstart, rev_involutive; [reflexivity | ].
  unfold no_white_space. rewrite forallb_rev. exact Hs.
Qed.

(** The pieces of a split hold no white space, and put together they are
    the text without its white space. *)
Lemma split_white_space_pieces (in_run : bool) (piece s : text) :
  no_white_space piece = true ->
  Forall (fun p => no_white_space p = true) (split_white_space in_run piece s)
  /\ concat (split_white_space in_run piece s)
     = rev piece ++ List.filter (fun c => negb (is_white_space c)) s.
Proof.
  revert in_run piece. induction s as [ | c s IH]; intros in_run piece Hp.
  - simpl. split.
    + constructor; [ | constructor]. unfold no_white_space. rewrite forallb_rev. exact Hp.
    + reflexivity.
  - simpl. destruct (is_white_space c) eqn:Hc; cbn [negb].
    + destruct in_run.
      * apply IH, Hp.
      * destruct (IH true [] eq_refl) as [Hall Hcat]. split.
        -- constructor; [ | exact Hall]. unfold no_white_space. rewrite forallb_rev. exact Hp.
        -- simpl. rewrite Hcat. reflexivity.
    + destruct (IH false (c :: piece)) as [Hall Hcat].
      { simpl. rewrite Hc. exact Hp. }
      split; [exact Hall | ]. rewrite Hcat. simpl. rewrite <- app_assoc. reflexivity.
Qed.

Lemma decomposeTextIntoWords_eq (input : text) :
  decomposeTextIntoWords input
  = List.filter (fun word => negb (Nat.eqb (length word) 0))
      (split_white_space false [] input).
Proof.
  unfold decomposeTextIntoWords.
  destruct (split_white_space_pieces false [] input eq_refl) as [Hall _].
  induction Hall as [ | p ps Hp _ IH]; [reflexivity | ].
  simpl. rewrite (trim_no_white_space p Hp), IH.
  destruct p; reflexivity.
Qed.

Lemma concat_filter_nonempty (l : list text) :
  concat (List.filter (fun word => negb (Nat.eqb (length word) 0)) l) = concat l.
Proof.
  induction l as [ | p l IH]; [reflexivity | ].
  simpl. destruct p as [ | c p]; simpl; [exact IH | ]. rewrite IH. reflexivity.
Qed.

(** X21. [decomposeTextIntoWords] returns words that are not empty and hold no
    white space; put together, in order, they are the text with its white
    space removed; and there is no word exactly when the text is empty or
    white space only. *)
Theorem decomposeTextIntoWords_words (input : text) :
  Forall (fun word => word <> [] /\ no_white_space word = true) (decomposeTextIntoWords input)
  /\ concat (decomposeTextIntoWords input)
     = List.filter (fun c => negb (is_white_space c)) input
  /\ (decomposeTextIntoWords input = [] <-> isEmptyOrWhitespace input = true).
Proof.
  rewrite decomposeTextIntoWords_eq.
  destruct (split_white_space_pieces false [] input eq_refl) as [Hall Hcat].
  simpl in Hcat.
  assert (Hwords : Forall (fun word => word <> [] /\ no_white_space word = true)
                     (List.filter (fun word => negb (Nat.eqb (length word) 0))
                        (split_white_space false [] input))).
  { clear Hcat. induction Hall as [ | p ps Hp _ IH]; [constructor | ].
    simpl. destruct p as [ | c p]; simpl; [exact IH | ].
    constructor; [split; [discriminate | exact Hp] | exact IH]. }
  assert (Hcat' : concat (List.filter (fun word => negb (Nat.eqb (length word) 0))
                            (split_white_space false [] input))
                  = List.filter (fun c => negb (is_white_space c)) input)
    by (rewrite concat_filter_nonempty; exact Hcat).
  split; [exact Hwords | ]. split; [exact Hcat' | ].
  unfold isEmptyOrWhitespace.
  assert (Hblank : forallb is_white_space input = true
                   <-> List.filter (fun c => negb (is_white_space c)) input = []).
  { clear. induction input as [ | c s IH]; [split; reflexivity | ].
    simpl. destruct (is_white_space c); simpl; [exact IH | split; discriminate]. }
  split.
  - intros E. rewrite E in Hcat'. simpl in Hcat'. symmetry in Hcat'.
    apply Hblank, trim_nil_iff in Hcat'. rewrite Hcat'. reflexivity.
  - intros E. apply Z.eqb_eq in E.
    assert (Et : trim input = []) by (destruct (trim input); [reflexivity | simpl in E; lia]).
    apply trim_nil_iff, Hblank in Et. rewrite Et in Hcat'.
    match goal with |- ?l = [] => destruct l as [ | w ws] end; [reflexivity | ].
    exfalso. inversion Hwords as [ | ? ? [Hw _] _]; subst.
    simpl in Hcat'. apply app_eq_nil in Hcat' as [Hnil _]. exact (Hw Hnil).
Qed.

Lemma split_white_space_word (in_run : bool) (piece word s : text) :
  no_white_space word = true ->
  word <> [] \/ in_run = false ->
  split_white_space in_run piece (word ++ s) = split_white_space false (rev word ++ piece) s.
Proof.
  revert in_run piece. induction word as [ | c word IH]; intros in_run piece Hw Hor.
  - destruct Hor as [Hne | ->]; [contradiction | reflexivity].
  - simpl in Hw. apply andb_prop in Hw as [Hc Hw]. apply negb_true_iff in Hc.
    simpl. rewrite Hc. rewrite (IH false (c :: piece) Hw) by (right; reflexivity).
    rewrite <- app_assoc. reflexivity.
Qed.

Lemma split_white_space_join (in_run : bool) (words : list text) :
  Forall (fun word => word <> [] /\ no_white_space word = true) words ->
  words <> [] ->
  split_white_space in_run [] (join_with_space words) = words.
Proof.
  intros Hall. revert in_run. induction Hall as [ | w ws [Hne Hw] Hws IH]; intros in_run Hnil;
    [contradiction | ].
  destruct ws as [ | w2 rest].
  - cbn [join_with_space]. rewrite <- (app_nil_r w) at 1.
    rewrite (split_white_space_word in_run [] w [] Hw) by (left; exact Hne).
    simpl. rewrite app_nil_r, rev_involutive. reflexivity.
  - change (join_with_space (w :: w2 :: rest)) with (w ++ 0x20 :: join_with_space (w2 :: rest)).
    rewrite (split_white_space_word in_run [] w _ Hw) by (left; exact Hne).
    rewrite app_nil_r. cbn [split_white_space].
    change (is_white_space 32) with true. cbv iota.
    rewrite rev_involutive, IH by discriminate. reflexivity.
Qed.

(** X22. Joining words with single spaces and decomposing the result gives the
    words back, for words that are not empty and hold no white space. *)
Theorem decomposeTextIntoWords_join (words : list text) :
  Forall (fun word => word <> [] /\ no_white_space word = true) words ->
  decomposeTextIntoWords (join_with_space words) = words.
Proof.
  intros Hall. rewrite decomposeTextIntoWords_eq.
  destruct words as [ | w ws]; [reflexivity | ].
  rewrite split_white_space_join by (exact Hall || discriminate).
  induction Hall as [ | p ps [Hne _] _ IH]; [reflexivity | ].
  simpl. destruct p as [ | c p]; [contradiction | ]. simpl. rewrite IH. reflexivity.
Qed.

(** ** Validation *)

Lemma substring_from_0_length (finish : Z) (s : text) :
  Z.of_nat (length (substring_from_0 finish s)) = Z.min (Z.max finish 0) (Z.of_nat (length s)).
Proof. unfold substring_from_0. rewrite length_take. lia. Qed.

(** X23. [truncateText] returns a prefix of the text that is no longer than
    [maxLength] (the empty text for a negative [maxLength]); a text that
    fits is returned as it is, and truncating twice is truncating once. *)
Theorem truncateText_prefix (input : text) (maxLength : Z) :
  truncateText input maxLength `prefix_of` input
  /\ Z.of_nat (length (truncateText input maxLength)) <= Z.max maxLength 0
  /\ (Z.of_nat (length input) <= maxLength -> truncateText input maxLength = input)
  /\ truncateText (truncateText input maxLength) maxLength = truncateText input maxLength.
Proof.
  unfold truncateText.
  destruct (Z.leb_spec (Z.of_nat (length input)) maxLength) as [Hle | Hgt].
  - split; [reflexivity | ]. split; [lia | ]. split; [reflexivity | ].
    destruct (Z.leb_spec (Z.of_nat (length input)) maxLength); [reflexivity | lia].
  - pose proof (substring_from_0_length maxLength input) as Hlen.
    split; [apply prefix_take | ]. split; [lia | ]. split.
    + intros Hle. exfalso. lia.
    + destruct (Z.leb_spec (Z.of_nat (length (substring_from_0 maxLength input))) maxLength)
        as [_ | Hgt']; [reflexivity | ].
      unfold substring_from_0 at 1. rewrite Hlen.
      unfold substring_from_0. rewrite take_take. f_equal. lia.
Qed.

Lemma filter_clean (s : text) :
  forallb (fun c => negb (is_invalid_character c)) s = true -> stripInvalidCharacters s = s.
Proof.
  unfold stripInvalidCharacters. induction s as [ | c s IH]; [reflexivity | ].
  simpl. intros E. apply andb_prop in E as [Hc Hs]. rewrite Hc, (IH Hs). reflexivity.
Qed.

Lemma stripInvalidCharacters_clean (s : text) :
  forallb (fun c => negb (is_invalid_character c)) (stripInvalidCharacters s) = true.
Proof.
  unfold stripInvalidCharacters. induction s as [ | c s IH]; [reflexivity | ].
  simpl. destruct (is_invalid_character c) eqn:Hc; simpl; [exact IH | ].
  rewrite Hc, IH. reflexivity.
Qed.

Lemma forallb_prefix {A : Type} (f : A -> bool) (l1 l2 : list A) :
  l1 `prefix_of` l2 -> forallb f l2 = true -> forallb f l1 = true.
Proof. intros [k ->]. rewrite forallb_app. intros E. apply andb_prop in E as [E _]. exact E. Qed.

Lemma sanitize_spec (input : text) (maxLength : Z) :
  sanitize input maxLength `prefix_of` stripInvalidCharacters input
  /\ (sanitize input maxLength <> [] -> Z.of_nat (length (sanitize input maxLength)) <= maxLength)
  /\ forallb (fun c => negb (is_invalid_character c)) (sanitize input maxLength) = true.
Proof.
  unfold sanitize. cbv zeta.
  destruct (truncateText_prefix (stripInvalidCharacters input) maxLength) as (Hpre & Hlen & _).
  assert (Hclean := stripInvalidCharacters_clean input).
  destruct (Z.ltb_spec maxLength (Z.of_nat (length (stripInvalidCharacters input)))) as [Hlt | Hge].
  - split; [exact Hpre | ]. split; [ | exact (forallb_prefix _ _ _ Hpre Hclean)].
    intros Hne. destruct (truncateText _ _) as [ | c r]; [contradiction | ].
    simpl in Hlen |- *. lia.
  - split; [reflexivity | ]. split; [intros _; exact Hge | exact Hclean].
Qed.

Lemma validateAndSanitizeInput_eq (input : text) (maxLength : option Z) :
  validateAndSanitizeInput input maxLength
  = if isEmptyOrWhitespace input
    then {| valid := false; sanitized := [];
            error := Some "Please enter some text to feed your Gotchi"%string |}
    else if isEmptyOrWhitespace (sanitize input (default 500 maxLength))
    then {| valid := false; sanitized := [];
            error := Some "Text contains only invalid characters"%string |}
    else {| valid := true; sanitized := sanitize input (default 500 maxLength); error := None |}.
Proof. reflexivity. Qed.

Lemma not_blank_nonempty (s : text) : isEmptyOrWhitespace s = false -> s <> [].
Proof. intros E ->. discriminate E. Qed.

(** X24. What [validateAndSanitizeInput] accepts: the sanitized text is a
    prefix of the input without its control characters, holds none of
    them, is at most [maxLength] units long and is not blank; no error is
    reported. What it refuses comes back with the empty text and an error
    message. *)
Theorem validateAndSanitizeInput_result (input : text) (maxLength : option Z) :
  let result := validateAndSanitizeInput input maxLength in
  (valid result = true ->
   sanitized result `prefix_of` stripInvalidCharacters input
   /\ forallb (fun c => negb (is_invalid_character c)) (sanitized result) = true
   /\ Z.of_nat (length (sanitized result)) <= default 500 maxLength
   /\ isEmptyOrWhitespace (sanitized result) = false
   /\ error result = None)
  /\ (valid result = false -> sanitized result = [] /\ error result <> None).
Proof.
  cbv zeta. rewrite validateAndSanitizeInput_eq.
  destruct (isEmptyOrWhitespace input); cbn [valid sanitized error].
  { split; [discriminate | ]. intros _. split; [reflexivity | discriminate]. }
  destruct (isEmptyOrWhitespace (sanitize input (default 500 maxLength))) eqn:Hb;
    cbn [valid sanitized error].
  { split; [discriminate | ]. intros _. split; [reflexivity | discriminate]. }
  split; [ | discriminate]. intros _.
  destruct (sanitize_spec input (default 500 maxLength)) as (Hpre & Hlen & Hclean).
  split; [exact Hpre | ]. split; [exact Hclean | ].
  split; [apply Hlen, not_blank_nonempty, Hb | ]. split; [exact Hb | reflexivity].
Qed.

(** X25. A text that [validateAndSanitizeInput] accepts always holds a word:
    [decomposeTextIntoWords] of the sanitized text is not empty, and
    validating the sanitized text again returns it unchanged. *)
Theorem validated_text_has_words (input : text) (maxLength : option Z) :
  let result := validateAndSanitizeInput input maxLength in
  valid result = true ->
  decomposeTextIntoWords (sanitized result) <> []
  /\ validateAndSanitizeInput (sanitized result) maxLength = result.
Proof.
  cbv zeta. intros Hv.
  destruct (validateAndSanitizeInput_result input maxLength) as [Hok _].
  destruct (Hok Hv) as (Hpre & Hclean & Hlen & Hb & Herr). split.
  - intros E. apply (proj1 (proj2 (proj2 (decomposeTextIntoWords_words _)))) in E.
    rewrite Hb in E. discriminate E.
  - set (result := validateAndSanitizeInput input maxLength) in *.
    rewrite validateAndSanitizeInput_eq, Hb.
    assert (Es : sanitize (sanitized result) (default 500 maxLength) = sanitized result).
    { unfold sanitize. cbv zeta. rewrite (filter_clean _ Hclean).
      destruct (Z.ltb_spec (default 500 maxLength) (Z.of_nat (length (sanitized result))));
        [lia | reflexivity]. }
    rewrite Es, Hb. destruct result as [v s e]. cbn in *. subst. reflexivity.
Qed.

(** ** The dominant emotion *)

Lemma dominant_loop (entries : list (string * number)) (best : string * number) :
  let result := fold_left dominant_step entries best in
  (snd best <= snd result)%Qc
  /\ Forall (fun entry => (snd entry <= snd result)%Qc) entries
  /\ (result = best
      \/ exists before after,
           entries = before ++ result :: after
           /\ (snd best < snd result)%Qc
           /\ Forall (fun entry => (snd entry < snd result)%Qc) before).
Proof.
  revert best. induction entries as [ | entry entries IH]; intros best; cbv zeta.
  - split; [apply Qcle_refl | ]. split; [constructor | left; reflexivity].
  - cbn [fold_left]. destruct (IH (dominant_step best entry)) as (Hle & Hall & Hor).
    set (result := fold_left dominant_step entries (dominant_step best entry)) in *.
    unfold dominant_step in Hle, Hor.
    destruct (Qclt_le_dec (snd best) (snd entry)) as [Hlt | Hge].
    + split; [apply Qclt_le_weak, (Qclt_le_trans _ _ _ Hlt Hle) | ].
      split; [constructor; [exact Hle | exact Hall] | ]. right.
      destruct Hor as [E | (before & after & E & Hlt' & Hbefore)].
      * exists [], entries. rewrite E. split; [reflexivity | ]. split; [exact Hlt | constructor].
      * exists (entry :: before), after. rewrite E. split; [reflexivity | ].
        split; [apply (Qclt_trans _ _ _ Hlt Hlt') | ].
        constructor; [exact Hlt' | exact Hbefore].
    + split; [exact Hle | ].
      split; [constructor; [apply (Qcle_trans _ _ _ Hge Hle) | exact Hall] | ].
      destruct Hor as [E | (before & after & E & Hlt' & Hbefore)]; [left; exact E | ].
      right. exists (entry :: before), after. rewrite E. split; [reflexivity | ].
      split; [exact Hlt' | ].
      constructor; [apply (Qcle_lt_trans _ _ _ Hge Hlt') | exact Hbefore].
Qed.

(** X26. [getDominantEmotion] returns the name of an emotion whose value no
    other emotion exceeds, and of several such the first in the order joy,
    sadness, anger, fear, surprise, disgust, trust: every emotion before
    it in that order has a strictly smaller value. *)
Theorem getDominantEmotion_first_maximum (vector : EmotionVector) :
  exists value before after,
    emotion_entries vector = before ++ (getDominantEmotion vector, value) :: after
    /\ Forall (fun entry => (snd entry < value)%Qc) before
    /\ Forall (fun entry => (snd entry <= value)%Qc) (emotion_entries vector).
Proof.
  unfold getDominantEmotion.
  destruct (dominant_loop (emotion_entries vector) ("joy"%string, joy vector))
    as (Hle & Hall & Hor).
  set (result := fold_left dominant_step (emotion_entries vector) ("joy"%string, joy vector)) in *.
  destruct Hor as [E | (before & after & E & Hlt & Hbefore)].
  - exists (joy vector), [], (tl (emotion_entries vector)).
    rewrite E in Hall |- *. split; [reflexivity | ]. split; [constructor | exact Hall].
  - exists (snd result), before, after.
    split; [rewrite E at 1; destruct result; reflexivity | ]. split; assumption.
Qed.

End UtilsProperties.

(** * Worked scenarios on the reference JSON object *)

Module Scenarios.

Import Fixtures.

#[local] Existing Instance ReferenceJSON.reference.

Lemma steady_accepting (m : gmap string string) : steady (initial_engine (accepting m)).
Proof. split; [reflexivity | intros m' k v; reflexivity]. Qed.

Lemma capped_empty : capped ∅.
Proof.
  intros k. unfold stored_log. rewrite lookup_empty.
  pose proof (log_max_pos k). simpl. lia.
Qed.

(** ** Long texts *)

Lemma append_length (s1 s2 : string) :
  String.length (String.append s1 s2) = (String.length s1 + String.length s2)%nat.
Proof.
  induction s1 as [ | c s1 IH]; [reflexivity | ].
  change (S (String.length (String.append s1 s2))
          = S (String.length s1 + String.length s2)).
  rewrite IH. reflexivity.
Qed.

Lemma append_assoc (s1 s2 s3 : string) :
  String.append (String.append s1 s2) s3 = String.append s1 (String.append s2 s3).
Proof.
  induction s1 as [ | c s1 IH]; [reflexivity | ].
  change (String c (String.append (String.append s1 s2) s3)
          = String c (String.append s1 (String.append s2 s3))).
  rewrite IH. reflexivity.
Qed.

Lemma doubled_length (n : nat) (s : string) :
  Z.of_nat (String.length (doubled n s)) = 2 ^ Z.of_nat n * Z.of_nat (String.length s).
Proof.
  revert s. induction n as [ | n IH]; intros s.
  - simpl. lia.
  - cbn [doubled]. rewrite IH, append_length.
    rewrite Nat2Z.inj_succ, Z.pow_succ_r by lia. lia.
Qed.

Lemma doubled_blank (n : nat) (s rest : string) :
  (forall rest', ReferenceJSON.skip_blanks (String.append s rest')
                 = ReferenceJSON.skip_blanks rest') ->
  ReferenceJSON.skip_blanks (String.append (doubled n s) rest)
  = ReferenceJSON.skip_blanks rest.
Proof.
  revert s. induction n as [ | n IH]; intros s Hs; [apply Hs | ].
  cbn [doubled]. apply IH. intros rest'. rewrite append_assoc, Hs, Hs. reflexivity.
Qed.

Lemma padded_parse (n : nat) (v : jsval) : JSON_parse (padded n v) = Some v.
Proof.
  unfold padded. cbn [JSON_parse ReferenceJSON.reference]. unfold ReferenceJSON.parse.
  rewrite doubled_blank by reflexivity.
  apply (ReferenceJSON.parse_stringify v).
Qed.

Lemma padded_length (n : nat) (v : jsval) :
  Z.of_nat (String.length (padded n v))
  = 2 ^ Z.of_nat n + Z.of_nat (String.length (JSON_stringify v)).
Proof.
  unfold padded. rewrite append_length, Nat2Z.inj_add, doubled_length.
  change (Z.of_nat (String.length " ")) with 1. lia.
Qed.

Lemma nonempty_of_length (s : string) :
  0 < Z.of_nat (String.length s) -> string_is_empty s = false.
Proof. destruct s; [simpl; lia | reflexivity]. Qed.

Lemma padded_nonempty (n : nat) (v : jsval) : string_is_empty (padded n v) = false.
Proof.
  apply nonempty_of_length. rewrite padded_length.
  assert (0 < 2 ^ Z.of_nat n) by (apply Z.pow_pos_nonneg; lia). lia.
Qed.

Lemma long_log_stored (n : nat) (l : list jsval) :
  stored_log FeedingLog (items (localStorage (long_log_store n l))) = l.
Proof.
  unfold stored_log, long_log_store. cbn [initial_engine accepting items localStorage log_key].
  rewrite lookup_singleton_eq, padded_nonempty, padded_parse. reflexivity.
Qed.

Lemma long_log_capped (n : nat) (l : list jsval) :
  Z.of_nat (length l) <= MAX_FEEDING_RECORDS ->
  capped (items (localStorage (long_log_store n l))).
Proof.
  intros Hl [ | ].
  - rewrite long_log_stored. exact Hl.
  - unfold stored_log, long_log_store.
    cbn [initial_engine accepting items localStorage log_key].
    rewrite lookup_singleton_ne by discriminate. simpl. unfold MAX_EXPRESSIONS. lia.
Qed.

Lemma long_log_size (n : nat) (l : list jsval) :
  fst (checkStorageSize (long_log_store n l))
  = (25 + 2 ^ Z.of_nat n + Z.of_nat (String.length (JSON_stringify (JArr l)))) * 2.
Proof.
  unfold long_log_store.
  rewrite (checkStorageSize_steady _ (steady_accepting _)). cbn [fst].
  cbn [initial_engine accepting items localStorage].
  rewrite delete_singleton_ne by discriminate. rewrite map_fold_singleton.
  unfold size_step. change (String.prefix STORAGE_KEY_PREFIX FEEDING_HISTORY_KEY) with true.
  change (string_is_empty FEEDING_HISTORY_KEY) with false. cbn [negb andb].
  rewrite padded_nonempty. cbn [negb]. rewrite padded_length.
  change (Z.of_nat (String.length FEEDING_HISTORY_KEY)) with 25. lia.
Qed.

Lemma two_records_text :
  Z.of_nat (String.length (JSON_stringify (JArr two_records))) <= 100000.
Proof. vm_compute. discriminate. Qed.

(** ** C1 *)

Lemma importData_rejects_invalid_witness :
  fst (importData "{ not valid json" (initial_engine (accepting ∅))) = false
  /\ loadGotchi (snd (importData "{ not valid json" (initial_engine (accepting ∅))))
     = loadGotchi (initial_engine (accepting ∅)).
Proof.
  destruct (importData_rejects_invalid "{ not valid json" (initial_engine (accepting ∅)))
    as (Hfalse & _ & Hload & _).
  - left. reflexivity.
  - split; [exact Hfalse | exact Hload].
Defined.

(** ** C2 *)

(** On a fresh store that has no room for the pet, [loadGotchi] after
    [saveGotchi] and [flushAll] returns [null]. *)
Lemma flushAll_rejected_pet_is_not_loaded_witness :
  fst (loadGotchi
         (flushAll (saveGotchi (GotchiState_js pet) (initial_engine (full_for GOTCHI_KEY)))))
  = None
  /\ isMemoryOnlyMode
       (flushAll (saveGotchi (GotchiState_js pet) (initial_engine (full_for GOTCHI_KEY))))
     = false.
Proof.
  destruct (flushAll_rejected_pet_is_not_loaded (initial_engine (full_for GOTCHI_KEY)) pet)
    as (Hload & _ & Hmode).
  - split; [reflexivity | ]. split; [intros m; reflexivity | intros m v E; discriminate E].
  - intros k. destruct k; reflexivity.
  - split; [exact Hload | exact Hmode].
Defined.

(** ** C3 *)

Lemma persisted_logs_capped_witness :
  Z.of_nat (length (stored_log FeedingLog
     (items (localStorage (run [SaveFeedingRecord (record 1); SaveExpression (record 2);
                                SaveFeedingRecord (record 3)]
                             (initial_engine (accepting ∅))))))) <= 1000
  /\ Z.of_nat (length (stored_log ExpressionLog
     (items (localStorage (run [SaveFeedingRecord (record 1); SaveExpression (record 2);
                                SaveFeedingRecord (record 3)]
                             (initial_engine (accepting ∅))))))) <= 500.
Proof.
  destruct (persisted_logs_capped (initial_engine (accepting ∅))
              [SaveFeedingRecord (record 1); SaveExpression (record 2);
               SaveFeedingRecord (record 3)]) as (Hf & He & _).
  - exact capped_empty.
  - split; [exact Hf | exact He].
Defined.

(** ** C4 *)

Lemma pruneOldData_keeps_four_fifths_witness :
  length (current_log FeedingLog
            (pruneOldData (memory_only [record 1; record 2; record 3; record 4; record 5] [])))
  = 4%nat.
Proof.
  apply (pruneOldData_keeps_four_fifths
           (memory_only [record 1; record 2; record 3; record 4; record 5] []) FeedingLog).
  - left. reflexivity.
  - simpl. unfold MAX_FEEDING_RECORDS. lia.
  - simpl. lia.
Defined.

(** C4 fails for a store of one entry: the integer part of 0.8 is 0, and
    the entry is kept, on the memory mirror and on the browser store. It
    fails as well for a browser store found above its cap: of 1002 entries
    the last 1000 are read and 800 of them kept, not 801. *)
Lemma pruneOldData_single_entry_kept :
  floor_times_0_8 1 = 0
  /\ current_log FeedingLog (memory_only [record 1] []) = [record 1]
  /\ current_log FeedingLog (pruneOldData (memory_only [record 1] [])) = [record 1]
  /\ fst (getFeedingHistory 1000
           (initial_engine (accepting {[FEEDING_HISTORY_KEY := JSON_stringify (JArr [record 1])]})))
     = [record 1]
  /\ fst (getFeedingHistory 1000
           (pruneOldData
              (initial_engine
                 (accepting {[FEEDING_HISTORY_KEY := JSON_stringify (JArr [record 1])]}))))
     = [record 1]
  /\ length (current_log FeedingLog overfull_store) = 1002%nat
  /\ floor_times_0_8 1002 = 801
  /\ length (current_log FeedingLog (pruneOldData overfull_store)) = 800%nat.
Proof. repeat split; vm_compute; reflexivity. Qed.

(** ** C5 *)

Lemma pruneOldData_small_store_unchanged_witness :
  current_log ExpressionLog (pruneOldData (memory_only [] [record 7]))
  = current_log ExpressionLog (memory_only [] [record 7]).
Proof.
  apply (pruneOldData_small_store_unchanged (memory_only [] [record 7]) ExpressionLog).
  - left. reflexivity.
  - simpl. lia.
Defined.

(** ** C6 *)

(** A log of two records in a text of 2^21 blanks and its compact form:
    the size lies between 80% of the ceiling and the ceiling, and
    compaction leaves the compact text under the key. *)
Lemma compaction_below_ceiling_witness :
  getItem FEEDING_HISTORY_KEY
    (compressStoredData (snd (checkStorageSize (long_log_store 21 two_records))))
  = Some (JSON_stringify (JArr two_records)).
Proof.
  destruct (compaction_below_ceiling (long_log_store 21 two_records)) as [Hband _].
  - apply steady_accepting.
  - apply long_log_capped. simpl. unfold MAX_FEEDING_RECORDS. lia.
  - pose proof two_records_text as Htext.
    destruct Hband as (_ & _ & Hraw & _).
    + rewrite exceeds_threshold_spec, long_log_size.
      change (2 ^ Z.of_nat 21) with 2097152. apply Z.ltb_lt. lia.
    + rewrite long_log_size. change (2 ^ Z.of_nat 21) with 2097152.
      unfold MAX_STORAGE_SIZE_BYTES. lia.
    + pose proof (Hraw FeedingLog) as Hfeed. rewrite long_log_stored in Hfeed.
      apply Hfeed. discriminate.
Defined.

(** C6 fails above the ceiling: with the same log in a text of 2^22 blanks
    the measured size is above 5 MiB, [checkAndPruneIfNeeded] does not
    compact, and the older of the two records is discarded. *)
Lemma compaction_skipped_above_ceiling :
  MAX_STORAGE_SIZE_BYTES < fst (checkStorageSize (long_log_store 22 two_records))
  /\ stored_log FeedingLog (items (localStorage (long_log_store 22 two_records)))
     = [record 1; record 2]
  /\ stored_log FeedingLog
       (items (localStorage (checkAndPruneIfNeeded (long_log_store 22 two_records))))
     = [record 2].
Proof.
  destruct (checkAndPruneIfNeeded_long_log (long_log_store 22 two_records)
              (padded 22 (JArr two_records)) two_records) as (Hsize & Hbefore & Hafter).
  - apply steady_accepting.
  - reflexivity.
  - apply padded_parse.
  - rewrite padded_length. change (2 ^ Z.of_nat 22) with 4194304.
    unfold MAX_STORAGE_SIZE_BYTES. lia.
  - simpl. unfold MAX_FEEDING_RECORDS. lia.
  - split; [exact Hsize | ]. split; [exact Hbefore | ].
    rewrite Hafter. vm_compute. reflexivity.
Qed.

(** ** C7 *)

Lemma loads_self_heal_witness :
  fst (loadGotchi (initial_engine (accepting {[GOTCHI_KEY := "invalid json"%string]}))) = None
  /\ getItem GOTCHI_KEY
       (snd (loadGotchi (initial_engine (accepting {[GOTCHI_KEY := "invalid json"%string]}))))
     = None.
Proof.
  apply (loads_self_heal
           (initial_engine (accepting {[GOTCHI_KEY := "invalid json"%string]})) "invalid json").
  - split; reflexivity.
  - reflexivity.
  - reflexivity.
  - left. reflexivity.
Defined.

(** C7 fails for the empty text: it is not JSON, [loadGotchi] returns
    [null], and the key is still in the store afterwards. It fails in
    memory-only mode too, where a load reads the mirror and leaves the
    browser store alone. *)
Lemma empty_text_not_cleared :
  JSON_parse EmptyString = None
  /\ fst (loadGotchi (initial_engine (accepting {[GOTCHI_KEY := EmptyString]}))) = None
  /\ getItem GOTCHI_KEY (snd (loadGotchi (initial_engine (accepting {[GOTCHI_KEY := EmptyString]}))))
     = Some EmptyString
  /\ JSON_parse "invalid json" = None
  /\ getItem GOTCHI_KEY mirror_over_garbage = Some "invalid json"%string
  /\ fst (loadGotchi mirror_over_garbage) = Some (GotchiState_js pet)
  /\ getItem GOTCHI_KEY (snd (loadGotchi mirror_over_garbage)) = Some "invalid json"%string.
Proof. repeat split; vm_compute; reflexivity. Qed.

(** ** C8 *)

(** On a store whose quota is exhausted, a pet saved after the failed flush
    is not what [loadGotchi] returns, and the flag stays unset. *)
Lemma rejected_flush_keeps_store_mode_witness :
  fst (loadGotchi
         (saveGotchi (GotchiState_js fed_pet)
            (flushAll (saveGotchi (GotchiState_js pet) (initial_engine quota_exhausted)))))
  = None
  /\ isMemoryOnlyMode
       (snd (loadGotchi
               (saveGotchi (GotchiState_js fed_pet)
                  (flushAll (saveGotchi (GotchiState_js pet) (initial_engine quota_exhausted))))))
     = false.
Proof.
  destruct (rejected_flush_keeps_store_mode (initial_engine quota_exhausted) pet fed_pet)
    as (_ & Hload & Hmode).
  - split; [reflexivity | ]. split; [intros m; reflexivity | intros m v E; discriminate E].
  - intros k. destruct k; reflexivity.
  - split; [exact Hload | exact Hmode].
Defined.

(** ** C9 *)

(** C9 at limit 0: the read returns every record of the log, on the
    browser store and on the memory mirror, where the claim allows none. *)
Lemma getFeedingHistory_zero_returns_all :
  fst (getFeedingHistory 0
         (initial_engine
            (accepting {[FEEDING_HISTORY_KEY := JSON_stringify (JArr [record 1; record 2])]})))
  = [record 1; record 2]
  /\ fst (getFeedingHistory 0 (memory_only [record 1; record 2] [])) = [record 1; record 2]
  /\ fst (getExpressions 0 (memory_only [] [record 3])) = [record 3].
Proof. repeat split; vm_compute; reflexivity. Qed.

(** ** C10 *)

Lemma checkStorageSize_memory_only_witness :
  checkStorageSize (memory_only [record 1; record 2] [record 3])
  = (0, memory_only [record 1; record 2] [record 3]).
Proof. apply checkStorageSize_memory_only. reflexivity. Defined.

(** ** Further properties *)

Lemma saveGotchi_flushAll_loadGotchi_witness :
  fst (loadGotchi (flushAll (saveGotchi (GotchiState_js pet) (initial_engine (accepting ∅)))))
  = Some (GotchiState_js pet).
Proof.
  apply saveGotchi_flushAll_loadGotchi.
  left. split; [reflexivity | intros m k v; reflexivity].
Defined.

Lemma memory_fallback_roundtrip_witness :
  fst (loadGotchi (saveGotchi (GotchiState_js pet) (initial_engine rejecting)))
  = Some (GotchiState_js pet)
  /\ isMemoryOnlyMode
       (snd (loadGotchi (saveGotchi (GotchiState_js pet) (initial_engine rejecting)))) = true.
Proof.
  destruct (memory_fallback_roundtrip (initial_engine rejecting) (GotchiState_js pet))
    as (Hload & Hmode & _).
  - intros m k v E. discriminate E.
  - split; [exact Hload | exact Hmode].
Defined.

Lemma getLog_positive_limit_witness :
  fst (getFeedingHistory 2 (memory_only [record 1; record 2; record 3] []))
  = [record 2; record 3].
Proof.
  apply (getLog_positive_limit FeedingLog 2 (memory_only [record 1; record 2; record 3] [])).
  - left. reflexivity.
  - lia.
Defined.

Lemma gotchiSaveTimer_callback_fallback_witness :
  isMemoryOnlyMode (gotchiSaveTimer_callback pet_waiting) = true
  /\ fst (loadGotchi (gotchiSaveTimer_callback pet_waiting)) = Some (GotchiState_js pet).
Proof.
  destruct (gotchiSaveTimer_callback_fallback pet_waiting (GotchiState_js pet))
    as (Hmode & Hload & _).
  - reflexivity.
  - reflexivity.
  - intros m E. discriminate E.
  - split; [exact Hmode | exact Hload].
Defined.

Lemma flushLog_fallback_witness :
  isMemoryOnlyMode (flushFeedingRecords records_waiting) = true
  /\ [record 1; record 2] `suffix_of` log_memory FeedingLog (flushFeedingRecords records_waiting).
Proof.
  destruct (flushLog_fallback FeedingLog records_waiting) as (Hmode & Hmem & _).
  - split; reflexivity.
  - discriminate.
  - intros m v E. discriminate E.
  - split; [exact Hmode | exact Hmem].
Defined.

Lemma calls_keep_caps_witness :
  Z.of_nat (length (stored_log FeedingLog
     (items (localStorage
        (calls [CallSaveFeedingRecord (record 1); CallSaveGotchi (GotchiState_js pet);
                TimeoutFeeding; CallPruneOldData; TimeoutGotchi]
           (initial_engine (accepting ∅))))))) <= 1000
  /\ Z.of_nat (length (stored_log ExpressionLog
     (items (localStorage
        (calls [CallSaveFeedingRecord (record 1); CallSaveGotchi (GotchiState_js pet);
                TimeoutFeeding; CallPruneOldData; TimeoutGotchi]
           (initial_engine (accepting ∅))))))) <= 500.
Proof.
  apply (calls_keep_caps (initial_engine (accepting ∅))).
  exact capped_empty.
Defined.

Lemma memory_only_mode_is_final_witness :
  isMemoryOnlyMode
    (calls [CallSaveGotchi (GotchiState_js pet); CallSaveFeedingRecord (record 2);
            CallFlushAll; TimeoutGotchi; CallPruneOldData]
       (memory_only [record 1] [])) = true
  /\ localStorage
       (calls [CallSaveGotchi (GotchiState_js pet); CallSaveFeedingRecord (record 2);
               CallFlushAll; TimeoutGotchi; CallPruneOldData]
          (memory_only [record 1] []))
     = localStorage (memory_only [record 1] []).
Proof.
  destruct (memory_only_mode_is_final (memory_only [record 1] [])
              [CallSaveGotchi (GotchiState_js pet); CallSaveFeedingRecord (record 2);
               CallFlushAll; TimeoutGotchi; CallPruneOldData]) as [Hmode Hstore].
  - reflexivity.
  - split; [exact Hmode | apply Hstore; discriminate].
Defined.

Lemma reads_miss_pending_writes_witness :
  fst (loadGotchi (saveGotchi (GotchiState_js pet) (initial_engine (accepting ∅))))
  = fst (loadGotchi (initial_engine (accepting ∅)))
  /\ fst (getFeedingHistory 10 (saveFeedingRecord (record 1) (initial_engine (accepting ∅))))
     = fst (getFeedingHistory 10 (initial_engine (accepting ∅))).
Proof.
  destruct (reads_miss_pending_writes (initial_engine (accepting ∅))) as [Hpet Hlog].
  - apply steady_accepting.
  - split; [apply Hpet | ]. apply (Hlog FeedingLog). simpl. unfold BATCH_SIZE. lia.
Defined.

Lemma saveGotchi_last_write_wins_witness :
  fst (loadGotchi
         (fire_gotchiSaveTimer
            (saveGotchi (GotchiState_js fed_pet)
               (saveGotchi (GotchiState_js pet) (initial_engine (accepting ∅))))))
  = Some (GotchiState_js fed_pet).
Proof.
  apply (saveGotchi_last_write_wins (initial_engine (accepting ∅))
           (GotchiState_js pet) (GotchiState_js fed_pet)).
  - apply steady_accepting.
  - apply isValidGotchiState_js.
Defined.

Lemma saveLog_batches_of_ten_witness :
  log_pending FeedingLog (saveLogs FeedingLog ten_records (initial_engine (accepting ∅))) = []
  /\ log_timer FeedingLog (saveLogs FeedingLog ten_records (initial_engine (accepting ∅))) = None.
Proof.
  destruct (saveLog_batches_of_ten FeedingLog ten_records (initial_engine (accepting ∅)))
    as [_ Hten].
  - apply steady_accepting.
  - exact capped_empty.
  - reflexivity.
  - discriminate.
  - destruct (Hten eq_refl) as (Hpending & Htimer & _). split; [exact Hpending | exact Htimer].
Defined.

Lemma pruning_keeps_newest_witness :
  list.last (current_log FeedingLog
               (Nat.iter 3 pruneOldData
                  (memory_only [record 1; record 2; record 3; record 4; record 5] [])))
  = Some (record 5).
Proof.
  apply (pruning_keeps_newest FeedingLog
           (memory_only [record 1; record 2; record 3; record 4; record 5] []) 3).
  - left. reflexivity.
  - simpl. unfold MAX_FEEDING_RECORDS. lia.
  - discriminate.
Defined.

Lemma checkStorageSize_counts_own_keys_witness :
  fst (checkStorageSize
         (set_items (<["other.app" := "data"]> ∅) (initial_engine (accepting ∅))))
  = fst (checkStorageSize (initial_engine (accepting ∅))).
Proof.
  destruct (checkStorageSize_counts_own_keys (initial_engine (accepting ∅)) "other.app" "data")
    as [Hforeign _].
  - apply steady_accepting.
  - apply Hforeign. reflexivity.
Defined.

Lemma reads_do_not_interfere_witness :
  fst (loadGotchi
         (calls [CallLoadGotchi; CallCheckStorageSize; CallGetFeedingHistory 5]
            (initial_engine (accepting {[GOTCHI_KEY := "invalid json"%string]}))))
  = fst (loadGotchi (initial_engine (accepting {[GOTCHI_KEY := "invalid json"%string]}))).
Proof.
  apply (reads_do_not_interfere
           (initial_engine (accepting {[GOTCHI_KEY := "invalid json"%string]}))
           [CallLoadGotchi; CallCheckStorageSize; CallGetFeedingHistory 5]).
  - left. apply steady_accepting.
  - reflexivity.
Defined.

Lemma memory_log_after_saves_witness :
  log_memory FeedingLog
    (saveLogs FeedingLog [record 2; record 3] (memory_only [record 1] []))
  = [record 1; record 2; record 3].
Proof.
  apply (memory_log_after_saves FeedingLog [record 2; record 3] (memory_only [record 1] [])).
  - reflexivity.
  - discriminate.
Defined.

Lemma gotchi_timer_writes_past_the_mirror_witness :
  items (localStorage (fire_gotchiSaveTimer pet_timer_after_fallback))
  = <[GOTCHI_KEY := JSON_stringify (GotchiState_js pet)]>
      (items (localStorage pet_timer_after_fallback))
  /\ fst (loadGotchi (fire_gotchiSaveTimer pet_timer_after_fallback)) = None.
Proof.
  destruct (gotchi_timer_writes_past_the_mirror pet_timer_after_fallback (GotchiState_js pet))
    as (Hstore & _ & Hload & _).
  - reflexivity.
  - reflexivity.
  - reflexivity.
  - reflexivity.
  - reflexivity.
  - split; [exact Hstore | exact Hload].
Defined.

Lemma housekeeping_only_shrinks_witness :
  shrunk (items (localStorage no_room_for_expressions))
    (items (localStorage (calls [CallPruneOldData; CallLoadGotchi] no_room_for_expressions)))
  /\ isMemoryOnlyMode (calls [CallPruneOldData; CallLoadGotchi] no_room_for_expressions) = false.
Proof.
  destruct (housekeeping_only_shrinks no_room_for_expressions [CallPruneOldData; CallLoadGotchi])
    as [(Hshrunk & Hmode & _) _].
  - reflexivity.
  - intros m. reflexivity.
  - reflexivity.
  - split; [exact Hshrunk | exact Hmode].
Defined.

Lemma flushLog_keeps_newest_witness :
  list.last (current_log FeedingLog (flushLog FeedingLog records_waiting))
  = list.last (log_pending FeedingLog records_waiting).
Proof.
  apply (flushLog_keeps_newest FeedingLog records_waiting).
  - right. intros m. reflexivity.
  - discriminate.
Defined.

Lemma remove_words_clears_text_witness :
  GotchiContext.currentFeedingWords
    (GotchiContext.dispatch_all (map GotchiContext.REMOVE_WORD ["word-2"; "word-1"]) session)
  = []
  /\ GotchiContext.currentInputText
       (GotchiContext.dispatch_all (map GotchiContext.REMOVE_WORD ["word-2"; "word-1"]) session)
     = ""%string.
Proof.
  destruct (remove_words_clears_text ["word-2"; "word-1"]%string session) as (Hwords & Htext & _).
  - discriminate.
  - split; [exact Hwords | ]. rewrite Htext, Hwords. reflexivity.
Defined.

Lemma histories_append_only_witness :
  GotchiContext.feedingHistory
    (GotchiContext.dispatch_all
       [GotchiContext.FEED_WORDS (record 1) fed_pet; GotchiContext.CLEAR_ERROR;
        GotchiContext.ADD_EXPRESSIONS (record 2) (record 3)]
       session)
  = [record 1]
  /\ GotchiContext.expressions
       (GotchiContext.dispatch_all
          [GotchiContext.FEED_WORDS (record 1) fed_pet; GotchiContext.CLEAR_ERROR;
           GotchiContext.ADD_EXPRESSIONS (record 2) (record 3)]
          session)
     = [record 2; record 3].
Proof.
  apply (histories_append_only
           [GotchiContext.FEED_WORDS (record 1) fed_pet; GotchiContext.CLEAR_ERROR;
            GotchiContext.ADD_EXPRESSIONS (record 2) (record 3)]
           session).
  reflexivity.
Defined.

Lemma decomposeTextIntoWords_join_witness :
  Utils.decomposeTextIntoWords (Utils.join_with_space [utf16 "Hello"; utf16 "world"])
  = [utf16 "Hello"; utf16 "world"].
Proof.
  apply decomposeTextIntoWords_join.
  repeat constructor; discriminate.
Defined.

Lemma validated_text_has_words_witness :
  Utils.decomposeTextIntoWords
    (Utils.sanitized (Utils.validateAndSanitizeInput (utf16 "Hello  world") None)) <> [].
Proof.
  apply (validated_text_has_words (utf16 "Hello  world") None).
  reflexivity.
Defined.

End Scenarios.
